(** * Two-line stunt kite simulator: the physics core, embedded and verified

    The JavaScript sources embedded here are
    - [src/utils.js]: class [Vector3];
    - the physics implementation guide: [updatePhysics],
      [updateWindConditions], [integrateMotion], [checkCollisions],
      [crossProduct], [normalizeVector];
    - [src/kite.js]: [applyForce], [applyTorque], [resetKite],
      [getKiteProperties];
    - [src/physics/physics-wind.js], wind system: [updateWindVariation],
      [setWindSpeed], [setWindDirection], [setWindVariation],
      [getWindForce];
    - [src/physics/physics-wind.js], tether system (imported by the engine as
      [./tether.js]): the four setters, [updateEffectiveLineLengths],
      [calculateDistance], [calculateLineTension], [calculateTetherForces],
      [getTetherForces];
    - [src/physics/engine.js]: [updatePhysics],
      [calculateStabilizingForce], [calculateAerodynamicForces],
      [calculateAndApplyTorque], [checkGroundCollision];
    - [src/controls.js] and its later version with a steering differential:
      [pollControls], [updateDifferentialControls];
    - the telemetry module: [calculateAngleOfAttack], [trackLoops].

    Number model.  A JavaScript number is a binary64 float.  The analytic
    properties (monotonicity, bounds, algebraic identities) are stated over
    exact real arithmetic: a finite number is a real, [Math.sqrt], [Math.sin]
    and [Math.PI] are [sqrt], [sin] and [PI], and rounding, overflow and
    underflow are outside the model: a function over [R] is the source on
    finite arguments, computed exactly.  Where the code tests for NaN (module [JSNum] and its users) a
    number is a real extended with NaN and the two infinities, with the
    IEEE 754 rules for the exceptional cases.  The fixed-step accumulator of
    the engine is modelled over the rationals, so that it can be run. *)

From Stdlib Require Import Reals Lra Lia Bool List.
From Stdlib Require Import ZArith QArith Qround Qminmax.
From Stdlib Require Lqa.
From Stdlib Require Import String.
Import ListNotations.

Set Implicit Arguments.

(** ** Vectors: the [{x, y, z}] objects of the sources *)

Module Vec.
Record t (A : Type) : Type := mk { x : A; y : A; z : A }.
Arguments mk {A} _ _ _.
Arguments x {A} _.
Arguments y {A} _.
Arguments z {A} _.
End Vec.

Definition vec (A : Type) : Type := Vec.t A.

(** ** The kite record of [kite.js] ([kiteProperties])

    The two smoothing accumulators are created on first use by [applyForce]
    and [applyTorque] ([if (!kiteProperties.smoothedAcceleration) ...]), so
    they are optional fields. *)

Record KiteProperties (A : Type) : Type := mkKite {
  mass : A;
  wingspan : A;
  area : A;
  dragCoefficient : A;
  position : vec A;
  velocity : vec A;
  rotation : vec A;
  angularVelocity : vec A;
  momentOfInertia : vec A;
  (* bridle.connectionPoint, the only bridle field the physics reads *)
  bridleConnectionPoint : vec A;
  smoothedAcceleration : option (vec A);
  smoothedAngularAcceleration : option (vec A)
}.

(** The kite of [kite.js] over the reals, as the tether and the engine read
    it: the constants of the source, at a given position and velocity, level
    and not rotating. *)
Definition kiteAt (p v : vec R) : KiteProperties R := {|
  mass := 0.5%R;
  wingspan := 2.0%R;
  area := 1.2%R;
  dragCoefficient := 0.8%R;
  position := p;
  velocity := v;
  rotation := Vec.mk 0%R 0%R 0%R;
  angularVelocity := Vec.mk 0%R 0%R 0%R;
  momentOfInertia := Vec.mk 0.1%R 0.2%R 0.15%R;
  bridleConnectionPoint := Vec.mk 0%R 0%R 0.5%R;
  smoothedAcceleration := None;
  smoothedAngularAcceleration := None
|}.

(** ** JavaScript numbers with their exceptional values

    [Fin r] is the finite number [r]; the arithmetic on finite numbers is
    exact, and the exceptional cases follow IEEE 754 (0/0, inf/inf, inf-inf,
    0*inf and the square root of a negative number are NaN; a comparison with
    NaN is false).  Signed zeros are not distinguished: a non-zero number
    divided by zero is the infinity of the sign of the dividend. *)

Module JSNum.
Local Open Scope R_scope.

Inductive num : Type :=
| NaN : num
| Inf (negative : bool) : num
| Fin (r : R) : num.

Definition Rnegative (r : R) : bool := if Rlt_dec r 0 then true else false.

Definition isNaN (a : num) : bool :=
  match a with NaN => true | _ => false end.

Definition isZero (a : num) : bool :=
  match a with
  | Fin r => if Req_dec_T r 0 then true else false
  | _ => false
  end.

Definition neg (a : num) : num :=
  match a with
  | NaN => NaN
  | Inf s => Inf (negb s)
  | Fin r => Fin (- r)
  end.

Definition add (a b : num) : num :=
  match a, b with
  | NaN, _ | _, NaN => NaN
  | Inf s, Inf s' => if Bool.eqb s s' then Inf s else NaN
  | Inf s, Fin _ => Inf s
  | Fin _, Inf s => Inf s
  | Fin u, Fin v => Fin (u + v)
  end.

Definition sub (a b : num) : num := add a (neg b).

Definition mul (a b : num) : num :=
  match a, b with
  | NaN, _ | _, NaN => NaN
  | Inf s, Inf s' => Inf (xorb s s')
  | Inf s, Fin r => if Req_dec_T r 0 then NaN else Inf (xorb s (Rnegative r))
  | Fin r, Inf s => if Req_dec_T r 0 then NaN else Inf (xorb (Rnegative r) s)
  | Fin u, Fin v => Fin (u * v)
  end.

Definition div (a b : num) : num :=
  match a, b with
  | NaN, _ | _, NaN => NaN
  | Inf _, Inf _ => NaN
  | Inf s, Fin r => Inf (xorb s (Rnegative r))
  | Fin _, Inf _ => Fin 0
  | Fin u, Fin v =>
      if Req_dec_T v 0
      then (if Req_dec_T u 0 then NaN else Inf (Rnegative u))
      else Fin (u / v)
  end.

(** [Math.sqrt] *)
Definition sqrt (a : num) : num :=
  match a with
  | NaN => NaN
  | Inf true => NaN
  | Inf false => Inf false
  | Fin r => if Rlt_dec r 0 then NaN else Fin (R_sqrt.sqrt r)
  end.

(** [Math.sin] and [Math.cos]: NaN outside the finite numbers. *)
Definition sin (a : num) : num :=
  match a with Fin r => Fin (Rtrigo_def.sin r) | _ => NaN end.

Definition cos (a : num) : num :=
  match a with Fin r => Fin (Rtrigo_def.cos r) | _ => NaN end.

(** [a < b] and [a > b]: false as soon as one side is NaN. *)
Definition lt (a b : num) : bool :=
  match a, b with
  | NaN, _ | _, NaN => false
  | Inf s, Inf s' => s && negb s'
  | Inf s, Fin _ => s
  | Fin _, Inf s => negb s
  | Fin u, Fin v => if Rlt_dec u v then true else false
  end.

Definition gt (a b : num) : bool := lt b a.

(** A division that reports a zero divisor instead of performing it. *)
Definition div_checked (a b : num) : option num :=
  if isZero b then None else Some (div a b).

Declare Scope num_scope.
Delimit Scope num_scope with num.
Bind Scope num_scope with num.
Infix "+" := add : num_scope.
Infix "-" := sub : num_scope.
Infix "*" := mul : num_scope.
Infix "/" := div : num_scope.
Infix "<?" := lt (at level 70) : num_scope.
Infix ">?" := gt (at level 70) : num_scope.
Notation "- a" := (neg a) : num_scope.

(** Numeric literals of the sources. *)
Definition PI : num := Fin Rtrigo1.PI.
Definition zero : num := Fin 0.

Definition vzero : vec num := Vec.mk zero zero zero.

Definition anyNaN (v : vec num) : bool :=
  isNaN (Vec.x v) || isNaN (Vec.y v) || isNaN (Vec.z v).

(** An infinite number, and a vector with an infinite component. *)
Definition isInfinite (a : num) : bool :=
  match a with Inf _ => true | _ => false end.

Definition anyInfinite (v : vec num) : bool :=
  isInfinite (Vec.x v) || isInfinite (Vec.y v) || isInfinite (Vec.z v).

(** [Math.max(a, b)]: NaN as soon as one argument is NaN. *)
Definition max (a b : num) : num :=
  match a, b with
  | NaN, _ | _, NaN => NaN
  | _, _ => if lt a b then b else a
  end.

(** [Math.min(a, b)]: NaN as soon as one argument is NaN. *)
Definition min (a b : num) : num :=
  match a, b with
  | NaN, _ | _, NaN => NaN
  | _, _ => if lt b a then b else a
  end.

(** [Math.max(lo, Math.min(hi, v))]: the clamp of the setters of the wind
    and of the tethers, on a JavaScript number.  A NaN goes through it. *)
Definition clamp (lo hi v : num) : num := max lo (min hi v).

End JSNum.

(** ** [src/utils.js]: class [Vector3], and [normalizeVector] of the guide

    The methods of [Vector3] that mutate [this] and return it are functions
    from the receiver to the receiver after the call. *)

Module Vector3.
Import JSNum.
Local Open Scope num_scope.

Definition add (this v : vec num) : vec num :=
  Vec.mk (Vec.x this + Vec.x v) (Vec.y this + Vec.y v) (Vec.z this + Vec.z v).

Definition subtract (this v : vec num) : vec num :=
  Vec.mk (Vec.x this - Vec.x v) (Vec.y this - Vec.y v) (Vec.z this - Vec.z v).

Definition multiply (this : vec num) (scalar : num) : vec num :=
  Vec.mk (Vec.x this * scalar) (Vec.y this * scalar) (Vec.z this * scalar).

Definition dot (this v : vec num) : num :=
  Vec.x this * Vec.x v + Vec.y this * Vec.y v + Vec.z this * Vec.z v.

Definition cross (this v : vec num) : vec num :=
  Vec.mk (Vec.y this * Vec.z v - Vec.z this * Vec.y v)
         (Vec.z this * Vec.x v - Vec.x this * Vec.z v)
         (Vec.x this * Vec.y v - Vec.y this * Vec.x v).

Definition magnitude (this : vec num) : num :=
  sqrt (Vec.x this * Vec.x this + Vec.y this * Vec.y this
        + Vec.z this * Vec.z this).

(** [normalize()]: divides only [if (mag > 0)]. *)
Definition normalize (this : vec num) : vec num :=
  let mag := magnitude this in
  if mag >? zero
  then Vec.mk (Vec.x this / mag) (Vec.y this / mag) (Vec.z this / mag)
  else this.

(** The same method with every division checked for a zero divisor. *)
Definition normalize_checked (this : vec num) : option (vec num) :=
  let mag := magnitude this in
  if mag >? zero
  then match div_checked (Vec.x this) mag,
             div_checked (Vec.y this) mag,
             div_checked (Vec.z this) mag with
       | Some a, Some b, Some c => Some (Vec.mk a b c)
       | _, _, _ => None
       end
  else Some this.

Definition distanceTo (this v : vec num) : num :=
  let dx := Vec.x this - Vec.x v in
  let dy := Vec.y this - Vec.y v in
  let dz := Vec.z this - Vec.z v in
  sqrt (dx * dx + dy * dy + dz * dz).

(** [normalizeVector(v)] of the physics implementation guide. *)
Definition normalizeVector (v : vec num) : vec num :=
  let mag := sqrt (Vec.x v * Vec.x v + Vec.y v * Vec.y v + Vec.z v * Vec.z v) in
  if mag <? Fin 0.0001 then Vec.mk zero zero zero
  else Vec.mk (Vec.x v / mag) (Vec.y v / mag) (Vec.z v / mag).

Definition normalizeVector_checked (v : vec num) : option (vec num) :=
  let mag := sqrt (Vec.x v * Vec.x v + Vec.y v * Vec.y v + Vec.z v * Vec.z v) in
  if mag <? Fin 0.0001 then Some (Vec.mk zero zero zero)
  else match div_checked (Vec.x v) mag,
             div_checked (Vec.y v) mag,
             div_checked (Vec.z v) mag with
       | Some a, Some b, Some c => Some (Vec.mk a b c)
       | _, _, _ => None
       end.

End Vector3.

(** ** [src/kite.js]: the rigid-body state and its force accumulator

    The module-level state is [kiteProperties], the Three.js object
    [kiteModel] (absent until the model is loaded; only its position and
    rotation are written here) and the console, kept as the list of the
    messages printed so far. *)

Module Kite.
Import JSNum.
Local Open Scope num_scope.

Record Object3D : Type := mkObject3D {
  modelPosition : vec num;
  modelRotation : vec num
}.

Record State : Type := mkState {
  kiteProperties : KiteProperties num;
  kiteModel : option Object3D;
  console : list string
}.

(** The initial value of [kiteProperties]. *)
Definition kiteProperties0 : KiteProperties num := {|
  mass := Fin 0.5;
  wingspan := Fin 2.0;
  area := Fin 1.2;
  dragCoefficient := Fin 0.8;
  position := Vec.mk (Fin 0) (Fin 2) (Fin 0);
  velocity := Vec.mk (Fin 0) (Fin 0) (Fin 0);
  rotation := Vec.mk (Fin 0) (Fin 0) (Fin 0);
  angularVelocity := Vec.mk (Fin 0) (Fin 0) (Fin 0);
  momentOfInertia := Vec.mk (Fin 0.1) (Fin 0.2) (Fin 0.15);
  bridleConnectionPoint := Vec.mk (Fin 0) (Fin 0) (Fin 0.5);
  smoothedAcceleration := None;
  smoothedAngularAcceleration := None
|}.

Definition initialState : State :=
  {| kiteProperties := kiteProperties0; kiteModel := None; console := [] |}.

(** Assignments to the fields of [kiteProperties]. *)
Definition setPose (k : KiteProperties num)
    (p v r w : vec num) : KiteProperties num :=
  mkKite (mass k) (wingspan k) (area k) (dragCoefficient k)
    p v r w (momentOfInertia k) (bridleConnectionPoint k)
    (smoothedAcceleration k) (smoothedAngularAcceleration k).

Definition setLinear (k : KiteProperties num)
    (p v a : vec num) : KiteProperties num :=
  mkKite (mass k) (wingspan k) (area k) (dragCoefficient k)
    p v (rotation k) (angularVelocity k)
    (momentOfInertia k) (bridleConnectionPoint k)
    (Some a) (smoothedAngularAcceleration k).

Definition setAngular (k : KiteProperties num)
    (r w a : vec num) : KiteProperties num :=
  mkKite (mass k) (wingspan k) (area k) (dragCoefficient k)
    (position k) (velocity k) r w
    (momentOfInertia k) (bridleConnectionPoint k)
    (smoothedAcceleration k) (Some a).

Definition log (msg : string) (s : State) : State :=
  mkState (kiteProperties s) (kiteModel s) (console s ++ [msg]).

(** The launch pose that [resetKite] computes. *)
Definition tetherLength : num := Fin 30.0.
Definition elevationAngle : num := PI / Fin 6.

Definition launchPosition : vec num :=
  Vec.mk (Fin 0)
         (sin elevationAngle * tetherLength)
         (- Fin 10 - cos elevationAngle * tetherLength).

Definition launchRotation : vec num :=
  Vec.mk (- (PI / Fin 2 - elevationAngle)) (Fin 0) (Fin 0).

(** [resetKite()]: position, velocity, rotation and angular velocity are
    assigned; no other field of [kiteProperties] is. *)
Definition resetKite (s : State) : State :=
  let s := log "Resetting kite position" s in
  let k := setPose (kiteProperties s)
             launchPosition (Vec.mk (Fin 0) (Fin 0) (Fin 0))
             launchRotation (Vec.mk (Fin 0) (Fin 0) (Fin 0)) in
  mkState k
    (match kiteModel s with
     | Some _ => Some (mkObject3D (position k) (rotation k))
     | None => None
     end)
    (console s).

(** [applyForce(force)] *)
Definition applyForce (force : vec num) (s : State) : State :=
  if isNaN (Vec.x force) || isNaN (Vec.y force) || isNaN (Vec.z force)
  then log "Invalid force values:" s
  else
    let k := kiteProperties s in
    let alpha := Fin 0.15 in
    let sa0 := match smoothedAcceleration k with
               | Some a => a
               | None => Vec.mk (Fin 0) (Fin 0) (Fin 0)
               end in
    let rawAcceleration :=
      Vec.mk (Vec.x force / mass k) (Vec.y force / mass k)
             (Vec.z force / mass k) in
    let sa :=
      Vec.mk (alpha * Vec.x rawAcceleration + (Fin 1 - alpha) * Vec.x sa0)
             (alpha * Vec.y rawAcceleration + (Fin 1 - alpha) * Vec.y sa0)
             (alpha * Vec.z rawAcceleration + (Fin 1 - alpha) * Vec.z sa0) in
    let v1 := Vec.mk (Vec.x (velocity k) + Vec.x sa)
                     (Vec.y (velocity k) + Vec.y sa)
                     (Vec.z (velocity k) + Vec.z sa) in
    let dampingFactor := Fin 0.05 in
    let v2 := Vec.mk (Vec.x v1 * (Fin 1 - dampingFactor))
                     (Vec.y v1 * (Fin 1 - dampingFactor))
                     (Vec.z v1 * (Fin 1 - dampingFactor)) in
    let maxVelocity := Fin 5.0 in
    let velocityMagSquared :=
      Vec.x v2 * Vec.x v2 + Vec.y v2 * Vec.y v2 + Vec.z v2 * Vec.z v2 in
    let v3 :=
      if velocityMagSquared >? maxVelocity * maxVelocity
      then let velocityMag := sqrt velocityMagSquared in
           let scale := maxVelocity / velocityMag in
           Vec.mk (Vec.x v2 * scale) (Vec.y v2 * scale) (Vec.z v2 * scale)
      else v2 in
    let p := Vec.mk (Vec.x (position k) + Vec.x v3)
                    (Vec.y (position k) + Vec.y v3)
                    (Vec.z (position k) + Vec.z v3) in
    let s1 := mkState (setLinear k p v3 sa) (kiteModel s) (console s) in
    if isNaN (Vec.x p) || isNaN (Vec.y p) || isNaN (Vec.z p)
    then resetKite (log "Invalid position values:" s1)
    else s1.

(** [applyTorque(torque)] *)
Definition applyTorque (torque : vec num) (s : State) : State :=
  if isNaN (Vec.x torque) || isNaN (Vec.y torque) || isNaN (Vec.z torque)
  then log "Invalid torque values:" s
  else
    let k := kiteProperties s in
    let alpha := Fin 0.1 in
    let sa0 := match smoothedAngularAcceleration k with
               | Some a => a
               | None => Vec.mk (Fin 0) (Fin 0) (Fin 0)
               end in
    let rawAngularAcceleration :=
      Vec.mk (Vec.x torque / Vec.x (momentOfInertia k))
             (Vec.y torque / Vec.y (momentOfInertia k))
             (Vec.z torque / Vec.z (momentOfInertia k)) in
    let sa :=
      Vec.mk (alpha * Vec.x rawAngularAcceleration + (Fin 1 - alpha) * Vec.x sa0)
             (alpha * Vec.y rawAngularAcceleration + (Fin 1 - alpha) * Vec.y sa0)
             (alpha * Vec.z rawAngularAcceleration + (Fin 1 - alpha) * Vec.z sa0) in
    let w1 := Vec.mk (Vec.x (angularVelocity k) + Vec.x sa)
                     (Vec.y (angularVelocity k) + Vec.y sa)
                     (Vec.z (angularVelocity k) + Vec.z sa) in
    let angularDampingFactor := Fin 0.08 in
    let w2 := Vec.mk (Vec.x w1 * (Fin 1 - angularDampingFactor))
                     (Vec.y w1 * (Fin 1 - angularDampingFactor))
                     (Vec.z w1 * (Fin 1 - angularDampingFactor)) in
    let maxAngularVelocity := Fin 2.0 in
    let angularVelocityMagSquared :=
      Vec.x w2 * Vec.x w2 + Vec.y w2 * Vec.y w2 + Vec.z w2 * Vec.z w2 in
    let w3 :=
      if angularVelocityMagSquared >? maxAngularVelocity * maxAngularVelocity
      then let angularVelocityMag := sqrt angularVelocityMagSquared in
           let scale := maxAngularVelocity / angularVelocityMag in
           Vec.mk (Vec.x w2 * scale) (Vec.y w2 * scale) (Vec.z w2 * scale)
      else w2 in
    let r := Vec.mk (Vec.x (rotation k) + Vec.x w3)
                    (Vec.y (rotation k) + Vec.y w3)
                    (Vec.z (rotation k) + Vec.z w3) in
    let s1 := mkState (setAngular k r w3 sa) (kiteModel s) (console s) in
    if isNaN (Vec.x r) || isNaN (Vec.y r) || isNaN (Vec.z r)
    then resetKite (log "Invalid rotation values:" s1)
    else s1.

(** Two forces: a push of 1 along x, and no force at all. *)
Definition pushX : vec num := Vec.mk (Fin 1) (Fin 0) (Fin 0).
Definition zeroForce : vec num := Vec.mk (Fin 0) (Fin 0) (Fin 0).

(** The pose that a reset is meant to restore: position, rotation, velocity
    and angular velocity. *)
Definition pose (k : KiteProperties num)
  : vec num * vec num * vec num * vec num :=
  (position k, rotation k, velocity k, angularVelocity k).

(** [applyForce(force)] on an accepted force, up to its last test: the state
    once the position is written and before it is validated. *)
Definition applyForceUpdate (force : vec num) (s : State) : State :=
  let k := kiteProperties s in
  let alpha := Fin 0.15 in
  let sa0 := match smoothedAcceleration k with
             | Some a => a
             | None => Vec.mk (Fin 0) (Fin 0) (Fin 0)
             end in
  let rawAcceleration :=
    Vec.mk (Vec.x force / mass k) (Vec.y force / mass k)
           (Vec.z force / mass k) in
  let sa :=
    Vec.mk (alpha * Vec.x rawAcceleration + (Fin 1 - alpha) * Vec.x sa0)
           (alpha * Vec.y rawAcceleration + (Fin 1 - alpha) * Vec.y sa0)
           (alpha * Vec.z rawAcceleration + (Fin 1 - alpha) * Vec.z sa0) in
  let v1 := Vec.mk (Vec.x (velocity k) + Vec.x sa)
                   (Vec.y (velocity k) + Vec.y sa)
                   (Vec.z (velocity k) + Vec.z sa) in
  let dampingFactor := Fin 0.05 in
  let v2 := Vec.mk (Vec.x v1 * (Fin 1 - dampingFactor))
                   (Vec.y v1 * (Fin 1 - dampingFactor))
                   (Vec.z v1 * (Fin 1 - dampingFactor)) in
  let maxVelocity := Fin 5.0 in
  let velocityMagSquared :=
    Vec.x v2 * Vec.x v2 + Vec.y v2 * Vec.y v2 + Vec.z v2 * Vec.z v2 in
  let v3 :=
    if velocityMagSquared >? maxVelocity * maxVelocity
    then let velocityMag := sqrt velocityMagSquared in
         let scale := maxVelocity / velocityMag in
         Vec.mk (Vec.x v2 * scale) (Vec.y v2 * scale) (Vec.z v2 * scale)
    else v2 in
  let p := Vec.mk (Vec.x (position k) + Vec.x v3)
                  (Vec.y (position k) + Vec.y v3)
                  (Vec.z (position k) + Vec.z v3) in
  mkState (setLinear k p v3 sa) (kiteModel s) (console s).

(** [applyTorque(torque)] on an accepted torque, up to its last test. *)
Definition applyTorqueUpdate (torque : vec num) (s : State) : State :=
  let k := kiteProperties s in
  let alpha := Fin 0.1 in
  let sa0 := match smoothedAngularAcceleration k with
             | Some a => a
             | None => Vec.mk (Fin 0) (Fin 0) (Fin 0)
             end in
  let rawAngularAcceleration :=
    Vec.mk (Vec.x torque / Vec.x (momentOfInertia k))
           (Vec.y torque / Vec.y (momentOfInertia k))
           (Vec.z torque / Vec.z (momentOfInertia k)) in
  let sa :=
    Vec.mk (alpha * Vec.x rawAngularAcceleration + (Fin 1 - alpha) * Vec.x sa0)
           (alpha * Vec.y rawAngularAcceleration + (Fin 1 - alpha) * Vec.y sa0)
           (alpha * Vec.z rawAngularAcceleration + (Fin 1 - alpha) * Vec.z sa0) in
  let w1 := Vec.mk (Vec.x (angularVelocity k) + Vec.x sa)
                   (Vec.y (angularVelocity k) + Vec.y sa)
                   (Vec.z (angularVelocity k) + Vec.z sa) in
  let angularDampingFactor := Fin 0.08 in
  let w2 := Vec.mk (Vec.x w1 * (Fin 1 - angularDampingFactor))
                   (Vec.y w1 * (Fin 1 - angularDampingFactor))
                   (Vec.z w1 * (Fin 1 - angularDampingFactor)) in
  let maxAngularVelocity := Fin 2.0 in
  let angularVelocityMagSquared :=
    Vec.x w2 * Vec.x w2 + Vec.y w2 * Vec.y w2 + Vec.z w2 * Vec.z w2 in
  let w3 :=
    if angularVelocityMagSquared >? maxAngularVelocity * maxAngularVelocity
    then let angularVelocityMag := sqrt angularVelocityMagSquared in
         let scale := maxAngularVelocity / angularVelocityMag in
         Vec.mk (Vec.x w2 * scale) (Vec.y w2 * scale) (Vec.z w2 * scale)
    else w2 in
  let r := Vec.mk (Vec.x (rotation k) + Vec.x w3)
                  (Vec.y (rotation k) + Vec.y w3)
                  (Vec.z (rotation k) + Vec.z w3) in
  mkState (setAngular k r w3 sa) (kiteModel s) (console s).

(** Whether a call of [applyForce] ends in [resetKite]. *)
Definition applyForceResets (force : vec num) (s : State) : bool :=
  negb (anyNaN force)
  && anyNaN (position (kiteProperties (applyForceUpdate force s))).

(** The object that [getKiteProperties()] returns, [{ ...kiteProperties }]:
    a copy of the numbers, and for position, velocity, rotation and angular
    velocity the very objects that [kiteProperties] refers to at the time of
    the call.  [shared] holds as long as [kiteProperties] still refers to
    them; [resetKite] assigns four new objects, and from then on the copy
    alone refers to the old ones, whose contents are the vectors of [own]. *)
Record Snapshot : Type := mkSnapshot {
  shared : bool;
  own : KiteProperties num
}.

Definition getKiteProperties (s : State) : Snapshot :=
  mkSnapshot true (kiteProperties s).

(** Reading a vector through the copy. *)
Definition seen (k : Snapshot) (s : State) : KiteProperties num :=
  if shared k then kiteProperties s else own k.

(** Writing position and velocity through the copy. *)
Definition setMotion (k0 : KiteProperties num) (p v : vec num)
  : KiteProperties num :=
  mkKite (mass k0) (wingspan k0) (area k0) (dragCoefficient k0)
    p v (rotation k0) (angularVelocity k0)
    (momentOfInertia k0) (bridleConnectionPoint k0)
    (smoothedAcceleration k0) (smoothedAngularAcceleration k0).

Definition writeMotion (p v : vec num) (k : Snapshot) (s : State)
  : Snapshot * State :=
  if shared k
  then (k, mkState (setMotion (kiteProperties s) p v) (kiteModel s) (console s))
  else (mkSnapshot false (setMotion (own k) p v), s).

(** [applyForce] as seen from the holder of a copy: a reset leaves the copy
    with the objects as they were just before it. *)
Definition applyForceVia (force : vec num) (k : Snapshot) (s : State)
  : Snapshot * State :=
  (if shared k && applyForceResets force s
   then let k1 := kiteProperties (applyForceUpdate force s) in
        mkSnapshot false
          (setPose (own k) (position k1) (velocity k1)
                   (rotation k1) (angularVelocity k1))
   else k,
   applyForce force s).

(** A kite at rest 0.2 m above the ground. *)
Definition lowState : State :=
  mkState
    (setPose kiteProperties0 (Vec.mk (Fin 0) (Fin 0.2) (Fin 0))
       (Vec.mk (Fin 0) (Fin 0) (Fin 0)) (Vec.mk (Fin 0) (Fin 0) (Fin 0))
       (Vec.mk (Fin 0) (Fin 0) (Fin 0)))
    None [].

End Kite.

(** ** [src/physics/physics-wind.js], wind system, over the reals

    [performance.now()] and the four successive results of [Math.random()]
    that one update consumes are arguments of the update. *)

Module Wind.
Local Open Scope R_scope.

Record WindState : Type := mkWind {
  baseSpeed : R;
  baseDirection : vec R;
  currentSpeed : R;
  currentDirection : vec R;
  gustStrength : R;
  gustFrequency : R;
  turbulence : R;
  userWindScale : R
}.

(** The initial value of the module-level [windState]. *)
Definition windState : WindState := {|
  baseSpeed := 5.0;
  baseDirection := Vec.mk 0 0 1;
  currentSpeed := 5.0;
  currentDirection := Vec.mk 0 0 1;
  gustStrength := 0.2;
  gustFrequency := 0.2;
  turbulence := 0.1;
  userWindScale := 1.0
|}.

(** The local [variationFactor] of [updateWindVariation]. *)
Definition variationFactor (now random0 : R) (w : WindState) : R :=
  let time := now / 1000 in
  let gustFactor := sin (time * gustFrequency w) * gustStrength w in
  let turbulenceFactor := (random0 - 0.5) * turbulence w in
  1.0 + gustFactor + turbulenceFactor.

Definition updateWindVariation (deltaTime now : R)
    (random0 random1 random2 random3 : R) (w : WindState) : WindState :=
  let time := now / 1000 in
  let gustFactor := sin (time * gustFrequency w) * gustStrength w in
  let turbulenceFactor := (random0 - 0.5) * turbulence w in
  let variationFactor := 1.0 + gustFactor + turbulenceFactor in
  let speed := Rmax 0.1 (baseSpeed w * variationFactor * userWindScale w) in
  let directionVariation := turbulence w * 0.1 in
  let d := Vec.mk
    (Vec.x (baseDirection w) + (random1 - 0.5) * directionVariation)
    (Vec.y (baseDirection w) + (random2 - 0.5) * directionVariation)
    (Vec.z (baseDirection w) + (random3 - 0.5) * directionVariation) in
  let mag := sqrt (Vec.x d * Vec.x d + Vec.y d * Vec.y d + Vec.z d * Vec.z d) in
  mkWind (baseSpeed w) (baseDirection w) speed
    (Vec.mk (Vec.x d / mag) (Vec.y d / mag) (Vec.z d / mag))
    (gustStrength w) (gustFrequency w) (turbulence w) (userWindScale w).

(** [setWindSpeed(scale)] on a finite [scale].  The clamp of the source is
    [JSNum.clamp]: it stores a NaN argument as NaN. *)
Definition setWindSpeed (scale : R) (w : WindState) : WindState :=
  let clampedScale := Rmax 0 (Rmin 1 scale) in
  mkWind (baseSpeed w) (baseDirection w) (currentSpeed w) (currentDirection w)
    (gustStrength w) (gustFrequency w) (turbulence w) clampedScale.

(** [setWindVariation(params)]: each parameter that is not [undefined] is
    stored as given. *)
Definition setWindVariation (gust frequency turb : option R) (w : WindState)
  : WindState :=
  mkWind (baseSpeed w) (baseDirection w) (currentSpeed w) (currentDirection w)
    (match gust with Some g => g | None => gustStrength w end)
    (match frequency with Some f => f | None => gustFrequency w end)
    (match turb with Some t => t | None => turbulence w end)
    (userWindScale w).

(** A wind with gusts of twice the base speed. *)
Definition gustyWind : WindState := setWindVariation (Some 2) None None windState.

Definition getWindSpeed (w : WindState) : R := currentSpeed w.
Definition getWindDirection (w : WindState) : vec R := currentDirection w.

(** A result of [Math.random()]: a number of [[0, 1)]. *)
Definition isRandom (r : R) : Prop := 0 <= r < 1.

(** [setWindDirection(x, y, z)]: the vector is stored, divided by its length
    when that is above zero, and copied to the current direction.  The
    length is the exact one: the squares neither underflow to zero nor
    overflow, as they do in binary64 on components below about 1e-162 or
    above about 1e154. *)
Definition setWindDirection (x y z : R) (w : WindState) : WindState :=
  let mag := sqrt (x * x + y * y + z * z) in
  let baseDirection :=
    if Rlt_dec 0 mag then Vec.mk (x / mag) (y / mag) (z / mag)
    else Vec.mk x y z in
  mkWind (baseSpeed w) baseDirection (currentSpeed w) baseDirection
    (gustStrength w) (gustFrequency w) (turbulence w) (userWindScale w).

(** [getWindForce(kite)] *)
Definition getWindForce (kite : KiteProperties R) (w : WindState) : vec R :=
  let forceMagnitude :=
    0.5 * 1.225 * currentSpeed w * currentSpeed w * area kite in
  Vec.mk (forceMagnitude * Vec.x (currentDirection w))
         (forceMagnitude * Vec.y (currentDirection w))
         (forceMagnitude * Vec.z (currentDirection w)).

End Wind.

(** ** [src/physics/physics-wind.js], tether system, over the reals *)

Module Tether.
Local Open Scope R_scope.

Record TetherConfig : Type := mkTether {
  leftLineLength : R;
  rightLineLength : R;
  lineTension : R;
  lineElasticity : R;
  lineDrag : R;
  operatorPosition : vec R;
  leftInput : R;
  rightInput : R;
  overallLengthAdjustment : R;
  differentialLengthAdjustment : R
}.

(** The initial value of the module-level [tetherConfig]. *)
Definition tetherConfig : TetherConfig := {|
  leftLineLength := 30.0;
  rightLineLength := 30.0;
  lineTension := 0.0;
  lineElasticity := 0.05;
  lineDrag := 0.02;
  operatorPosition := Vec.mk 0 0 (-10);
  leftInput := 0.5;
  rightInput := 0.5;
  overallLengthAdjustment := 0.0;
  differentialLengthAdjustment := 0.0
|}.

(** [leftAttachPoint] and [rightAttachPoint], relative to the kite. *)
Definition leftAttachPoint : vec R := Vec.mk (-0.5) 0 0.
Definition rightAttachPoint : vec R := Vec.mk 0.5 0 0.

(** Setters, on a finite argument: each clamps its argument,
    [Math.max(lo, Math.min(hi, v))].  On every JavaScript number the clamp
    is [JSNum.clamp]: it stores a NaN argument as NaN. *)
Definition setLeftInput (input : R) (c : TetherConfig) : TetherConfig :=
  mkTether (leftLineLength c) (rightLineLength c) (lineTension c)
    (lineElasticity c) (lineDrag c) (operatorPosition c)
    (Rmax 0 (Rmin 1 input)) (rightInput c)
    (overallLengthAdjustment c) (differentialLengthAdjustment c).

Definition setRightInput (input : R) (c : TetherConfig) : TetherConfig :=
  mkTether (leftLineLength c) (rightLineLength c) (lineTension c)
    (lineElasticity c) (lineDrag c) (operatorPosition c)
    (leftInput c) (Rmax 0 (Rmin 1 input))
    (overallLengthAdjustment c) (differentialLengthAdjustment c).

Definition setOverallLineLength (adjustment : R) (c : TetherConfig) : TetherConfig :=
  mkTether (leftLineLength c) (rightLineLength c) (lineTension c)
    (lineElasticity c) (lineDrag c) (operatorPosition c)
    (leftInput c) (rightInput c)
    (Rmax (-1) (Rmin 1 adjustment)) (differentialLengthAdjustment c).

Definition setDifferentialLineLength (adjustment : R) (c : TetherConfig) : TetherConfig :=
  mkTether (leftLineLength c) (rightLineLength c) (lineTension c)
    (lineElasticity c) (lineDrag c) (operatorPosition c)
    (leftInput c) (rightInput c)
    (overallLengthAdjustment c) (Rmax (-1) (Rmin 1 adjustment)).

(** The base length of [updateEffectiveLineLengths]:
    [30.0 * (1.0 + overallLengthAdjustment * 0.5)]. *)
Definition baseLength (c : TetherConfig) : R :=
  let baseLengthFactor := 1.0 + overallLengthAdjustment c * 0.5 in
  30.0 * baseLengthFactor.

Definition updateEffectiveLineLengths (c : TetherConfig) : TetherConfig :=
  let baseLengthFactor := 1.0 + overallLengthAdjustment c * 0.5 in
  let baseLength := 30.0 * baseLengthFactor in
  let diffFactor := differentialLengthAdjustment c * 0.2 in
  mkTether (baseLength * (1 - diffFactor)) (baseLength * (1 + diffFactor))
    (lineTension c) (lineElasticity c) (lineDrag c) (operatorPosition c)
    (leftInput c) (rightInput c)
    (overallLengthAdjustment c) (differentialLengthAdjustment c).

Definition calculateDistance (point1 point2 : vec R) : R :=
  let dx := Vec.x point2 - Vec.x point1 in
  let dy := Vec.y point2 - Vec.y point1 in
  let dz := Vec.z point2 - Vec.z point1 in
  sqrt (dx * dx + dy * dy + dz * dz).

(** The effective length of a line under a control input. *)
Definition effectiveLength (lineLength input : R) : R :=
  let inputFactor := 1.0 - (input * 0.3) in
  lineLength * inputFactor.

Definition calculateLineTension (c : TetherConfig)
    (distance lineLength input : R) : R :=
  let inputFactor := 1.0 - (input * 0.3) in
  let effectiveLength := lineLength * inputFactor in
  let strain := Rmax 0 (distance / effectiveLength - 1) in
  let tension := lineElasticity c * strain * (1 + strain) in
  tension.

(** [Math.pow(base, exponent)] on a non-negative base and a positive
    exponent: [0] at base [0].  Tensions, the only bases it is applied to,
    are non-negative as soon as the elasticity is. *)
Definition Math_pow (base exponent : R) : R :=
  if Rlt_dec 0 base then Rpower base exponent else 0.

Definition scaleTension (tension : R) : R := Math_pow tension 0.8 * 5.0.

Record Tensions : Type := mkTensions {
  leftTension : R;
  rightTension : R;
  leftDistance : R;
  rightDistance : R
}.

(** The hands of the operator: 1 m apart, 1 m above the ground. *)
Definition operatorLeft (c : TetherConfig) : vec R :=
  Vec.mk (Vec.x (operatorPosition c) - 0.5)
         (Vec.y (operatorPosition c) + 1.0)
         (Vec.z (operatorPosition c)).

Definition operatorRight (c : TetherConfig) : vec R :=
  Vec.mk (Vec.x (operatorPosition c) + 0.5)
         (Vec.y (operatorPosition c) + 1.0)
         (Vec.z (operatorPosition c)).

(** The bridle connection point in world space. *)
Definition bridleConnection (kite : KiteProperties R) : vec R :=
  Vec.mk (Vec.x (position kite) + Vec.x (bridleConnectionPoint kite))
         (Vec.y (position kite) + Vec.y (bridleConnectionPoint kite))
         (Vec.z (position kite) + Vec.z (bridleConnectionPoint kite)).

Definition calculateTetherForces (kite : KiteProperties R)
    (c : TetherConfig) : Tensions :=
  let leftAttach := Vec.mk
    (Vec.x (position kite) + Vec.x leftAttachPoint)
    (Vec.y (position kite) + Vec.y leftAttachPoint)
    (Vec.z (position kite) + Vec.z leftAttachPoint) in
  let rightAttach := Vec.mk
    (Vec.x (position kite) + Vec.x rightAttachPoint)
    (Vec.y (position kite) + Vec.y rightAttachPoint)
    (Vec.z (position kite) + Vec.z rightAttachPoint) in
  let leftDistance := calculateDistance leftAttach (operatorLeft c) in
  let rightDistance := calculateDistance rightAttach (operatorRight c) in
  let groundProximityFactor :=
    Rmax 1.0 (2.0 * (1.0 - Rmin 1.0 (Vec.y (bridleConnection kite) / 5.0))) in
  let leftTension :=
    calculateLineTension c leftDistance (leftLineLength c) (leftInput c)
    * groundProximityFactor in
  let rightTension :=
    calculateLineTension c rightDistance (rightLineLength c) (rightInput c)
    * groundProximityFactor in
  mkTensions leftTension rightTension leftDistance rightDistance.

(** The unit vector from the bridle connection to a hand; straight up when
    the two are closer than 1e-4. *)
Definition lineDirection (kite : KiteProperties R) (hand : vec R) : vec R :=
  let dir := Vec.mk (Vec.x hand - Vec.x (bridleConnection kite))
                    (Vec.y hand - Vec.y (bridleConnection kite))
                    (Vec.z hand - Vec.z (bridleConnection kite)) in
  let mag := sqrt (Vec.x dir * Vec.x dir + Vec.y dir * Vec.y dir
                   + Vec.z dir * Vec.z dir) in
  if Rlt_dec 0.0001 mag
  then Vec.mk (Vec.x dir / mag) (Vec.y dir / mag) (Vec.z dir / mag)
  else Vec.mk 0 1 0.

(** The sum of the two line forces, before the limit and the damping. *)
Definition lineForce (kite : KiteProperties R) (c : TetherConfig) : vec R :=
  let t := calculateTetherForces kite c in
  let leftDir := lineDirection kite (operatorLeft c) in
  let rightDir := lineDirection kite (operatorRight c) in
  let leftForce := Vec.mk (Vec.x leftDir * scaleTension (leftTension t))
                          (Vec.y leftDir * scaleTension (leftTension t))
                          (Vec.z leftDir * scaleTension (leftTension t)) in
  let rightForce := Vec.mk (Vec.x rightDir * scaleTension (rightTension t))
                           (Vec.y rightDir * scaleTension (rightTension t))
                           (Vec.z rightDir * scaleTension (rightTension t)) in
  Vec.mk (Vec.x leftForce + Vec.x rightForce)
         (Vec.y leftForce + Vec.y rightForce)
         (Vec.z leftForce + Vec.z rightForce).

(** The limit [maxForce] applied to the summed line force. *)
Definition maxForce : R := 20.0.

Definition limitForce (totalForce : vec R) : vec R :=
  let forceMagSquared :=
    Vec.x totalForce * Vec.x totalForce + Vec.y totalForce * Vec.y totalForce
    + Vec.z totalForce * Vec.z totalForce in
  if Rlt_dec (maxForce * maxForce) forceMagSquared
  then let forceMag := sqrt forceMagSquared in
       let scale := maxForce / forceMag in
       Vec.mk (Vec.x totalForce * scale) (Vec.y totalForce * scale)
              (Vec.z totalForce * scale)
  else totalForce.

(** [getTetherForces()] on a kite and a configuration without NaN: the two
    [isNaN] tests of the source and its [catch] are not taken on reals.  The
    source computes, in this order: the tensions, the two unit directions,
    the scaled line forces and their sum ([lineForce]), the limit
    ([limitForce]), and last the damping [totalForce -= velocity * 0.8]. *)
Definition getTetherForces (kite : KiteProperties R) (c : TetherConfig)
  : vec R :=
  let totalForce := limitForce (lineForce kite c) in
  let kiteVelocity := velocity kite in
  let dampingFactor := 0.8 in
  Vec.mk (Vec.x totalForce - Vec.x kiteVelocity * dampingFactor)
         (Vec.y totalForce - Vec.y kiteVelocity * dampingFactor)
         (Vec.z totalForce - Vec.z kiteVelocity * dampingFactor).

(** The Euclidean norm of a force. *)
Definition magnitude (v : vec R) : R :=
  sqrt (Vec.x v * Vec.x v + Vec.y v * Vec.y v + Vec.z v * Vec.z v).

(** A kite far down the wind, level with the hands of the operator, and
    still moving away at the velocity limit of [applyForce] (5 m/s). *)
Definition farKite : KiteProperties R :=
  kiteAt (Vec.mk 0 1 525.5) (Vec.mk 0 0 5).

(** The distance from the bridle connection of the far kite to a hand. *)
Definition farReach : R := sqrt (0.25 + 536 * 536).

(** A kite at rest 40 m in front of the hands, and a configuration with the
    right line pulled in fully and the left line released. *)
Definition steeredKite : KiteProperties R :=
  kiteAt (Vec.mk 0 1 30) (Vec.mk 0 0 0).

Definition steerRight : TetherConfig :=
  setRightInput 1 (setLeftInput 0 tetherConfig).

End Tether.

(** ** [src/physics/engine.js]

    The file declares [updatePhysics] twice; the later declaration (the
    "improved integration method", with the clamp of [deltaTime] and the
    bound on the sub-steps) is the one in force, and the one embedded. *)

Module Engine.

(** *** The fixed-timestep accumulator

    [stepPhysics] reads and writes the kite, the wind and the tethers, and
    never the accumulator: it is a transformer of the rest of the world,
    called with the fixed step. *)

Section Stepper.
Local Open Scope Q_scope.

Variable World : Type.
Variable stepPhysics : Q -> World -> World.

Record Engine : Type := mkEngine {
  isRunning : bool;
  accumulator : Q;
  timeScale : Q;            (* config.timeScale *)
  world : World;
  warnings : list string    (* console.warn *)
}.

Definition maxDeltaTime : Q := 0.1.
Definition FIXED_TIME_STEP : Q := 1 / 120.
Definition maxSteps : nat := 10.

Definition initPhysics (e : Engine) : Engine :=
  mkEngine true (accumulator e) (timeScale e) (world e) (warnings e).

Definition setPhysicsRunning (shouldRun : bool) (e : Engine) : Engine :=
  mkEngine shouldRun (accumulator e) (timeScale e) (world e) (warnings e).

(** [a > b] on rationals. *)
Definition Qgt_bool (a b : Q) : bool := negb (Qle_bool a b).

(** The [while (accumulator >= FIXED_TIME_STEP && steps < maxSteps)] loop.
    Each turn increments [steps], so [maxSteps] turns of fuel are enough
    ([subSteps_fuel]). *)
Fixpoint subSteps (fuel : nat) (accumulator : Q) (steps : nat) (w : World)
  : Q * nat * World :=
  match fuel with
  | O => (accumulator, steps, w)
  | S fuel' =>
      if Qle_bool FIXED_TIME_STEP accumulator && (steps <? maxSteps)%nat
      then subSteps fuel' (accumulator - FIXED_TIME_STEP) (S steps)
             (stepPhysics FIXED_TIME_STEP w)
      else (accumulator, steps, w)
  end.

(** What one call of [updatePhysics] did: the engine after the call, the
    number of sub-steps it executed, and whether it drained the
    accumulator. *)
Record Outcome : Type := mkOutcome {
  engine : Engine;
  steps : nat;
  drained : bool
}.

Definition updatePhysics (deltaTime : Q) (e : Engine) : Outcome :=
  if negb (isRunning e) then mkOutcome e 0 false
  else
    let clampedDeltaTime := Qmin deltaTime maxDeltaTime in
    let scaledDeltaTime := clampedDeltaTime * timeScale e in
    let accumulator0 := accumulator e + scaledDeltaTime in
    let '(accumulator1, steps, w) :=
      subSteps maxSteps accumulator0 0 (world e) in
    if (maxSteps <=? steps)%nat && Qgt_bool accumulator1 FIXED_TIME_STEP
    then mkOutcome
           (mkEngine true 0 (timeScale e) w
              (warnings e ++ ["Physics system overloaded, draining accumulator"%string]))
           steps true
    else mkOutcome (mkEngine true accumulator1 (timeScale e) w (warnings e))
           steps false.

(** The overload event: the bound on the sub-steps was hit while the
    accumulator still exceeded the fixed step. *)
Definition overloaded (deltaTime : Q) (e : Engine) : Prop :=
  let accumulator0 := accumulator e + Qmin deltaTime maxDeltaTime * timeScale e in
  let '(accumulator1, steps, _) := subSteps maxSteps accumulator0 0 (world e) in
  (maxSteps <= steps)%nat /\ FIXED_TIME_STEP < accumulator1.

(** A number of sub-steps as a rational, to account for the simulated
    time. *)
Definition stepsQ (n : nat) : Q := inject_Z (Z.of_nat n).

End Stepper.

(** *** The lift curve of [calculateAerodynamicForces] *)

Section Aerodynamics.
Local Open Scope R_scope.

Definition GRAVITY : R := 9.81.
Definition AIR_DENSITY : R := 1.225.

Definition optimalAoA : R := 0.26.
Definition maxLiftCoef : R := 1.2.

(** The stall threshold [optimalAoA * 1.3] and the local [stallFactor]. *)
Definition stallAngle : R := optimalAoA * 1.3.

Definition stallFactor (angleOfAttack : R) : R :=
  1 - Rmin 1 ((angleOfAttack - optimalAoA * 1.3) / (PI / 2 - optimalAoA * 1.3)).

(** The value of the local [liftCoef] once the stall adjustment is done, as
    a function of the local [angleOfAttack]. *)
Definition liftCoefficient (angleOfAttack : R) : R :=
  let liftCoef :=
    maxLiftCoef * sin (2 * angleOfAttack * (PI / 4) / optimalAoA) in
  if Rlt_dec (optimalAoA * 1.3) angleOfAttack
  then
    let stallFactor :=
      1 - Rmin 1 ((angleOfAttack - optimalAoA * 1.3)
                  / (PI / 2 - optimalAoA * 1.3)) in
    liftCoef * stallFactor
  else liftCoef.

End Aerodynamics.

(** *** The torque of [calculateAndApplyTorque]

    The function ignores its parameter [tetherForces] and calls
    [getTetherForces()] again; [kite] is the kite that call reads.  The
    record keeps the locals of the function that the steering depends on and
    the torque that is handed to [applyTorque]. *)

Section Torque.
Local Open Scope R_scope.
Import Tether.

Record TorqueLocals : Type := mkTorqueLocals {
  torqueLeftTension : R;       (* const leftTension *)
  torqueRightTension : R;      (* const rightTension *)
  armTorque : vec R;           (* torque, as first computed: r x F *)
  tensionDifference : R;
  differentialTorque : R;      (* tensionDifference * differentialTorqueFactor *)
  torque : vec R               (* the argument of applyTorque *)
}.

(** The vector from the bridle connection to a hand, divided by its length
    when that is above 1e-4 and left as it is otherwise (the [leftDir] and
    [rightDir] of the function). *)
Definition torqueDirection (kite : KiteProperties R) (hand : vec R) : vec R :=
  let bridleConnection := Tether.bridleConnection kite in
  let dir := Vec.mk (Vec.x hand - Vec.x bridleConnection)
                    (Vec.y hand - Vec.y bridleConnection)
                    (Vec.z hand - Vec.z bridleConnection) in
  let mag := sqrt (Vec.x dir * Vec.x dir + Vec.y dir * Vec.y dir
                   + Vec.z dir * Vec.z dir) in
  if Rlt_dec 0.0001 mag
  then Vec.mk (Vec.x dir / mag) (Vec.y dir / mag) (Vec.z dir / mag)
  else dir.

(** The local [totalForce] of the function: the two forces at the bridle
    connection, each a direction times a "tension", added up. *)
Definition torqueForce (kite : KiteProperties R) (c : TetherConfig) : vec R :=
  let tetherForceValues := getTetherForces kite c in
  let leftTension := Vec.x tetherForceValues * 0.5 in
  let rightTension := Vec.x tetherForceValues * 0.5 in
  let leftDir := torqueDirection kite (Tether.operatorLeft c) in
  let rightDir := torqueDirection kite (Tether.operatorRight c) in
  let leftForce := Vec.mk (Vec.x leftDir * leftTension)
                          (Vec.y leftDir * leftTension)
                          (Vec.z leftDir * leftTension) in
  let rightForce := Vec.mk (Vec.x rightDir * rightTension)
                           (Vec.y rightDir * rightTension)
                           (Vec.z rightDir * rightTension) in
  Vec.mk (Vec.x leftForce + Vec.x rightForce)
         (Vec.y leftForce + Vec.y rightForce)
         (Vec.z leftForce + Vec.z rightForce).

Definition calculateAndApplyTorque (kite : KiteProperties R)
    (c : TetherConfig) : TorqueLocals :=
  let tetherForceValues := getTetherForces kite c in
  let leftTension := Vec.x tetherForceValues * 0.5 in
  let rightTension := Vec.x tetherForceValues * 0.5 in
  let bridleArm := bridleConnectionPoint kite in
  let totalForce := torqueForce kite c in
  let torque0 := Vec.mk
    (Vec.y bridleArm * Vec.z totalForce - Vec.z bridleArm * Vec.y totalForce)
    (Vec.z bridleArm * Vec.x totalForce - Vec.x bridleArm * Vec.z totalForce)
    (Vec.x bridleArm * Vec.y totalForce - Vec.y bridleArm * Vec.x totalForce) in
  let tensionDifference := rightTension - leftTension in
  let differentialTorqueFactor := 0.5 in
  let torque1 := Vec.mk (Vec.x torque0)
    (Vec.y torque0 + tensionDifference * differentialTorqueFactor)
    (Vec.z torque0) in
  let stabilizingTorque := Vec.mk
    (- sin (Vec.x (rotation kite)) * 0.1)
    (- sin (Vec.y (rotation kite)) * 0.01)
    (- sin (Vec.z (rotation kite)) * 0.2) in
  let torque2 := Vec.mk (Vec.x torque1 + Vec.x stabilizingTorque)
                        (Vec.y torque1 + Vec.y stabilizingTorque)
                        (Vec.z torque1 + Vec.z stabilizingTorque) in
  let dampingFactor := 0.15 in
  let dampingTorque := Vec.mk
    (- Vec.x (angularVelocity kite) * dampingFactor)
    (- Vec.y (angularVelocity kite) * dampingFactor)
    (- Vec.z (angularVelocity kite) * dampingFactor) in
  let torque3 := Vec.mk (Vec.x torque2 + Vec.x dampingTorque)
                        (Vec.y torque2 + Vec.y dampingTorque)
                        (Vec.z torque2 + Vec.z dampingTorque) in
  let torqueScaleFactor := 0.3 in
  mkTorqueLocals leftTension rightTension torque0 tensionDifference
    (tensionDifference * differentialTorqueFactor)
    (Vec.mk (Vec.x torque3 * torqueScaleFactor)
            (Vec.y torque3 * torqueScaleFactor)
            (Vec.z torque3 * torqueScaleFactor)).

End Torque.

(** *** The forces of [stepPhysics], over the reals *)

Section Forces.
Local Open Scope R_scope.

(** [calculateStabilizingForce(kite)] *)
Definition calculateStabilizingForce (kite : KiteProperties R) : vec R :=
  let horizontalDistanceSquared :=
    Vec.x (position kite) * Vec.x (position kite)
    + Vec.z (position kite) * Vec.z (position kite) in
  let desiredHeight := 5.0 in
  let verticalDistance := desiredHeight - Vec.y (position kite) in
  let horizontalForce :=      (* the pair of its fields x and z *)
    if Rlt_dec 900 horizontalDistanceSquared
    then let horizontalDistance := sqrt horizontalDistanceSquared in
         (- Vec.x (position kite) / horizontalDistance * 0.05,
          - Vec.z (position kite) / horizontalDistance * 0.05)
    else (0, 0) in
  let verticalForce := verticalDistance * 0.01 in
  Vec.mk (fst horizontalForce) verticalForce (snd horizontalForce).

(** The locals of [calculateAerodynamicForces(kite)], each a function of the
    wind state that [getWindDirection] and [getWindSpeed] read and of the
    kite. *)
Definition relativeVelocity (w : Wind.WindState) (kite : KiteProperties R)
  : vec R :=
  let windDirection := Wind.getWindDirection w in
  let windSpeed := Wind.getWindSpeed w in
  let kiteVelocity := velocity kite in
  Vec.mk (Vec.x windDirection * windSpeed - Vec.x kiteVelocity)
         (Vec.y windDirection * windSpeed - Vec.y kiteVelocity)
         (Vec.z windDirection * windSpeed - Vec.z kiteVelocity).

Definition velocityMagSquared (w : Wind.WindState) (kite : KiteProperties R)
  : R :=
  let relativeVelocity := relativeVelocity w kite in
  Vec.x relativeVelocity * Vec.x relativeVelocity
  + Vec.y relativeVelocity * Vec.y relativeVelocity
  + Vec.z relativeVelocity * Vec.z relativeVelocity.

Definition velocityMag (w : Wind.WindState) (kite : KiteProperties R) : R :=
  sqrt (velocityMagSquared w kite).

Definition relVelNorm (w : Wind.WindState) (kite : KiteProperties R) : vec R :=
  let relativeVelocity := relativeVelocity w kite in
  let velocityMag := velocityMag w kite in
  Vec.mk (Vec.x relativeVelocity / velocityMag)
         (Vec.y relativeVelocity / velocityMag)
         (Vec.z relativeVelocity / velocityMag).

Definition kiteNormal (kite : KiteProperties R) : vec R :=
  Vec.mk (sin (Vec.y (rotation kite)) * cos (Vec.x (rotation kite)))
         (sin (Vec.x (rotation kite)))
         (cos (Vec.y (rotation kite)) * cos (Vec.x (rotation kite))).

Definition angleOfAttack (w : Wind.WindState) (kite : KiteProperties R) : R :=
  let relVelNorm := relVelNorm w kite in
  let kiteNormal := kiteNormal kite in
  let dotProduct :=
    Vec.x relVelNorm * Vec.x kiteNormal
    + Vec.y relVelNorm * Vec.y kiteNormal
    + Vec.z relVelNorm * Vec.z kiteNormal in
  let clampedDot := Rmax (-1) (Rmin 1 dotProduct) in
  acos clampedDot.

Definition dragCoef (w : Wind.WindState) (kite : KiteProperties R) : R :=
  let minDragCoef := 0.05 in
  minDragCoef + dragCoefficient kite * sin (angleOfAttack w kite).

Definition crossProduct (w : Wind.WindState) (kite : KiteProperties R)
  : vec R :=
  let relVelNorm := relVelNorm w kite in
  let kiteNormal := kiteNormal kite in
  Vec.mk (Vec.y relVelNorm * Vec.z kiteNormal - Vec.z relVelNorm * Vec.y kiteNormal)
         (Vec.z relVelNorm * Vec.x kiteNormal - Vec.x relVelNorm * Vec.z kiteNormal)
         (Vec.x relVelNorm * Vec.y kiteNormal - Vec.y relVelNorm * Vec.x kiteNormal).

Definition crossMag (w : Wind.WindState) (kite : KiteProperties R) : R :=
  let crossProduct := crossProduct w kite in
  sqrt (Vec.x crossProduct * Vec.x crossProduct
        + Vec.y crossProduct * Vec.y crossProduct
        + Vec.z crossProduct * Vec.z crossProduct).

Definition liftDirection (w : Wind.WindState) (kite : KiteProperties R)
  : vec R :=
  let relVelNorm := relVelNorm w kite in
  let crossProduct := crossProduct w kite in
  let crossMag := crossMag w kite in
  if Rlt_dec crossMag 0.0001 then Vec.mk 0 1 0
  else
    let crossNorm := Vec.mk (Vec.x crossProduct / crossMag)
                            (Vec.y crossProduct / crossMag)
                            (Vec.z crossProduct / crossMag) in
    Vec.mk (Vec.y relVelNorm * Vec.z crossNorm - Vec.z relVelNorm * Vec.y crossNorm)
           (Vec.z relVelNorm * Vec.x crossNorm - Vec.x relVelNorm * Vec.z crossNorm)
           (Vec.x relVelNorm * Vec.y crossNorm - Vec.y relVelNorm * Vec.x crossNorm).

Definition forceFactor (w : Wind.WindState) (kite : KiteProperties R) : R :=
  0.5 * AIR_DENSITY * velocityMagSquared w kite * area kite.

(** The object that [calculateAerodynamicForces] returns; the early return
    has no field [angleOfAttack]. *)
Record AeroForces : Type := mkAeroForces {
  lift : vec R;
  drag : vec R;
  reportedAngleOfAttack : option R
}.

Definition calculateAerodynamicForces (w : Wind.WindState)
    (kite : KiteProperties R) : AeroForces :=
  if Rlt_dec (velocityMag w kite) 0.0001
  then mkAeroForces (Vec.mk 0 0 0) (Vec.mk 0 0 0) None
  else
    let relVelNorm := relVelNorm w kite in
    let liftCoef := liftCoefficient (angleOfAttack w kite) in
    let liftDirection := liftDirection w kite in
    let liftMagnitude := forceFactor w kite * liftCoef in
    let dragMagnitude := forceFactor w kite * dragCoef w kite in
    mkAeroForces
      (Vec.mk (Vec.x liftDirection * liftMagnitude)
              (Vec.y liftDirection * liftMagnitude)
              (Vec.z liftDirection * liftMagnitude))
      (Vec.mk (- Vec.x relVelNorm * dragMagnitude)
              (- Vec.y relVelNorm * dragMagnitude)
              (- Vec.z relVelNorm * dragMagnitude))
      (Some (angleOfAttack w kite)).

(** A kite at rest 15 m up, pitched by a quarter turn. *)
Definition uprightKite : KiteProperties R := {|
  mass := 0.5;
  wingspan := 2.0;
  area := 1.2;
  dragCoefficient := 0.8;
  position := Vec.mk 0 15 0;
  velocity := Vec.mk 0 0 0;
  rotation := Vec.mk (PI / 2) 0 0;
  angularVelocity := Vec.mk 0 0 0;
  momentOfInertia := Vec.mk 0.1 0.2 0.15;
  bridleConnectionPoint := Vec.mk 0 0 0.5;
  smoothedAcceleration := None;
  smoothedAngularAcceleration := None
|}.

(** The scalar product, to state directions. *)
Definition dot (u v : vec R) : R :=
  Vec.x u * Vec.x v + Vec.y u * Vec.y v + Vec.z u * Vec.z v.

End Forces.

(** *** [checkGroundCollision(kite)], with the numbers of [kite.js]

    [kite] is the copy that [stepPhysics] took with [getKiteProperties()]
    before it applied the forces. *)

Section Collision.
Import JSNum Kite.
Local Open Scope num_scope.

(** The local [groundRepulsionForce] and [stabilizingTorque]. *)
Definition groundRepulsionForce (kite : Snapshot) : vec num :=
  Vec.mk (Fin 0) (mass (own kite) * Fin GRAVITY * Fin 2.0) (Fin 0).

Definition stabilizingTorque (rotation : vec num) : vec num :=
  Vec.mk (- Vec.x rotation * Fin 0.5) (Fin 0) (- Vec.z rotation * Fin 0.5).

Definition checkGroundCollision (kite : Snapshot) (s : State) : State :=
  let groundBuffer := Fin 0.5 in
  if Vec.y (position (seen kite s)) <? groundBuffer then
    let '(kite, s) := applyForceVia (groundRepulsionForce kite) kite s in
    let v := velocity (seen kite s) in
    let p := position (seen kite s) in
    let '(kite, s) :=
      writeMotion
        (Vec.mk (Vec.x p) groundBuffer (Vec.z p))
        (Vec.mk (Vec.x v * Fin 0.7) (max (Fin 0) (Vec.y v)) (Vec.z v * Fin 0.7))
        kite s in
    applyTorque (stabilizingTorque (rotation (seen kite s))) s
  else s.

End Collision.

End Engine.

(** ** [src/controls.js]: the keyboard polling

    [controlState.keys] maps the name of a key to whether it is held down
    (the [keydown] and [keyup] listeners store [true] and [false]); the HTML
    controls that [updateUIControl] writes are outside the model. *)

Module Controls.
Import Tether.
Local Open Scope R_scope.
Local Open Scope string_scope.

Record ControlState : Type := mkControl {
  keys : string -> bool;
  sensitivity : R;
  invertX : bool;
  invertY : bool;
  leftLine : R;
  rightLine : R;
  lineLength : R;
  windSpeed : R
}.

(** The initial value of [controlState]: no key held. *)
Definition controlState : ControlState := {|
  keys := fun _ => false;
  sensitivity := 1.0;
  invertX := false;
  invertY := false;
  leftLine := 0.5;
  rightLine := 0.5;
  lineLength := 0.5;
  windSpeed := 0.5
|}.

(** Assignments to [controlState.leftLine], [.rightLine] and [.lineLength]. *)
Definition setLeftLine (v : R) (c : ControlState) : ControlState :=
  mkControl (keys c) (sensitivity c) (invertX c) (invertY c)
    v (rightLine c) (lineLength c) (windSpeed c).

Definition setRightLine (v : R) (c : ControlState) : ControlState :=
  mkControl (keys c) (sensitivity c) (invertX c) (invertY c)
    (leftLine c) v (lineLength c) (windSpeed c).

Definition setLineLength (v : R) (c : ControlState) : ControlState :=
  mkControl (keys c) (sensitivity c) (invertX c) (invertY c)
    (leftLine c) (rightLine c) v (windSpeed c).

(** The [keydown] listener, as far as it writes [keys]. *)
Definition keydown (key : string) (c : ControlState) : ControlState :=
  mkControl (fun k => if String.eqb k key then true else keys c k)
    (sensitivity c) (invertX c) (invertY c)
    (leftLine c) (rightLine c) (lineLength c) (windSpeed c).

(** The three [if] statements of [pollControls()], in their order. *)
Definition pollLeft (s : ControlState * TetherConfig)
  : ControlState * TetherConfig :=
  let (c, t) := s in
  if keys c "ArrowLeft" then
    let c := setLeftLine (Rmin 1.0 (leftLine c + 0.01 * sensitivity c)) c in
    (c, setLeftInput (leftLine c) t)
  else if keys c "a" || keys c "A" then
    let c := setLeftLine (Rmax 0.0 (leftLine c - 0.01 * sensitivity c)) c in
    (c, setLeftInput (leftLine c) t)
  else (c, t).

Definition pollRight (s : ControlState * TetherConfig)
  : ControlState * TetherConfig :=
  let (c, t) := s in
  if keys c "ArrowRight" then
    let c := setRightLine (Rmin 1.0 (rightLine c + 0.01 * sensitivity c)) c in
    (c, setRightInput (rightLine c) t)
  else if keys c "d" || keys c "D" then
    let c := setRightLine (Rmax 0.0 (rightLine c - 0.01 * sensitivity c)) c in
    (c, setRightInput (rightLine c) t)
  else (c, t).

Definition pollLength (s : ControlState * TetherConfig)
  : ControlState * TetherConfig :=
  let (c, t) := s in
  if keys c "ArrowUp" then
    let c := setLineLength (Rmin 1.0 (lineLength c + 0.01 * sensitivity c)) c in
    let lengthAdjustment := (lineLength c - 0.5) * 2 in
    (c, setOverallLineLength lengthAdjustment t)
  else if keys c "ArrowDown" then
    let c := setLineLength (Rmax 0.0 (lineLength c - 0.01 * sensitivity c)) c in
    let lengthAdjustment := (lineLength c - 0.5) * 2 in
    (c, setOverallLineLength lengthAdjustment t)
  else (c, t).

Definition pollControls (c : ControlState) (t : TetherConfig)
  : ControlState * TetherConfig :=
  pollLength (pollRight (pollLeft (c, t))).

(** The control values are in their range, and the tether configuration
    holds what the controls show. *)
Definition inRange (c : ControlState) : Prop :=
  0 <= leftLine c <= 1 /\ 0 <= rightLine c <= 1 /\ 0 <= lineLength c <= 1.

Definition inSync (c : ControlState) (t : TetherConfig) : Prop :=
  leftInput t = leftLine c /\ rightInput t = rightLine c
  /\ overallLengthAdjustment t = (lineLength c - 0.5) * 2.

(** The left arrow held down, on the initial state. *)
Definition holdLeft : ControlState := keydown "ArrowLeft" controlState.

End Controls.

(** ** The controls with a steering differential (the later version of
    [controls.js])

    The left and right arrows move [controlState.differential], and
    [updateDifferentialControls] derives both line inputs from it. *)

Module DifferentialControls.
Import Tether.
Local Open Scope R_scope.
Local Open Scope string_scope.

Record ControlState : Type := mkControl {
  keys : string -> bool;
  sensitivity : R;
  invertX : bool;
  invertY : bool;
  leftLine : R;
  rightLine : R;
  lineLength : R;
  differential : R;
  windSpeed : R
}.

Definition setDifferential (v : R) (c : ControlState) : ControlState :=
  mkControl (keys c) (sensitivity c) (invertX c) (invertY c)
    (leftLine c) (rightLine c) (lineLength c) v (windSpeed c).

Definition setLines (l r : R) (c : ControlState) : ControlState :=
  mkControl (keys c) (sensitivity c) (invertX c) (invertY c) l r
    (lineLength c) (differential c) (windSpeed c).

(** [updateDifferentialControls()] *)
Definition updateDifferentialControls (s : ControlState * TetherConfig)
  : ControlState * TetherConfig :=
  let (c, t) := s in
  let baseValue := 0.5 in
  let diffAmount := Math_pow (Rabs (differential c)) 0.7 * 0.5 in
  let c :=
    if Rlt_dec (differential c) 0
    then setLines (baseValue + diffAmount) (baseValue - diffAmount) c
    else setLines (baseValue - diffAmount) (baseValue + diffAmount) c in
  (c, setRightInput (rightLine c)
        (setLeftInput (leftLine c)
           (setDifferentialLineLength (differential c) t))).

(** The first [if] statement of [pollControls()]: the arrows move the
    differential, and without them it is pulled back towards zero. *)
Definition pollDifferential (s : ControlState * TetherConfig)
  : ControlState * TetherConfig :=
  let (c, t) := s in
  if keys c "ArrowLeft" then
    updateDifferentialControls
      (setDifferential
         (Rmax (-1.0) (differential c - 0.01 * sensitivity c)) c, t)
  else if keys c "ArrowRight" then
    updateDifferentialControls
      (setDifferential
         (Rmin 1.0 (differential c + 0.01 * sensitivity c)) c, t)
  else if Rlt_dec 0.001 (Rabs (differential c)) then
    updateDifferentialControls
      (setDifferential (differential c * 0.95) c, t)
  else (c, t).

(** A state with the left arrow held and the differential at -0.5. *)
Definition steeringLeft : ControlState := {|
  keys := fun k => String.eqb k "ArrowLeft";
  sensitivity := 1.0;
  invertX := false;
  invertY := false;
  leftLine := 0.5;
  rightLine := 0.5;
  lineLength := 0.5;
  differential := -0.5;
  windSpeed := 0.5
|}.

End DifferentialControls.

(** ** The telemetry module ([telemetry.js]), over the reals *)

Module Telemetry.
Local Open Scope R_scope.

Record TelemetryState : Type := mkTelemetry {
  kiteSpeed : R;
  angleOfAttack : R;
  loopsCW : nat;
  loopsCCW : nat;
  flightTime : R;
  lastRotation : vec R;
  rotationAccumulator : R;
  updateInterval : R;
  lastUpdateTime : R
}.

(** The initial value of [telemetryState]. *)
Definition telemetryState : TelemetryState := {|
  kiteSpeed := 0;
  angleOfAttack := 0;
  loopsCW := 0;
  loopsCCW := 0;
  flightTime := 0;
  lastRotation := Vec.mk 0 0 0;
  rotationAccumulator := 0;
  updateInterval := 100;
  lastUpdateTime := 0
|}.

(** The argument that [calculateAngleOfAttack] hands to [Math.acos], computed
    exactly.  The source does not clamp it to [[-1, 1]], so what rounding
    does to it at the two ends of the range is outside this model. *)
Definition attackCosine (rotation windDirection : vec R) : R :=
  let kiteNormal := Vec.mk 0 (sin (Vec.x rotation)) (cos (Vec.x rotation)) in
  let dotProduct :=
    Vec.x kiteNormal * Vec.x windDirection
    + Vec.y kiteNormal * Vec.y windDirection
    + Vec.z kiteNormal * Vec.z windDirection in
  let kiteNormalMag :=
    sqrt (Vec.x kiteNormal * Vec.x kiteNormal
          + Vec.y kiteNormal * Vec.y kiteNormal
          + Vec.z kiteNormal * Vec.z kiteNormal) in
  let windMag :=
    sqrt (Vec.x windDirection * Vec.x windDirection
          + Vec.y windDirection * Vec.y windDirection
          + Vec.z windDirection * Vec.z windDirection) in
  dotProduct / (kiteNormalMag * windMag).

Definition calculateAngleOfAttack (rotation windDirection : vec R) : R :=
  let angle := acos (attackCosine rotation windDirection) in
  angle * (180 / PI).

(** The local [rotationDelta] of [trackLoops], once wrapped. *)
Definition rotationDelta (rotation : vec R) (s : TelemetryState) : R :=
  let rotationDelta := Vec.z rotation - Vec.z (lastRotation s) in
  if Rlt_dec PI rotationDelta then rotationDelta - 2 * PI
  else if Rlt_dec rotationDelta (- PI) then rotationDelta + 2 * PI
  else rotationDelta.

Definition trackLoops (rotation : vec R) (s : TelemetryState)
  : TelemetryState :=
  let rotationAccumulator := rotationAccumulator s + rotationDelta rotation s in
  if Rle_dec (2 * PI) rotationAccumulator then
    mkTelemetry (kiteSpeed s) (angleOfAttack s) (loopsCW s + 1) (loopsCCW s)
      (flightTime s) rotation (rotationAccumulator - 2 * PI)
      (updateInterval s) (lastUpdateTime s)
  else if Rle_dec rotationAccumulator (- 2 * PI) then
    mkTelemetry (kiteSpeed s) (angleOfAttack s) (loopsCW s) (loopsCCW s + 1)
      (flightTime s) rotation (rotationAccumulator + 2 * PI)
      (updateInterval s) (lastUpdateTime s)
  else
    mkTelemetry (kiteSpeed s) (angleOfAttack s) (loopsCW s) (loopsCCW s)
      (flightTime s) rotation rotationAccumulator
      (updateInterval s) (lastUpdateTime s).

(** [trackLoops] called on the rotations of successive telemetry updates. *)
Definition trackAll (rotations : list (vec R)) (s : TelemetryState)
  : TelemetryState :=
  fold_left (fun s rotation => trackLoops rotation s) rotations s.

(** The rotation about z that the counters and the accumulator stand for. *)
Definition countedRotation (s : TelemetryState) : R :=
  2 * PI * (INR (loopsCW s) - INR (loopsCCW s)) + rotationAccumulator s.

(** Successive rotations that differ by at most half a turn about z. *)
Fixpoint gentle (z : R) (rotations : list (vec R)) : Prop :=
  match rotations with
  | [] => True
  | r :: rest => - PI <= Vec.z r - z <= PI /\ gentle (Vec.z r) rest
  end.

(** The roll after the last of the rotations. *)
Definition lastZ (z : R) (rotations : list (vec R)) : R :=
  Vec.z (last rotations (Vec.mk 0 0 z)).

End Telemetry.

(** ** The physics implementation guide *)

Module Guide.

(** *** [updatePhysics]: the frame time split into equal sub-steps

    One sub-step calls [updateWindConditions(dt)], [calculateTetherForces()],
    [calculateKiteForces(dt)], [integrateMotion(dt)] and [checkCollisions()];
    none of them reads the loop counter, so a sub-step is a transformer of
    the rest of the world, called with [dt]. *)

Section GuideStepper.
Local Open Scope Q_scope.

Variable World : Type.
Variable subStep : Q -> World -> World.

Definition TIME_STEP : Q := 1 / 60.

(** [Math.ceil(deltaTime / TIME_STEP)] *)
Definition subSteps (deltaTime : Q) : Z := Qceiling (deltaTime / TIME_STEP).

Definition dt (deltaTime : Q) : Q := deltaTime / inject_Z (subSteps deltaTime).

(** The [for] loop runs [subSteps] times, and not at all when [subSteps] is
    not positive. *)
Definition updatePhysics (deltaTime : Q) (w : World) : World :=
  Nat.iter (Z.to_nat (subSteps deltaTime)) (subStep (dt deltaTime)) w.

End GuideStepper.

(** *** Wind, motion and vector helpers, over the reals *)

Section GuideReal.
Local Open Scope R_scope.

Record WindProperties : Type := mkWindProperties {
  baseSpeed : R;
  direction : vec R;
  gustStrength : R;
  turbulence : R;
  currentSpeed : R;
  currentDirection : vec R
}.

Definition windProperties : WindProperties := {|
  baseSpeed := 5.0;
  direction := Vec.mk 0 0 1;
  gustStrength := 0.2;
  turbulence := 0.1;
  currentSpeed := 5.0;
  currentDirection := Vec.mk 0 0 1
|}.

(** [updateWindConditions(dt)]; [now] is [performance.now()] and
    [random0] .. [random3] the four results of [Math.random()]. *)
Definition updateWindConditions (dt now random0 random1 random2 random3 : R)
    (w : WindProperties) : WindProperties :=
  let time := now / 1000 in
  let gustFactor := sin (time * 0.5) * gustStrength w in
  let turbulenceFactor := (random0 - 0.5) * turbulence w in
  let variationFactor := Rmax 0.1 (1.0 + gustFactor + turbulenceFactor) in
  let speed := baseSpeed w * variationFactor in
  let directionVariation := turbulence w * 0.1 in
  let d := Vec.mk
    (Vec.x (direction w) + (random1 - 0.5) * directionVariation)
    (Vec.y (direction w) + (random2 - 0.5) * directionVariation)
    (Vec.z (direction w) + (random3 - 0.5) * directionVariation) in
  let mag := sqrt (Vec.x d * Vec.x d + Vec.y d * Vec.y d + Vec.z d * Vec.z d) in
  mkWindProperties (baseSpeed w) (direction w) (gustStrength w) (turbulence w)
    speed (Vec.mk (Vec.x d / mag) (Vec.y d / mag) (Vec.z d / mag)).

(** The part of the guide's [kiteProperties] that the motion reads and
    writes. *)
Record Motion : Type := mkMotion {
  position : vec R;
  velocity : vec R;
  acceleration : vec R
}.

Definition integrateMotion (dt : R) (k : Motion) : Motion :=
  let v := Vec.mk (Vec.x (velocity k) + Vec.x (acceleration k) * dt)
                  (Vec.y (velocity k) + Vec.y (acceleration k) * dt)
                  (Vec.z (velocity k) + Vec.z (acceleration k) * dt) in
  let p := Vec.mk (Vec.x (position k) + Vec.x v * dt)
                  (Vec.y (position k) + Vec.y v * dt)
                  (Vec.z (position k) + Vec.z v * dt) in
  mkMotion p v (acceleration k).

Definition checkCollisions (k : Motion) : Motion :=
  if Rlt_dec (Vec.y (position k)) 0.1
  then mkMotion
         (Vec.mk (Vec.x (position k)) 0.1 (Vec.z (position k)))
         (Vec.mk (Vec.x (velocity k) * 0.8) 0 (Vec.z (velocity k) * 0.8))
         (acceleration k)
  else k.

Definition crossProduct (a b : vec R) : vec R :=
  Vec.mk (Vec.y a * Vec.z b - Vec.z a * Vec.y b)
         (Vec.z a * Vec.x b - Vec.x a * Vec.z b)
         (Vec.x a * Vec.y b - Vec.y a * Vec.x b).

(** A kite falling at 3 m/s from 0.12 m. *)
Definition falling : Motion :=
  mkMotion (Vec.mk 1 0.12 2) (Vec.mk 1 (-3) 0) (Vec.mk 0 (-9.81) 0).

End GuideReal.

End Guide.

(** * Properties *)

(** A decimal literal of the sources, such as [0.26], is read as a fraction;
    [decimals] exposes the fraction to [field]. *)
Ltac decimals :=
  unfold Q2R; cbn [QArith_base.Qnum QArith_base.Qden].

(** ** Tether: line lengths and line tension *)

Section TetherFacts.
Import Tether.
Local Open Scope R_scope.

Lemma effectiveLength_pos (lineLength input : R) :
  0 < lineLength -> 0 <= input <= 1 -> 0 < effectiveLength lineLength input.
Proof.
  intros HL Hi. unfold effectiveLength. nra.
Qed.

(** The tension as a function of the strain. *)
Lemma calculateLineTension_strain (c : TetherConfig) (d lineLength input : R) :
  calculateLineTension c d lineLength input =
  lineElasticity c
  * Rmax 0 (d / effectiveLength lineLength input - 1)
  * (1 + Rmax 0 (d / effectiveLength lineLength input - 1)).
Proof. reflexivity. Qed.

Lemma strain_slack (d len : R) :
  0 < len -> d <= len -> Rmax 0 (d / len - 1) = 0.
Proof.
  intros Hlen Hd. apply Rmax_left.
  assert (d / len <= 1); [| lra].
  apply Rmult_le_reg_r with len; [assumption |].
  unfold Rdiv. rewrite Rmult_assoc, Rinv_l; lra.
Qed.

Lemma strain_taut (d len : R) :
  0 < len -> len <= d -> Rmax 0 (d / len - 1) = d / len - 1.
Proof.
  intros Hlen Hd. apply Rmax_right.
  assert (1 <= d / len); [| lra].
  apply Rmult_le_reg_r with len; [assumption |].
  unfold Rdiv. rewrite Rmult_assoc, Rinv_l; lra.
Qed.

Lemma strain_increasing (d1 d2 len : R) :
  0 < len -> d1 < d2 -> d1 / len - 1 < d2 / len - 1.
Proof.
  intros Hlen Hd. unfold Rdiv.
  assert (0 < / len) by (apply Rinv_0_lt_compat; assumption).
  nra.
Qed.

(** C10: after [updateEffectiveLineLengths] the two line lengths add up to
    twice the base length [30 * (1 + 0.5 * overallLengthAdjustment)],
    whatever the differential adjustment is (in particular for both
    adjustments in [[-1, 1]]).  The differential adjustment [d] shifts
    length between the lines: the left line is [baseLength * (1 - 0.2 * d)]
    and the right line [baseLength * (1 + 0.2 * d)], so the right line is
    longer than the left by [0.4 * d * baseLength].  For an overall
    adjustment in [[-1, 1]] the base length is between 15 m and 45 m; then a
    positive [d] makes the left line shorter and the right line longer than
    the base length, a negative [d] the reverse, [d = 0] leaves both at the
    base length, and for [d] in [[-1, 1]] each line stays within 20 % of
    it. *)
Theorem updateEffectiveLineLengths_preserves_total (c : TetherConfig) :
  let c' := updateEffectiveLineLengths c in
  let d := differentialLengthAdjustment c in
  leftLineLength (updateEffectiveLineLengths c)
  + rightLineLength (updateEffectiveLineLengths c)
  = 2 * baseLength c
  /\ baseLength c = 30 * (1 + 0.5 * overallLengthAdjustment c)
  /\ leftLineLength c' = baseLength c * (1 - 0.2 * d)
  /\ rightLineLength c' = baseLength c * (1 + 0.2 * d)
  /\ rightLineLength c' - leftLineLength c' = 0.4 * d * baseLength c
  /\ (-1 <= overallLengthAdjustment c <= 1 ->
      15 <= baseLength c <= 45
      /\ (0 < d -> leftLineLength c' < baseLength c < rightLineLength c')
      /\ (d < 0 -> rightLineLength c' < baseLength c < leftLineLength c')
      /\ (d = 0 -> leftLineLength c' = baseLength c
                   /\ rightLineLength c' = baseLength c)
      /\ (-1 <= d <= 1 ->
          0.8 * baseLength c <= leftLineLength c' <= 1.2 * baseLength c
          /\ 0.8 * baseLength c <= rightLineLength c' <= 1.2 * baseLength c)).
Proof.
  cbv zeta. unfold updateEffectiveLineLengths, baseLength.
  cbn [leftLineLength rightLineLength overallLengthAdjustment
       differentialLengthAdjustment].
  set (a := overallLengthAdjustment c). set (d := differentialLengthAdjustment c).
  split; [lra |]. split; [lra |]. split; [lra |]. split; [lra |].
  split; [lra |].
  intros Ha.
  assert (Hb : 15 <= 30.0 * (1.0 + a * 0.5) <= 45) by lra.
  set (b := 30.0 * (1.0 + a * 0.5)) in *.
  split; [exact Hb |].
  split; [intros Hd; split; nra |].
  split; [intros Hd; split; nra |].
  split; [intros Hd; rewrite Hd; split; lra |].
  intros Hd. split; split; nra.
Qed.

(** The shift at a differential adjustment of 0.5 on the initial
    configuration: 27 m on the left, 33 m on the right. *)
Lemma updateEffectiveLineLengths_preserves_total_witness :
  leftLineLength (updateEffectiveLineLengths
                    (setDifferentialLineLength 0.5 tetherConfig)) = 27
  /\ rightLineLength (updateEffectiveLineLengths
                        (setDifferentialLineLength 0.5 tetherConfig)) = 33
  /\ leftLineLength (updateEffectiveLineLengths
                        (setDifferentialLineLength 0.5 tetherConfig))
     < baseLength tetherConfig
     < rightLineLength (updateEffectiveLineLengths
                          (setDifferentialLineLength 0.5 tetherConfig)).
Proof.
  pose proof (@updateEffectiveLineLengths_preserves_total
                (setDifferentialLineLength 0.5 tetherConfig))
    as (_ & _ & Hl & Hr & _ & H).
  cbv zeta in Hl, Hr, H.
  assert (Hd : differentialLengthAdjustment
                 (setDifferentialLineLength 0.5 tetherConfig) = 0.5).
  { cbn [setDifferentialLineLength differentialLengthAdjustment].
    rewrite Rmin_right by lra. apply Rmax_right. lra. }
  assert (Hb : baseLength (setDifferentialLineLength 0.5 tetherConfig)
               = baseLength tetherConfig) by reflexivity.
  assert (Hv : baseLength tetherConfig = 30) by (unfold baseLength; simpl; lra).
  rewrite Hd, Hb, Hv in Hl, Hr.
  split; [rewrite Hl; lra | split; [rewrite Hr; lra |]].
  rewrite Hd, Hb in H.
  apply H; simpl; lra.
Defined.

(** C2: with a positive elasticity, a positive nominal length and an input
    in [[0, 1]], the tension of [calculateLineTension] is zero at every
    distance up to the effective length, strictly increasing in the distance
    from the effective length on, and never negative. *)
Theorem calculateLineTension_slack_taut
    (c : TetherConfig) (lineLength input : R) :
  0 < lineElasticity c -> 0 < lineLength -> 0 <= input <= 1 ->
  (forall d, 0 <= d -> d <= effectiveLength lineLength input ->
     calculateLineTension c d lineLength input = 0)
  /\ (forall d1 d2, 0 <= d1 -> effectiveLength lineLength input <= d1 -> d1 < d2 ->
        calculateLineTension c d1 lineLength input
        < calculateLineTension c d2 lineLength input)
  /\ (forall d, 0 <= d -> 0 <= calculateLineTension c d lineLength input).
Proof.
  intros Hk HL Hi.
  pose proof (effectiveLength_pos HL Hi) as Hlen.
  repeat split.
  - intros d _ Hd. rewrite calculateLineTension_strain.
    rewrite (strain_slack Hlen Hd). ring.
  - intros d1 d2 _ H1 H12. rewrite !calculateLineTension_strain.
    rewrite (strain_taut Hlen H1).
    rewrite (strain_taut (d := d2) Hlen) by lra.
    pose proof (strain_increasing Hlen H12) as Hs.
    assert (0 <= d1 / effectiveLength lineLength input - 1).
    { rewrite <- (strain_taut Hlen H1). apply Rmax_l. }
    set (s1 := d1 / effectiveLength lineLength input - 1) in *.
    set (s2 := d2 / effectiveLength lineLength input - 1) in *.
    assert (s1 * (1 + s1) < s2 * (1 + s2)) by nra.
    rewrite !Rmult_assoc. apply Rmult_lt_compat_l; assumption.
  - intros d _. rewrite calculateLineTension_strain.
    pose proof (Rmax_l 0 (d / effectiveLength lineLength input - 1)).
    nra.
Qed.

(** The tensions that [getTetherForces] raises to the power 0.8 are never
    negative when the elasticity is not. *)
Lemma tensions_nonneg (kite : KiteProperties R) (c : TetherConfig) :
  0 <= lineElasticity c ->
  0 <= leftTension (calculateTetherForces kite c)
  /\ 0 <= rightTension (calculateTetherForces kite c).
Proof.
  intros Hk. unfold calculateTetherForces. cbv zeta.
  cbn [leftTension rightTension].
  assert (Hg : 0 <= Rmax 1.0 (2.0 * (1.0 - Rmin 1.0
                 (Vec.y (bridleConnection kite) / 5.0)))).
  { eapply Rle_trans; [| apply Rmax_l]. lra. }
  split; (apply Rmult_le_pos; [| exact Hg]);
    rewrite calculateLineTension_strain;
    match goal with |- context [Rmax 0 ?u] =>
      pose proof (Rmax_l 0 u); set (s := Rmax 0 u) in *
    end; nra.
Qed.

Lemma calculateLineTension_slack_taut_witness :
  (forall d, 0 <= d -> d <= effectiveLength 30 0.5 ->
     calculateLineTension tetherConfig d 30 0.5 = 0)
  /\ (forall d1 d2, 0 <= d1 -> effectiveLength 30 0.5 <= d1 -> d1 < d2 ->
        calculateLineTension tetherConfig d1 30 0.5
        < calculateLineTension tetherConfig d2 30 0.5)
  /\ (forall d, 0 <= d -> 0 <= calculateLineTension tetherConfig d 30 0.5).
Proof.
  apply (@calculateLineTension_slack_taut tetherConfig 30 0.5); simpl; lra.
Defined.

End TetherFacts.

(** ** Numbers with NaN: how the operations act on finite numbers *)

Section JSNumFacts.
Import JSNum.
Local Open Scope R_scope.

Lemma add_Fin (u v : R) : add (Fin u) (Fin v) = Fin (u + v).
Proof. reflexivity. Qed.

Lemma sub_Fin (u v : R) : sub (Fin u) (Fin v) = Fin (u - v).
Proof. reflexivity. Qed.

Lemma mul_Fin (u v : R) : mul (Fin u) (Fin v) = Fin (u * v).
Proof. reflexivity. Qed.

Lemma div_Fin (u v : R) : v <> 0 -> div (Fin u) (Fin v) = Fin (u / v).
Proof.
  intros Hv. unfold div. destruct (Req_dec_T v 0); [contradiction | reflexivity].
Qed.

Lemma sqrt_Fin (u : R) : 0 <= u -> JSNum.sqrt (Fin u) = Fin (R_sqrt.sqrt u).
Proof.
  intros Hu. unfold JSNum.sqrt. destruct (Rlt_dec u 0); [lra | reflexivity].
Qed.

Lemma lt_Fin_true (u v : R) : u < v -> lt (Fin u) (Fin v) = true.
Proof.
  intros H. unfold lt. destruct (Rlt_dec u v); [reflexivity | contradiction].
Qed.

Lemma lt_Fin_false (u v : R) : v <= u -> lt (Fin u) (Fin v) = false.
Proof.
  intros H. unfold lt. destruct (Rlt_dec u v); [lra | reflexivity].
Qed.

Lemma gt_Fin_false (u v : R) : u <= v -> gt (Fin u) (Fin v) = false.
Proof. intros H. unfold gt. apply lt_Fin_false. exact H. Qed.

(** What is not below a positive finite bound is not zero. *)
Lemma not_lt_not_zero (m : num) (b : R) :
  0 < b -> lt m (Fin b) = false -> isZero m = false.
Proof.
  intros Hb Hm. destruct m as [| s | r]; try reflexivity.
  unfold isZero. destruct (Req_dec_T r 0) as [-> |]; [| reflexivity].
  rewrite lt_Fin_true in Hm by assumption. discriminate.
Qed.

(** What is above zero is not zero. *)
Lemma gt_zero_not_zero (m : num) : gt m zero = true -> isZero m = false.
Proof.
  destruct m as [| s | r]; try reflexivity.
  unfold gt, zero, lt, isZero.
  destruct (Rlt_dec 0 r), (Req_dec_T r 0); try reflexivity; try discriminate.
  lra.
Qed.

Lemma sum_squares_nonneg (a b c : R) : 0 <= a * a + b * b + c * c.
Proof. nra. Qed.

Lemma magnitude_Fin (a b c : R) :
  Vector3.magnitude (Vec.mk (Fin a) (Fin b) (Fin c))
  = Fin (R_sqrt.sqrt (a * a + b * b + c * c)).
Proof.
  unfold Vector3.magnitude. simpl Vec.x; simpl Vec.y; simpl Vec.z.
  rewrite !mul_Fin, !add_Fin. apply sqrt_Fin, sum_squares_nonneg.
Qed.

End JSNumFacts.

(** Arithmetic on finite numbers, pushed under [Fin]. *)
Ltac fin :=
  repeat first
    [ rewrite add_Fin | rewrite sub_Fin | rewrite mul_Fin
    | rewrite div_Fin by lra ].

(** ** Vector math: the zero-length guard of the two normalizations *)

Section VectorFacts.
Import JSNum.
Local Open Scope R_scope.

Lemma normalize_checked_agrees (v : vec num) :
  Vector3.normalize_checked v = Some (Vector3.normalize v).
Proof.
  unfold Vector3.normalize_checked, Vector3.normalize.
  destruct (gt (Vector3.magnitude v) zero) eqn:Hg; [| reflexivity].
  unfold div_checked. rewrite (gt_zero_not_zero _ Hg). reflexivity.
Qed.

Lemma normalizeVector_checked_agrees (v : vec num) :
  Vector3.normalizeVector_checked v = Some (Vector3.normalizeVector v).
Proof.
  unfold Vector3.normalizeVector_checked, Vector3.normalizeVector.
  match goal with |- context [lt ?m (Fin 0.0001)] =>
    destruct (lt m (Fin 0.0001)) eqn:Hl; [reflexivity |];
    unfold div_checked; rewrite (@not_lt_not_zero m 0.0001) by (lra || assumption)
  end.
  reflexivity.
Qed.

Lemma normalizeVector_Fin (a b c : R) :
  Vector3.normalizeVector (Vec.mk (Fin a) (Fin b) (Fin c))
  = let m := R_sqrt.sqrt (a * a + b * b + c * c) in
    if Rlt_dec m 0.0001 then vzero
    else Vec.mk (Fin (a / m)) (Fin (b / m)) (Fin (c / m)).
Proof.
  pose proof (magnitude_Fin a b c) as Hm. unfold Vector3.magnitude in Hm.
  unfold Vector3.normalizeVector. rewrite Hm. cbv zeta.
  unfold lt. destruct (Rlt_dec _ 0.0001) as [Hlt | Hge]; [reflexivity |].
  simpl Vec.x; simpl Vec.y; simpl Vec.z.
  rewrite !div_Fin by lra. reflexivity.
Qed.

Lemma normalize_Fin (a b c : R) :
  Vector3.normalize (Vec.mk (Fin a) (Fin b) (Fin c))
  = let m := R_sqrt.sqrt (a * a + b * b + c * c) in
    if Rlt_dec 0 m then Vec.mk (Fin (a / m)) (Fin (b / m)) (Fin (c / m))
    else Vec.mk (Fin a) (Fin b) (Fin c).
Proof.
  unfold Vector3.normalize. rewrite magnitude_Fin. cbv zeta.
  unfold gt, zero, lt. destruct (Rlt_dec 0 _) as [Hlt | Hge]; [| reflexivity].
  simpl Vec.x; simpl Vec.y; simpl Vec.z.
  rewrite !div_Fin by lra. reflexivity.
Qed.

(** A vector of finite magnitude has finite components. *)
Lemma magnitude_finite (v : vec num) (m : R) :
  Vector3.magnitude v = Fin m ->
  exists a b c, v = Vec.mk (Fin a) (Fin b) (Fin c).
Proof.
  destruct v as [x y z]. unfold Vector3.magnitude. cbn [Vec.x Vec.y Vec.z].
  destruct x as [| [|] | a]; destruct y as [| [|] | b];
    destruct z as [| [|] | c]; cbn; intros H; try discriminate H.
  exists a, b, c. reflexivity.
Qed.

(** A finite vector divided by its positive length has length 1. *)
Lemma normalized_sum_squares (a b c : R) :
  0 < R_sqrt.sqrt (a * a + b * b + c * c) ->
  let m := R_sqrt.sqrt (a * a + b * b + c * c) in
  a / m * (a / m) + b / m * (b / m) + c / m * (c / m) = 1.
Proof.
  intros Hm. cbv zeta.
  assert (Hq : 0 <= a * a + b * b + c * c) by apply sum_squares_nonneg.
  pose proof (sqrt_sqrt _ Hq) as Hmm.
  set (m := R_sqrt.sqrt (a * a + b * b + c * c)) in *.
  replace (a / m * (a / m) + b / m * (b / m) + c / m * (c / m))
    with ((a * a + b * b + c * c) / (m * m)) by (field; lra).
  rewrite <- Hmm. field. lra.
Qed.

(** [Vector3.normalize] on a vector of finite positive magnitude: each
    component is divided by the magnitude and the result has length 1. *)
Lemma normalize_positive (v : vec num) (m : R) :
  Vector3.magnitude v = Fin m -> 0 < m ->
  Vector3.normalize v
  = Vec.mk (div (Vec.x v) (Fin m)) (div (Vec.y v) (Fin m)) (div (Vec.z v) (Fin m))
  /\ Vector3.magnitude (Vector3.normalize v) = Fin 1
  /\ Vector3.normalize v <> vzero.
Proof.
  intros Hv Hm.
  destruct (magnitude_finite _ Hv) as (a & b & c & ->).
  rewrite magnitude_Fin in Hv. injection Hv as Hv.
  assert (Hn : Vector3.normalize (Vec.mk (Fin a) (Fin b) (Fin c))
               = Vec.mk (Fin (a / m)) (Fin (b / m)) (Fin (c / m))).
  { rewrite normalize_Fin. cbv zeta. rewrite Hv.
    destruct (Rlt_dec 0 m); [reflexivity | contradiction]. }
  assert (Hu : a / m * (a / m) + b / m * (b / m) + c / m * (c / m) = 1).
  { rewrite <- Hv in Hm |- *. apply normalized_sum_squares. exact Hm. }
  split; [| split].
  - rewrite Hn. cbn [Vec.x Vec.y Vec.z]. rewrite !div_Fin by lra. reflexivity.
  - rewrite Hn, magnitude_Fin, Hu, sqrt_1. reflexivity.
  - rewrite Hn. unfold vzero, zero. intros H. injection H as Ha Hb Hc.
    rewrite Ha, Hb, Hc in Hu. lra.
Qed.

(** C9, as the code has it, in exact arithmetic extended with NaN and the
    infinities.  [normalizeVector] returns the zero vector whenever the
    magnitude is below 1e-4; [Vector3.normalize] returns its receiver
    unchanged unless the magnitude is above zero, and otherwise divides each
    component by the magnitude.  Neither ever divides by zero (checking the
    divisors changes no result), neither returns a NaN component on finite
    components, and both map the zero vector to the zero vector.  A vector
    of finite magnitude above zero is scaled by [Vector3.normalize] to
    length 1; so a vector of magnitude in (0, 1e-4) is scaled to length 1
    by [Vector3.normalize], not zeroed, while [normalizeVector] zeroes
    it. *)
Theorem normalize_guards :
  (forall v, lt (Vector3.magnitude v) (Fin 0.0001) = true ->
             Vector3.normalizeVector v = vzero)
  /\ (forall v, gt (Vector3.magnitude v) zero = false ->
                Vector3.normalize v = v)
  /\ (forall v, Vector3.normalizeVector_checked v
                = Some (Vector3.normalizeVector v)
                /\ Vector3.normalize_checked v = Some (Vector3.normalize v))
  /\ (forall a b c,
        anyNaN (Vector3.normalizeVector (Vec.mk (Fin a) (Fin b) (Fin c))) = false
        /\ anyNaN (Vector3.normalize (Vec.mk (Fin a) (Fin b) (Fin c))) = false)
  /\ Vector3.normalizeVector vzero = vzero
  /\ Vector3.normalize vzero = vzero
  /\ (forall v, gt (Vector3.magnitude v) zero = true ->
        Vector3.normalize v
        = Vec.mk (div (Vec.x v) (Vector3.magnitude v))
                 (div (Vec.y v) (Vector3.magnitude v))
                 (div (Vec.z v) (Vector3.magnitude v)))
  /\ (forall v m, Vector3.magnitude v = Fin m -> 0 < m ->
        Vector3.magnitude (Vector3.normalize v) = Fin 1)
  /\ (forall v m, Vector3.magnitude v = Fin m -> 0 < m < 0.0001 ->
        Vector3.magnitude (Vector3.normalize v) = Fin 1
        /\ Vector3.normalize v <> vzero
        /\ Vector3.normalizeVector v = vzero).
Proof.
  split; [| split; [| split; [| split; [| split; [| split; [| split; [| split]]]]]]].
  - intros v Hv. unfold Vector3.normalizeVector.
    unfold Vector3.magnitude in Hv. rewrite Hv. reflexivity.
  - intros v Hv. unfold Vector3.normalize. rewrite Hv. reflexivity.
  - intros v. split.
    + apply normalizeVector_checked_agrees.
    + apply normalize_checked_agrees.
  - intros a b c. rewrite normalizeVector_Fin, normalize_Fin. cbv zeta.
    split.
    + destruct (Rlt_dec _ 0.0001); reflexivity.
    + destruct (Rlt_dec 0 _); reflexivity.
  - unfold vzero, zero. rewrite normalizeVector_Fin. cbv zeta.
    replace (0 * 0 + 0 * 0 + 0 * 0) with 0 by ring. rewrite sqrt_0.
    destruct (Rlt_dec 0 0.0001); [reflexivity | lra].
  - unfold vzero, zero. rewrite normalize_Fin. cbv zeta.
    replace (0 * 0 + 0 * 0 + 0 * 0) with 0 by ring. rewrite sqrt_0.
    destruct (Rlt_dec 0 0); [lra | reflexivity].
  - intros v Hv. unfold Vector3.normalize. cbv zeta. rewrite Hv. reflexivity.
  - intros v m Hv Hm. apply (normalize_positive v Hv Hm).
  - intros v m Hv [Hm0 Hm1].
    destruct (normalize_positive v Hv Hm0) as (_ & Hu & Hnz).
    split; [exact Hu | split; [exact Hnz |]].
    unfold Vector3.normalizeVector. unfold Vector3.magnitude in Hv.
    rewrite Hv. rewrite lt_Fin_true by exact Hm1. reflexivity.
Qed.

(** The guards of [normalize_guards] at a vector of magnitude 0.00005 for
    the first and the last, and at the zero vector for the second. *)
Lemma normalize_guards_witness :
  Vector3.normalizeVector (Vec.mk (Fin 0.00005) (Fin 0) (Fin 0)) = vzero
  /\ Vector3.normalize vzero = vzero
  /\ Vector3.magnitude
       (Vector3.normalize (Vec.mk (Fin 0.00005) (Fin 0) (Fin 0))) = Fin 1.
Proof.
  destruct normalize_guards as (Hsmall & Hzero & _ & _ & _ & _ & _ & _ & Hunit).
  assert (Hm : Vector3.magnitude (Vec.mk (Fin 0.00005) (Fin 0) (Fin 0))
               = Fin 0.00005).
  { rewrite magnitude_Fin.
    replace (0.00005 * 0.00005 + 0 * 0 + 0 * 0) with (0.00005 * 0.00005) by ring.
    rewrite sqrt_square by lra. reflexivity. }
  split; [| split].
  - apply Hsmall. rewrite Hm. apply lt_Fin_true. lra.
  - apply Hzero. unfold vzero, zero. rewrite magnitude_Fin.
    replace (0 * 0 + 0 * 0 + 0 * 0) with 0 by ring. rewrite sqrt_0.
    apply lt_Fin_false. lra.
  - apply (Hunit _ 0.00005 Hm). lra.
Defined.

(** C9 as stated fails on [Vector3.normalize]: the vector (0.00005, 0, 0)
    has a magnitude below 1e-4 and is scaled to (1, 0, 0), not zeroed. *)
Lemma normalize_below_threshold_not_zero :
  lt (Vector3.magnitude (Vec.mk (Fin 0.00005) (Fin 0) (Fin 0))) (Fin 0.0001) = true
  /\ Vector3.normalize (Vec.mk (Fin 0.00005) (Fin 0) (Fin 0))
     = Vec.mk (Fin 1) (Fin 0) (Fin 0)
  /\ Vector3.normalize (Vec.mk (Fin 0.00005) (Fin 0) (Fin 0)) <> vzero.
Proof.
  assert (Hm : R_sqrt.sqrt (0.00005 * 0.00005 + 0 * 0 + 0 * 0) = 0.00005).
  { replace (0.00005 * 0.00005 + 0 * 0 + 0 * 0) with (0.00005 * 0.00005) by ring.
    apply sqrt_square. lra. }
  assert (Hn : Vector3.normalize (Vec.mk (Fin 0.00005) (Fin 0) (Fin 0))
               = Vec.mk (Fin 1) (Fin 0) (Fin 0)).
  { rewrite normalize_Fin. cbv zeta. rewrite Hm.
    destruct (Rlt_dec 0 0.00005); [| lra].
    f_equal; f_equal; field; lra. }
  split; [| split].
  - rewrite magnitude_Fin, Hm. apply lt_Fin_true. lra.
  - exact Hn.
  - rewrite Hn. unfold vzero, zero. intros H.
    injection H as H. lra.
Qed.

End VectorFacts.

(** ** Rigid-body state: NaN rejection and reset *)

Section KiteFacts.
Import JSNum Kite.
Local Open Scope R_scope.

(** C8: [applyForce] called with a force that has a NaN component prints
    one diagnostic and returns; [kiteProperties] (position, velocity,
    rotation, angular velocity, both smoothing accumulators and every other
    field) and [kiteModel] are as before the call. *)
Theorem applyForce_NaN_rejected (force : vec num) (s : State) :
  isNaN (Vec.x force) || isNaN (Vec.y force) || isNaN (Vec.z force) = true ->
  kiteProperties (applyForce force s) = kiteProperties s
  /\ kiteModel (applyForce force s) = kiteModel s
  /\ console (applyForce force s) = (console s ++ ["Invalid force values:"%string])%list.
Proof.
  intros Hnan. unfold applyForce. rewrite Hnan. simpl. repeat split.
Qed.

Lemma applyForce_NaN_rejected_witness :
  kiteProperties (applyForce (Vec.mk (Fin 1) NaN (Fin 0)) initialState)
  = kiteProperties initialState
  /\ kiteModel (applyForce (Vec.mk (Fin 1) NaN (Fin 0)) initialState)
     = kiteModel initialState
  /\ console (applyForce (Vec.mk (Fin 1) NaN (Fin 0)) initialState)
     = (console initialState ++ ["Invalid force values:"%string])%list.
Proof.
  apply (@applyForce_NaN_rejected (Vec.mk (Fin 1) NaN (Fin 0)) initialState).
  reflexivity.
Defined.

(** [resetKite] writes neither accumulator. *)
Lemma resetKite_accumulators (s : State) :
  smoothedAcceleration (kiteProperties (resetKite s))
  = smoothedAcceleration (kiteProperties s)
  /\ smoothedAngularAcceleration (kiteProperties (resetKite s))
     = smoothedAngularAcceleration (kiteProperties s).
Proof. split; reflexivity. Qed.

(** Once [applyForce] has accepted a force, the acceleration accumulator
    exists, whichever way the call ends. *)
Lemma applyForce_creates_accumulator (force : vec num) (s : State) :
  isNaN (Vec.x force) || isNaN (Vec.y force) || isNaN (Vec.z force) = false ->
  smoothedAcceleration (kiteProperties (applyForce force s)) <> None.
Proof.
  intros Hok. unfold applyForce. rewrite Hok. cbv zeta.
  match goal with |- context [if ?b then resetKite _ else _] => destruct b end.
  - rewrite (proj1 (resetKite_accumulators _)). simpl. discriminate.
  - simpl. discriminate.
Qed.

(** The launch pose in numbers: 15 m up, [15 * sqrt 3] m further out than
    the pilot at z = -10, pitched by -(pi/2 - pi/6). *)
Lemma launchPosition_value :
  launchPosition = Vec.mk (Fin 0) (Fin 15) (Fin (- 10 - 15 * R_sqrt.sqrt 3)).
Proof.
  unfold launchPosition, elevationAngle, tetherLength, JSNum.PI.
  rewrite div_Fin by lra. unfold JSNum.sin, JSNum.cos.
  rewrite sin_PI6, cos_PI6. rewrite !mul_Fin. unfold sub, neg. rewrite add_Fin.
  f_equal; apply f_equal; lra.
Qed.

Lemma launchRotation_value :
  launchRotation = Vec.mk (Fin (- (Rtrigo1.PI / 3))) (Fin 0) (Fin 0).
Proof.
  unfold launchRotation, elevationAngle, JSNum.PI.
  rewrite !div_Fin by lra. unfold sub, neg. rewrite add_Fin.
  f_equal; apply f_equal; lra.
Qed.

(** C4, as the code has it.  Every [resetKite] sets the position to the
    launch position computed from the 30 m tether and the 30 degree
    elevation, the rotation to that elevation (a pitch of -pi/3), and the
    velocity and the angular velocity to zero, so that the pose after a
    reset is the same whatever the state before; the two smoothing
    accumulators are left as they were, and a second reset changes nothing
    in [kiteProperties]. *)
Theorem resetKite_restores_pose (s : State) :
  let k := kiteProperties (resetKite s) in
  position k = launchPosition
  /\ launchPosition = Vec.mk (Fin 0) (Fin 15) (Fin (- 10 - 15 * R_sqrt.sqrt 3))
  /\ rotation k = launchRotation
  /\ launchRotation = Vec.mk (Fin (- (Rtrigo1.PI / 3))) (Fin 0) (Fin 0)
  /\ velocity k = Vec.mk (Fin 0) (Fin 0) (Fin 0)
  /\ angularVelocity k = Vec.mk (Fin 0) (Fin 0) (Fin 0)
  /\ smoothedAcceleration k = smoothedAcceleration (kiteProperties s)
  /\ smoothedAngularAcceleration k
     = smoothedAngularAcceleration (kiteProperties s)
  /\ (forall s', pose (kiteProperties (resetKite s')) = pose k)
  /\ kiteProperties (resetKite (resetKite s)) = k.
Proof.
  cbv zeta. repeat split; try reflexivity.
  - apply launchPosition_value.
  - apply launchRotation_value.
Qed.

(** [applyForce] on finite numbers, when the damped velocity stays within
    the velocity limit: one smoothed, damped Euler step. *)
Lemma applyForce_finite (s : State) (m fx fy fz vx vy vz px py pz ax ay az : R) :
  mass (kiteProperties s) = Fin m -> m <> 0 ->
  velocity (kiteProperties s) = Vec.mk (Fin vx) (Fin vy) (Fin vz) ->
  position (kiteProperties s) = Vec.mk (Fin px) (Fin py) (Fin pz) ->
  match smoothedAcceleration (kiteProperties s) with
  | Some a => a
  | None => Vec.mk (Fin 0) (Fin 0) (Fin 0)
  end = Vec.mk (Fin ax) (Fin ay) (Fin az) ->
  let sx := 0.15 * (fx / m) + (1 - 0.15) * ax in
  let sy := 0.15 * (fy / m) + (1 - 0.15) * ay in
  let sz := 0.15 * (fz / m) + (1 - 0.15) * az in
  let wx := (vx + sx) * (1 - 0.05) in
  let wy := (vy + sy) * (1 - 0.05) in
  let wz := (vz + sz) * (1 - 0.05) in
  wx * wx + wy * wy + wz * wz <= 5.0 * 5.0 ->
  applyForce (Vec.mk (Fin fx) (Fin fy) (Fin fz)) s
  = mkState
      (setLinear (kiteProperties s)
         (Vec.mk (Fin (px + wx)) (Fin (py + wy)) (Fin (pz + wz)))
         (Vec.mk (Fin wx) (Fin wy) (Fin wz))
         (Vec.mk (Fin sx) (Fin sy) (Fin sz)))
      (kiteModel s) (console s).
Proof.
  intros Hm Hm0 Hv Hp Ha sx sy sz wx wy wz Hslow.
  unfold applyForce. cbn [Vec.x Vec.y Vec.z isNaN orb].
  rewrite Hm, Hv, Hp, Ha. cbn [Vec.x Vec.y Vec.z].
  fin. fold sx sy sz. fold wx wy wz.
  rewrite gt_Fin_false by exact Hslow.
  cbn [Vec.x Vec.y Vec.z]. fin. cbn [isNaN orb]. reflexivity.
Qed.

(** One accepted push, then a reset, then a call with no force at all: the
    kite that was pushed before the reset drifts by 0.24225 m along x, the
    kite that was not stays at the launch position. *)
Lemma reset_then_drift :
  pose (kiteProperties (resetKite (applyForce pushX initialState)))
  = pose (kiteProperties (resetKite initialState))
  /\ Vec.x (position (kiteProperties
              (applyForce zeroForce (resetKite initialState)))) = Fin 0
  /\ Vec.x (position (kiteProperties
              (applyForce zeroForce
                 (resetKite (applyForce pushX initialState))))) = Fin 0.24225.
Proof.
  split; [reflexivity | split].
  - unfold zeroForce.
    rewrite (@applyForce_finite (resetKite initialState)
               0.5 0 0 0 0 0 0 0 15 (- 10 - 15 * R_sqrt.sqrt 3) 0 0 0);
      [ | reflexivity | lra | reflexivity | apply launchPosition_value
        | reflexivity | lra ].
    cbn [kiteProperties setLinear position Vec.x]. f_equal. lra.
  - unfold pushX.
    rewrite (@applyForce_finite initialState 0.5 1 0 0 0 0 0 0 2 0 0 0 0);
      [ | reflexivity | lra | reflexivity | reflexivity | reflexivity | lra ].
    unfold zeroForce.
    rewrite (@applyForce_finite _
               0.5 0 0 0 0 0 0 0 15 (- 10 - 15 * R_sqrt.sqrt 3)
               (0.15 * (1 / 0.5) + (1 - 0.15) * 0)
               (0.15 * (0 / 0.5) + (1 - 0.15) * 0)
               (0.15 * (0 / 0.5) + (1 - 0.15) * 0));
      [ | reflexivity | lra | reflexivity | apply launchPosition_value
        | reflexivity | lra ].
    cbn [kiteProperties setLinear position Vec.x]. f_equal. lra.
Qed.

(** C4 as stated fails.  A reset after one accepted [applyForce] leaves the
    acceleration accumulator in place: the kite state after the reset is not
    the state a reset of the initial kite gives, and the next call of
    [applyForce], with no force at all, moves the one kite by 0.24225 m and
    leaves the other where it is. *)
Lemma resetKite_depends_on_history :
  smoothedAcceleration (kiteProperties (resetKite (applyForce pushX initialState)))
  <> None
  /\ smoothedAcceleration (kiteProperties (resetKite initialState)) = None
  /\ kiteProperties (resetKite (applyForce pushX initialState))
     <> kiteProperties (resetKite initialState)
  /\ Vec.x (position (kiteProperties
              (applyForce zeroForce (resetKite initialState)))) = Fin 0
  /\ Vec.x (position (kiteProperties
              (applyForce zeroForce
                 (resetKite (applyForce pushX initialState))))) = Fin 0.24225.
Proof.
  assert (H : smoothedAcceleration (kiteProperties
    (resetKite (applyForce pushX initialState))) <> None).
  { rewrite (proj1 (resetKite_accumulators _)).
    apply applyForce_creates_accumulator. reflexivity. }
  split; [exact H | split; [reflexivity | split]].
  - intros Heq. apply H. rewrite Heq. reflexivity.
  - apply reset_then_drift.
Qed.

End KiteFacts.

(** ** Wind field: the floor of the wind speed *)

Section WindFacts.
Import Wind.
Local Open Scope R_scope.

Lemma currentSpeed_update (deltaTime now r0 r1 r2 r3 : R) (w : WindState) :
  currentSpeed (updateWindVariation deltaTime now r0 r1 r2 r3 w)
  = Rmax 0.1 (baseSpeed w * variationFactor now r0 w * userWindScale w).
Proof. reflexivity. Qed.

(** With gusts and turbulence that together stay below 90 %, the variation
    factor is at least 0.1. *)
Lemma variationFactor_lower (now r0 : R) (w : WindState) :
  0 <= gustStrength w -> 0 <= turbulence w ->
  gustStrength w + turbulence w / 2 <= 0.9 -> isRandom r0 ->
  0.1 <= variationFactor now r0 w.
Proof.
  intros Hg Ht Hsum [Hr0 Hr1]. unfold variationFactor.
  pose proof (SIN_bound (now / 1000 * gustFrequency w)) as [Hs _].
  assert (- gustStrength w <= sin (now / 1000 * gustFrequency w) * gustStrength w)
    by nra.
  assert (- (turbulence w / 2) <= (r0 - 0.5) * turbulence w) by nra.
  lra.
Qed.

(** The same with gusts and turbulence of any sign, bounded in absolute
    value. *)
Lemma variationFactor_lower_abs (now r0 : R) (w : WindState) :
  Rabs (gustStrength w) + Rabs (turbulence w) / 2 <= 0.9 -> isRandom r0 ->
  0.1 <= variationFactor now r0 w.
Proof.
  intros Hsum [Hr0 Hr1]. unfold variationFactor.
  pose proof (SIN_bound (now / 1000 * gustFrequency w)) as [Hs1 Hs2].
  assert (- Rabs (gustStrength w)
          <= sin (now / 1000 * gustFrequency w) * gustStrength w).
  { unfold Rabs. destruct (Rcase_abs (gustStrength w)); nra. }
  assert (- (Rabs (turbulence w) / 2) <= (r0 - 0.5) * turbulence w).
  { unfold Rabs. destruct (Rcase_abs (turbulence w)); nra. }
  lra.
Qed.

(** C5, as the code has it.  After every update the current speed is at
    least the absolute floor 0.1 and at least the scaled speed
    [baseSpeed * variationFactor * userWindScale]; with a user scale of zero
    it is exactly 0.1, whatever the clock and the random draws; and it is at
    least [0.1 * baseSpeed * userWindScale] when the base speed and the user
    scale are not negative, the draw of [Math.random] is in [[0, 1)] and
    [|gustStrength| + |turbulence| / 2 <= 0.9], which keeps the variation
    factor above 0.1, as the gust strength 0.2 and the turbulence 0.1 of the
    source do. *)
Theorem updateWindVariation_speed_floor
    (deltaTime now r0 r1 r2 r3 : R) (w : WindState) :
  let w' := updateWindVariation deltaTime now r0 r1 r2 r3 w in
  0.1 <= currentSpeed w'
  /\ baseSpeed w * variationFactor now r0 w * userWindScale w <= currentSpeed w'
  /\ (userWindScale w = 0 -> currentSpeed w' = 0.1)
  /\ (0 <= baseSpeed w -> 0 <= userWindScale w ->
      Rabs (gustStrength w) + Rabs (turbulence w) / 2 <= 0.9 -> isRandom r0 ->
      0.1 * baseSpeed w * userWindScale w <= currentSpeed w').
Proof.
  cbv zeta. rewrite currentSpeed_update.
  split; [apply Rmax_l | split; [apply Rmax_r | split]].
  - intros H0. rewrite H0, Rmult_0_r. apply Rmax_left. lra.
  - intros Hb Hu Hsum Hr.
    pose proof (@variationFactor_lower_abs now r0 w Hsum Hr) as Hv.
    eapply Rle_trans; [| apply Rmax_r].
    assert (0 <= baseSpeed w * userWindScale w) by nra.
    nra.
Qed.

Lemma updateWindVariation_speed_floor_witness :
  currentSpeed (updateWindVariation (1 / 60) 0 0.5 0.5 0.5 0.5
                  (setWindSpeed 0 windState)) = 0.1
  /\ 0.1 * baseSpeed windState * userWindScale windState
     <= currentSpeed (updateWindVariation (1 / 60) 0 0.5 0.5 0.5 0.5 windState).
Proof.
  split.
  - apply (updateWindVariation_speed_floor (1 / 60) 0 0.5 0.5 0.5 0.5
             (setWindSpeed 0 windState)).
    simpl. rewrite Rmin_right by lra. apply Rmax_left. lra.
  - apply (updateWindVariation_speed_floor (1 / 60) 0 0.5 0.5 0.5 0.5 windState);
      unfold isRandom; simpl; try lra.
    rewrite !Rabs_pos_eq by lra. lra.
Defined.

(** C5 as stated fails.  With the user scale set to zero the updated speed
    is 0.1, not the floor [0.1 * baseSpeed] = 0.5 of the claim; and with
    gusts of strength 2 ([setWindVariation]) at the trough of the gust, the
    updated speed 0.1 is below [0.1 * baseSpeed * userWindScale] = 0.5. *)
Lemma wind_floor_not_scaled_by_baseSpeed :
  userWindScale (setWindSpeed 0 windState) = 0
  /\ currentSpeed (updateWindVariation (1 / 60) 0 0.5 0.5 0.5 0.5
                     (setWindSpeed 0 windState)) = 0.1
  /\ currentSpeed (updateWindVariation (1 / 60) 0 0.5 0.5 0.5 0.5
                     (setWindSpeed 0 windState))
     <> 0.1 * baseSpeed (setWindSpeed 0 windState)
  /\ currentSpeed (updateWindVariation (1 / 60) (7500 * PI) 0.5 0.5 0.5 0.5
                     gustyWind)
     < 0.1 * baseSpeed gustyWind * userWindScale gustyWind.
Proof.
  assert (Hu : userWindScale (setWindSpeed 0 windState) = 0).
  { simpl. rewrite Rmin_right by lra. apply Rmax_left. lra. }
  assert (Hs : currentSpeed (updateWindVariation (1 / 60) 0 0.5 0.5 0.5 0.5
                               (setWindSpeed 0 windState)) = 0.1).
  { rewrite currentSpeed_update, Hu, Rmult_0_r. apply Rmax_left. lra. }
  split; [exact Hu | split; [exact Hs | split]].
  - rewrite Hs. simpl. lra.
  - rewrite currentSpeed_update. unfold variationFactor, gustyWind. simpl.
    replace (7500 * PI / 1000 * 0.2) with (3 * (PI / 2)) by (decimals; field).
    rewrite sin_3PI2. rewrite Rmax_left by lra. lra.
Qed.

End WindFacts.

(** ** Stepper: the bound on the sub-steps and the drained accumulator *)

Section StepperFacts.
Import Engine.
Local Open Scope Q_scope.

Variable World : Type.
Variable stepPhysics : Q -> World -> World.

Lemma iter_step_shift (k : nat) (f : World -> World) (w : World) :
  Nat.iter k f (f w) = f (Nat.iter k f w).
Proof.
  induction k as [| k IH]; simpl; [reflexivity | now rewrite IH].
Qed.

(** The loop, for any fuel: the count only grows, by at most the fuel; the
    world is the fixed step iterated as often as the count grew; and with
    fuel up to the bound the loop stops because its condition is false. *)
Lemma subSteps_spec (fuel : nat) : forall (acc : Q) (n : nat) (w : World),
  let r := subSteps stepPhysics fuel acc n w in
  (n <= snd (fst r) <= n + fuel)%nat
  /\ snd r = Nat.iter (snd (fst r) - n) (stepPhysics FIXED_TIME_STEP) w
  /\ ((maxSteps <= n + fuel)%nat ->
      Qle_bool FIXED_TIME_STEP (fst (fst r)) && (snd (fst r) <? maxSteps)%nat
      = false).
Proof.
  induction fuel as [| fuel IH]; intros acc n w; cbv zeta.
  - simpl. repeat split; try lia.
    + now rewrite Nat.sub_diag.
    + intros Hn. apply andb_false_intro2. apply Nat.ltb_ge. lia.
  - simpl subSteps.
    destruct (Qle_bool FIXED_TIME_STEP acc && (n <? maxSteps)%nat) eqn:Hc.
    + specialize (IH (acc - FIXED_TIME_STEP) (S n)
                     (stepPhysics FIXED_TIME_STEP w)).
      cbv zeta in IH. destruct IH as ([Hlo Hhi] & Hw & Hexit).
      repeat split; try lia.
      * rewrite Hw.
        replace (snd (fst (subSteps stepPhysics fuel (acc - FIXED_TIME_STEP)
                             (S n) (stepPhysics FIXED_TIME_STEP w))) - n)%nat
          with (S (snd (fst (subSteps stepPhysics fuel (acc - FIXED_TIME_STEP)
                               (S n) (stepPhysics FIXED_TIME_STEP w))) - S n))%nat
          by lia.
        simpl. apply iter_step_shift.
      * intros Hn. apply Hexit. lia.
    + simpl. repeat split; try lia.
      * now rewrite Nat.sub_diag.
      * intros _. exact Hc.
Qed.

(** Fuel beyond the bound changes nothing: the loop of the source, which
    has no fuel, is [subSteps maxSteps]. *)
Lemma subSteps_fuel (extra : nat) : forall (fuel : nat) (acc : Q) (n : nat) (w : World),
  (maxSteps <= n + fuel)%nat ->
  subSteps stepPhysics (fuel + extra) acc n w = subSteps stepPhysics fuel acc n w.
Proof.
  intros fuel. induction fuel as [| fuel IH]; intros acc n w Hn.
  - simpl. destruct extra as [| extra]; [reflexivity |].
    simpl. replace (n <? maxSteps)%nat with false.
    + now rewrite andb_false_r.
    + symmetry. apply Nat.ltb_ge. lia.
  - simpl.
    destruct (Qle_bool FIXED_TIME_STEP acc && (n <? maxSteps)%nat);
      [| reflexivity].
    apply IH. lia.
Qed.

(** In the idle state a call does nothing. *)
Lemma updatePhysics_idle (deltaTime : Q) (e : Engine World) :
  isRunning e = false ->
  updatePhysics stepPhysics deltaTime e = mkOutcome e 0 false.
Proof. intros Hidle. unfold updatePhysics. rewrite Hidle. reflexivity. Qed.

(** C3: a call of [updatePhysics] in the running state executes at most
    [maxSteps] = 10 fixed sub-steps (the world after the call is the world
    before it, stepped as many times as counted), and after an overload
    (ten sub-steps done, the accumulator still above the fixed step) the
    accumulator is exactly zero when the call returns. *)
Theorem updatePhysics_bounded_and_drained (deltaTime : Q) (e : Engine World) :
  isRunning e = true ->
  let o := updatePhysics stepPhysics deltaTime e in
  (steps o <= maxSteps)%nat
  /\ maxSteps = 10%nat
  /\ world (engine o)
     = Nat.iter (steps o) (stepPhysics FIXED_TIME_STEP) (world e)
  /\ (overloaded stepPhysics deltaTime e ->
      accumulator (engine o) = 0 /\ drained o = true).
Proof.
  intros Hrun. cbv zeta. unfold updatePhysics, overloaded. rewrite Hrun.
  simpl negb. cbv iota zeta.
  pose proof (subSteps_spec maxSteps
                (accumulator e + Qmin deltaTime maxDeltaTime * timeScale e)
                0 (world e)) as Hs.
  cbv zeta in Hs.
  destruct (subSteps stepPhysics maxSteps
              (accumulator e + Qmin deltaTime maxDeltaTime * timeScale e)
              0 (world e)) as [[acc1 n1] w1].
  simpl in Hs. destruct Hs as ([_ Hhi] & Hw & _).
  rewrite Nat.sub_0_r in Hw.
  destruct ((maxSteps <=? n1)%nat && Qgt_bool acc1 FIXED_TIME_STEP) eqn:Hov;
    simpl.
  - split; [assumption | split; [reflexivity | split; [assumption |]]].
    intros _. split; reflexivity.
  - split; [assumption | split; [reflexivity | split; [assumption |]]].
    intros [Hn Hacc]. exfalso.
    apply andb_false_iff in Hov. destruct Hov as [Hov | Hov].
    + apply Nat.leb_gt in Hov. lia.
    + unfold Qgt_bool in Hov. apply negb_false_iff in Hov.
      apply Qle_bool_iff in Hov. apply (Qlt_not_le _ _ Hacc). exact Hov.
Qed.

End StepperFacts.

(** A frame of one second at time scale 1, on a world that counts its
    steps: ten sub-steps are run and the accumulator is drained. *)
Lemma updatePhysics_bounded_and_drained_witness :
  let o := Engine.updatePhysics (fun _ n => S n) 1
             (Engine.mkEngine true 0 1 0%nat []) in
  (Engine.steps o <= Engine.maxSteps)%nat
  /\ Engine.maxSteps = 10%nat
  /\ Engine.world (Engine.engine o)
     = Nat.iter (Engine.steps o) (fun n => S n) 0%nat
  /\ (Engine.overloaded (fun _ n => S n) 1 (Engine.mkEngine true 0 1 0%nat []) ->
      Engine.accumulator (Engine.engine o) = 0%Q /\ Engine.drained o = true).
Proof.
  apply (@updatePhysics_bounded_and_drained nat (fun _ n => S n) 1
           (Engine.mkEngine true 0 1 0%nat [])).
  reflexivity.
Defined.

(** The same frame, run: ten sub-steps, an overload, a drained
    accumulator and one warning. *)
Example updatePhysics_one_second :
  let o := Engine.updatePhysics (fun _ n => S n) 1
             (Engine.mkEngine true 0 1 0%nat []) in
  Engine.steps o = 10%nat
  /\ Engine.world (Engine.engine o) = 10%nat
  /\ Engine.accumulator (Engine.engine o) = 0%Q
  /\ Engine.drained o = true
  /\ Engine.warnings (Engine.engine o)
     = ["Physics system overloaded, draining accumulator"%string]
  /\ Engine.overloaded (fun _ n => S n) 1 (Engine.mkEngine true 0 1 0%nat []).
Proof. vm_compute. repeat split. apply le_n. Qed.

(** A frame of 1/60 s: two sub-steps, nothing drained. *)
Example updatePhysics_one_frame :
  let o := Engine.updatePhysics (fun _ n => S n) (1 # 60)
             (Engine.mkEngine true 0 1 0%nat []) in
  Engine.steps o = 2%nat /\ Engine.drained o = false
  /\ (Engine.accumulator (Engine.engine o) == 0)%Q.
Proof. vm_compute. repeat split. Qed.

(** ** Aerodynamics: the lift curve *)

Section LiftFacts.
Import Engine.
Local Open Scope R_scope.

(** The argument of the sine of the lift curve is linear in the angle of
    attack: a quarter turn per [optimalAoA]. *)
Lemma lift_argument (a : R) :
  2 * a * (PI / 4) / optimalAoA = a * (PI / 0.52).
Proof. unfold optimalAoA. decimals. field. Qed.

Lemma quarter_turn_pos : 0 < PI / 0.52.
Proof. pose proof PI_RGT_0. apply Rdiv_lt_0_compat; lra. Qed.

Lemma stallAngle_below_PI2 : stallAngle < PI / 2.
Proof. pose proof PI2_1. unfold stallAngle, optimalAoA. lra. Qed.

(** From the stall threshold to a right angle the stall factor falls
    linearly from 1 to 0. *)
Lemma stallFactor_linear (a : R) :
  stallAngle <= a <= PI / 2 ->
  stallFactor a = (PI / 2 - a) / (PI / 2 - stallAngle).
Proof.
  intros [Hlo Hhi]. pose proof stallAngle_below_PI2 as Hs.
  unfold stallFactor. fold stallAngle.
  assert (Hr : (a - stallAngle) / (PI / 2 - stallAngle) <= 1).
  { apply Rmult_le_reg_r with (PI / 2 - stallAngle); [lra |].
    unfold Rdiv at 1. rewrite Rmult_assoc, Rinv_l; lra. }
  rewrite Rmin_right by exact Hr. field. lra.
Qed.

Lemma stallFactor_range (a : R) :
  stallAngle < a -> 0 <= stallFactor a <= 1.
Proof.
  intros Hlo. pose proof stallAngle_below_PI2 as Hs.
  unfold stallFactor. fold stallAngle.
  assert (0 < (a - stallAngle) / (PI / 2 - stallAngle))
    by (apply Rdiv_lt_0_compat; lra).
  pose proof (Rmin_l 1 ((a - stallAngle) / (PI / 2 - stallAngle))).
  assert (0 <= Rmin 1 ((a - stallAngle) / (PI / 2 - stallAngle)))
    by (apply Rmin_glb; lra).
  lra.
Qed.

(** From the stall threshold on, the lift coefficient is the sinusoid times
    the stall factor (which is 1 at the threshold itself). *)
Lemma liftCoefficient_stalled (a : R) :
  stallAngle <= a ->
  liftCoefficient a = maxLiftCoef * sin (a * (PI / 0.52)) * stallFactor a.
Proof.
  intros Hlo. unfold liftCoefficient. rewrite lift_argument. fold stallAngle.
  destruct (Rlt_dec stallAngle a) as [Hlt | Hge].
  - reflexivity.
  - assert (a = stallAngle) by lra. subst a.
    unfold stallFactor. fold stallAngle.
    replace ((stallAngle - stallAngle) / (PI / 2 - stallAngle)) with 0
      by (unfold Rdiv; ring).
    rewrite Rmin_right by lra. ring.
Qed.

Lemma liftCoefficient_bounded (a : R) :
  - maxLiftCoef <= liftCoefficient a <= maxLiftCoef.
Proof.
  unfold liftCoefficient. rewrite lift_argument. fold stallAngle.
  pose proof (SIN_bound (a * (PI / 0.52))) as [Hs1 Hs2].
  unfold maxLiftCoef.
  destruct (Rlt_dec stallAngle a) as [Hlt | Hge].
  - pose proof (stallFactor_range Hlt) as Hf. unfold stallFactor in Hf.
    fold stallAngle in Hf.
    set (f := 1 - Rmin 1 ((a - stallAngle) / (PI / 2 - stallAngle))) in *.
    set (s := sin (a * (PI / 0.52))) in *.
    nra.
  - lra.
Qed.

Lemma liftCoefficient_at_0 : liftCoefficient 0 = 0.
Proof.
  unfold liftCoefficient. rewrite lift_argument.
  destruct (Rlt_dec (optimalAoA * 1.3) 0) as [H | H].
  - unfold optimalAoA in H. lra.
  - rewrite Rmult_0_l, sin_0. ring.
Qed.

Lemma liftCoefficient_at_PI2 : liftCoefficient (PI / 2) = 0.
Proof.
  pose proof stallAngle_below_PI2 as Hs.
  rewrite liftCoefficient_stalled by lra.
  rewrite stallFactor_linear by lra.
  unfold Rdiv at 3. replace (PI / 2 - PI / 2) with 0 by ring. ring.
Qed.

Lemma liftCoefficient_at_optimum : liftCoefficient optimalAoA = maxLiftCoef.
Proof.
  unfold liftCoefficient. rewrite lift_argument.
  destruct (Rlt_dec (optimalAoA * 1.3) optimalAoA) as [H | H].
  - unfold optimalAoA in H. lra.
  - replace (optimalAoA * (PI / 0.52)) with (PI / 2)
      by (unfold optimalAoA; decimals; field).
    rewrite sin_PI2. ring.
Qed.

(** Between the stall threshold and twice the optimal angle the sinusoid is
    on its falling, non-negative quarter, and the lift strictly falls. *)
Lemma liftCoefficient_falls (a b : R) :
  stallAngle <= a -> a < b -> b <= 2 * optimalAoA ->
  liftCoefficient b < liftCoefficient a.
Proof.
  intros Ha Hab Hb.
  pose proof quarter_turn_pos as Hk. pose proof PI_RGT_0 as Hpi.
  pose proof PI2_1 as Hp1.
  assert (Hsa : stallAngle = 0.338) by (unfold stallAngle, optimalAoA; lra).
  assert (Hopt : optimalAoA = 0.26) by reflexivity.
  rewrite !liftCoefficient_stalled by lra.
  rewrite !stallFactor_linear by lra.
  assert (Hhalf : PI / 2 = 0.26 * (PI / 0.52)) by (decimals; field).
  assert (Hfull : PI = 0.52 * (PI / 0.52)) by (decimals; field).
  set (k := PI / 0.52) in *.
  assert (Hsin : sin (b * k) < sin (a * k)).
  { apply sin_decreasing_1; nra. }
  assert (Hpos : 0 <= sin (b * k)).
  { apply sin_ge_0; nra. }
  assert (Hden : 0 < / (PI / 2 - stallAngle)).
  { apply Rinv_0_lt_compat. lra. }
  set (P := PI / 2) in *.
  unfold Rdiv. unfold maxLiftCoef.
  set (d := / (P - stallAngle)) in *.
  set (sa := sin (a * k)) in *. set (sb := sin (b * k)) in *.
  assert (H1 : (P - b) * d < (P - a) * d) by nra.
  assert (H2 : 0 < (P - b) * d) by (apply Rmult_lt_0_compat; lra).
  assert (sb * ((P - b) * d) < sa * ((P - a) * d)) by nra.
  lra.
Qed.

(** Up to the stall threshold the lift coefficient is the sinusoid alone. *)
Lemma liftCoefficient_unstalled (a : R) :
  a <= stallAngle ->
  liftCoefficient a = maxLiftCoef * sin (2 * a * (PI / 4) / optimalAoA).
Proof.
  intros Ha. unfold liftCoefficient. fold stallAngle.
  destruct (Rlt_dec stallAngle a) as [Hlt | _]; [lra | reflexivity].
Qed.

(** From a right angle on the stall factor is zero, and so is the lift. *)
Lemma liftCoefficient_beyond_PI2 (a : R) :
  PI / 2 <= a -> liftCoefficient a = 0.
Proof.
  intros Ha. pose proof stallAngle_below_PI2 as Hs.
  rewrite liftCoefficient_stalled by lra.
  unfold stallFactor. fold stallAngle.
  assert (Hr : 1 <= (a - stallAngle) / (PI / 2 - stallAngle)).
  { apply Rmult_le_reg_r with (PI / 2 - stallAngle); [lra |].
    replace ((a - stallAngle) / (PI / 2 - stallAngle) * (PI / 2 - stallAngle))
      with (a - stallAngle) by (field; lra).
    lra. }
  rewrite Rmin_left by exact Hr. ring.
Qed.

(** C6, as the code has it.  The lift coefficient is zero at an angle of
    attack of 0 and of pi/2, equals [maxLiftCoef] = 1.2 at [optimalAoA] =
    0.26 and never exceeds it in magnitude.  Up to the stall threshold
    [1.3 * optimalAoA] it is the sinusoid
    [maxLiftCoef * sin(2 * AoA * (pi/4) / optimalAoA)]; from the threshold
    to pi/2 it is that sinusoid times the stall factor
    [(pi/2 - AoA) / (pi/2 - 1.3 * optimalAoA)], which falls linearly from 1
    to 0 and bounds its magnitude; from pi/2 on it is zero.  It strictly
    decreases from the threshold up to [2 * optimalAoA], where the sinusoid
    reaches zero. *)
Theorem liftCoefficient_curve :
  liftCoefficient 0 = 0
  /\ liftCoefficient (PI / 2) = 0
  /\ liftCoefficient optimalAoA = maxLiftCoef
  /\ maxLiftCoef = 1.2 /\ optimalAoA = 0.26 /\ stallAngle = 1.3 * optimalAoA
  /\ (forall a, - maxLiftCoef <= liftCoefficient a <= maxLiftCoef)
  /\ (forall a, stallAngle <= a <= PI / 2 ->
        stallFactor a = (PI / 2 - a) / (PI / 2 - stallAngle)
        /\ Rabs (liftCoefficient a) <= maxLiftCoef * stallFactor a)
  /\ (forall a b, stallAngle <= a -> a < b -> b <= 2 * optimalAoA ->
        liftCoefficient b < liftCoefficient a)
  /\ (forall a, a <= stallAngle ->
        liftCoefficient a
        = maxLiftCoef * sin (2 * a * (PI / 4) / optimalAoA))
  /\ (forall a, stallAngle <= a <= PI / 2 ->
        liftCoefficient a
        = maxLiftCoef * sin (2 * a * (PI / 4) / optimalAoA)
          * ((PI / 2 - a) / (PI / 2 - stallAngle)))
  /\ (forall a, PI / 2 <= a -> liftCoefficient a = 0).
Proof.
  split; [apply liftCoefficient_at_0 |].
  split; [apply liftCoefficient_at_PI2 |].
  split; [apply liftCoefficient_at_optimum |].
  split; [reflexivity |]. split; [reflexivity |].
  split; [unfold stallAngle; ring |].
  split; [apply liftCoefficient_bounded |].
  split; [| split; [apply liftCoefficient_falls |
            split; [apply liftCoefficient_unstalled |
            split; [| apply liftCoefficient_beyond_PI2]]]].
  - intros a [Hlo Hhi]. split; [apply stallFactor_linear; lra |].
    rewrite liftCoefficient_stalled by exact Hlo.
    assert (Hf : 0 <= stallFactor a).
    { rewrite stallFactor_linear by lra. pose proof stallAngle_below_PI2.
      apply Rmult_le_pos; [lra |]. left. apply Rinv_0_lt_compat. lra. }
    pose proof (SIN_bound (a * (PI / 0.52))) as [Hs1 Hs2].
    unfold maxLiftCoef. apply Rabs_le.
    set (f := stallFactor a) in *. set (s := sin (a * (PI / 0.52))) in *.
    split; nra.
  - intros a [Hlo Hhi].
    rewrite liftCoefficient_stalled by exact Hlo.
    rewrite stallFactor_linear by lra.
    rewrite lift_argument. reflexivity.
Qed.

Lemma liftCoefficient_curve_witness :
  stallFactor 1 = (PI / 2 - 1) / (PI / 2 - stallAngle)
  /\ Rabs (liftCoefficient 1) <= maxLiftCoef * stallFactor 1
  /\ liftCoefficient 0.5 < liftCoefficient 0.4
  /\ liftCoefficient 1
     = maxLiftCoef * sin (2 * 1 * (PI / 4) / optimalAoA)
       * ((PI / 2 - 1) / (PI / 2 - stallAngle)).
Proof.
  destruct liftCoefficient_curve
    as (_ & _ & _ & _ & _ & _ & _ & Henv & Hfall & _ & Hclosed & _).
  pose proof PI2_1 as Hp.
  split; [| split; [| split]].
  - apply (Henv 1). unfold stallAngle, optimalAoA. lra.
  - apply (Henv 1). unfold stallAngle, optimalAoA. lra.
  - apply (Hfall 0.4 0.5); unfold stallAngle, optimalAoA; lra.
  - apply (Hclosed 1). unfold stallAngle, optimalAoA. lra.
Defined.

(** C6 as stated fails: beyond the stall threshold the lift coefficient is
    not monotonically decreasing.  At 0.78 rad the sinusoid is at -1 and the
    lift coefficient is negative; at 1.04 rad, still below pi/2, it is back
    at zero. *)
Lemma liftCoefficient_rises_in_stall :
  stallAngle < 0.78 /\ 0.78 < 1.04 /\ 1.04 < PI / 2
  /\ liftCoefficient 0.78 < 0
  /\ liftCoefficient 1.04 = 0
  /\ liftCoefficient 0.78 < liftCoefficient 1.04.
Proof.
  pose proof PI2_3_2 as Hp. pose proof stallAngle_below_PI2 as Hs.
  assert (Hsa : stallAngle = 0.338) by (unfold stallAngle, optimalAoA; lra).
  assert (H78 : liftCoefficient 0.78 < 0).
  { rewrite liftCoefficient_stalled by lra.
    rewrite stallFactor_linear by lra.
    replace (0.78 * (PI / 0.52)) with (3 * (PI / 2)) by (decimals; field).
    rewrite sin_3PI2. unfold maxLiftCoef.
    assert (0 < (PI / 2 - 0.78) / (PI / 2 - stallAngle))
      by (apply Rdiv_lt_0_compat; lra).
    lra. }
  assert (H104 : liftCoefficient 1.04 = 0).
  { rewrite liftCoefficient_stalled by lra.
    replace (1.04 * (PI / 0.52)) with (2 * PI) by (decimals; field).
    rewrite sin_2PI. ring. }
  repeat split; lra.
Qed.

End LiftFacts.

(** ** Tether forces: the force limit and the damping *)

Section ForceFacts.
Import Tether.
Local Open Scope R_scope.

Lemma sqrt_400 : sqrt (maxForce * maxForce) = maxForce.
Proof. apply sqrt_square. unfold maxForce. lra. Qed.

(** The limit does what its name says: the limited force is never longer
    than [maxForce]. *)
Lemma limitForce_bounded (F : vec R) : magnitude (limitForce F) <= maxForce.
Proof.
  destruct F as [fx fy fz]. unfold limitForce, magnitude.
  simpl Vec.x; simpl Vec.y; simpl Vec.z. cbv zeta.
  set (q := fx * fx + fy * fy + fz * fz).
  assert (Hq : 0 <= q) by (unfold q; nra).
  destruct (Rlt_dec (maxForce * maxForce) q) as [Hbig | Hsmall].
  - simpl Vec.x; simpl Vec.y; simpl Vec.z.
    assert (Hq0 : 0 < q) by (unfold maxForce in Hbig; lra).
    pose proof (sqrt_lt_R0 q Hq0) as Hs.
    pose proof (sqrt_sqrt q Hq) as Hss.
    right. etransitivity; [| apply sqrt_400]. f_equal.
    replace (fx * (maxForce / sqrt q) * (fx * (maxForce / sqrt q))
             + fy * (maxForce / sqrt q) * (fy * (maxForce / sqrt q))
             + fz * (maxForce / sqrt q) * (fz * (maxForce / sqrt q)))
      with (q * ((maxForce / sqrt q) * (maxForce / sqrt q)))
      by (unfold q; ring).
    replace (maxForce / sqrt q * (maxForce / sqrt q))
      with (maxForce * maxForce / (sqrt q * sqrt q))
      by (field; lra).
    rewrite Hss. field. lra.
  - simpl Vec.x; simpl Vec.y; simpl Vec.z. fold q.
    rewrite <- sqrt_400. apply sqrt_le_1_alt. lra.
Qed.

(** Along the z axis, a pull of more than [maxForce] is cut to [maxForce]. *)
Lemma limitForce_axis (fz : R) :
  fz < - maxForce -> limitForce (Vec.mk 0 0 fz) = Vec.mk 0 0 (- maxForce).
Proof.
  intros Hfz. unfold limitForce. simpl Vec.x; simpl Vec.y; simpl Vec.z.
  cbv zeta. unfold maxForce in *.
  replace (0 * 0 + 0 * 0 + fz * fz) with ((- fz) * (- fz)) by ring.
  destruct (Rlt_dec (20.0 * 20.0) (- fz * - fz)) as [_ | Hn]; [| nra].
  rewrite sqrt_square by lra.
  f_equal; field; lra.
Qed.

(** The damping is subtracted after the limit. *)
Lemma getTetherForces_damped (kite : KiteProperties R) (c : TetherConfig) :
  Vec.mk (Vec.x (getTetherForces kite c) + Vec.x (velocity kite) * 0.8)
         (Vec.y (getTetherForces kite c) + Vec.y (velocity kite) * 0.8)
         (Vec.z (getTetherForces kite c) + Vec.z (velocity kite) * 0.8)
  = limitForce (lineForce kite c).
Proof.
  unfold getTetherForces. cbv zeta.
  destruct (limitForce (lineForce kite c)) as [lx ly lz].
  simpl Vec.x; simpl Vec.y; simpl Vec.z. f_equal; ring.
Qed.

(** C7, as the code has it.  The summed line force is limited to
    [maxForce] = 20 and the damping [0.8 * velocity] is subtracted from the
    limited force: the returned force plus the damping has a magnitude of at
    most [maxForce], and so has the returned force of a kite at rest. *)
Theorem getTetherForces_limited_before_damping
    (kite : KiteProperties R) (c : TetherConfig) :
  let F := getTetherForces kite c in
  maxForce = 20
  /\ magnitude (Vec.mk (Vec.x F + Vec.x (velocity kite) * 0.8)
                       (Vec.y F + Vec.y (velocity kite) * 0.8)
                       (Vec.z F + Vec.z (velocity kite) * 0.8)) <= maxForce
  /\ (velocity kite = Vec.mk 0 0 0 -> magnitude F <= maxForce).
Proof.
  cbv zeta. split; [unfold maxForce; lra | split].
  - rewrite getTetherForces_damped. apply limitForce_bounded.
  - intros Hv.
    assert (Hrest : getTetherForces kite c = limitForce (lineForce kite c)).
    { unfold getTetherForces. cbv zeta. rewrite Hv.
      destruct (limitForce (lineForce kite c)) as [lx ly lz].
      simpl Vec.x; simpl Vec.y; simpl Vec.z. f_equal; ring. }
    rewrite Hrest. apply limitForce_bounded.
Qed.

Lemma getTetherForces_limited_before_damping_witness :
  magnitude (getTetherForces Tether.steeredKite Tether.tetherConfig)
  <= Tether.maxForce.
Proof.
  apply (getTetherForces_limited_before_damping
           Tether.steeredKite Tether.tetherConfig).
  reflexivity.
Defined.

End ForceFacts.

(** ** The far kite: the returned force exceeds the limit *)

Section FarKite.
Import Tether.
Local Open Scope R_scope.

Lemma sqrt_of_square (u v : R) : 0 <= v -> u = v * v -> sqrt u = v.
Proof. intros Hv ->. apply sqrt_square. exact Hv. Qed.

Lemma far_tensions :
  leftTension (calculateTetherForces farKite tetherConfig) = 33.6
  /\ rightTension (calculateTetherForces farKite tetherConfig) = 33.6.
Proof.
  unfold calculateTetherForces, calculateDistance, calculateLineTension.
  cbv zeta. simpl.
  rewrite !(@sqrt_of_square _ 535.5) by lra.
  replace (535.5 / (30.0 * (1.0 - 0.5 * 0.3)) - 1) with 20 by lra.
  rewrite (Rmax_right 0 20) by lra.
  rewrite (Rmin_right 1.0) by lra.
  rewrite (Rmax_right 1.0) by lra.
  split; lra.
Qed.

Lemma farReach_bounds : 536 < farReach < 537.
Proof.
  unfold farReach. split.
  - rewrite <- (sqrt_square 536) at 1 by lra. apply sqrt_lt_1_alt. lra.
  - rewrite <- (sqrt_square 537) by lra. apply sqrt_lt_1_alt. lra.
Qed.

Lemma far_directions :
  lineDirection farKite (operatorLeft tetherConfig)
  = Vec.mk (- 0.5 / farReach) (0 / farReach) (- 536 / farReach)
  /\ lineDirection farKite (operatorRight tetherConfig)
     = Vec.mk (0.5 / farReach) (0 / farReach) (- 536 / farReach).
Proof.
  pose proof farReach_bounds as Hr.
  unfold lineDirection. cbv zeta. simpl.
  replace ((0 - 0.5 - (0 + 0)) * (0 - 0.5 - (0 + 0))
           + (0 + 1.0 - (1 + 0)) * (0 + 1.0 - (1 + 0))
           + (-10 - (525.5 + 0.5)) * (-10 - (525.5 + 0.5)))
    with (0.25 + 536 * 536) by lra.
  replace ((0 + 0.5 - (0 + 0)) * (0 + 0.5 - (0 + 0))
           + (0 + 1.0 - (1 + 0)) * (0 + 1.0 - (1 + 0))
           + (-10 - (525.5 + 0.5)) * (-10 - (525.5 + 0.5)))
    with (0.25 + 536 * 536) by lra.
  fold farReach.
  destruct (Rlt_dec 0.0001 farReach) as [_ | Hn]; [| lra].
  replace (0 - 0.5 - (0 + 0)) with (- 0.5) by lra.
  replace (0 + 0.5 - (0 + 0)) with 0.5 by lra.
  replace (0 + 1.0 - (1 + 0)) with 0 by lra.
  replace (-10 - (525.5 + 0.5)) with (- 536) by lra.
  split; reflexivity.
Qed.

(** The scaled tension of each line of the far kite. *)
Lemma far_scaled_tension : 25 < scaleTension 33.6.
Proof.
  unfold scaleTension, Math_pow.
  destruct (Rlt_dec 0 33.6) as [_ | Hn]; [| lra].
  assert (H5 : 5 < sqrt 33.6).
  { rewrite <- (sqrt_square 5) at 1 by lra. apply sqrt_lt_1_alt. lra. }
  assert (Hp : Rpower 33.6 (/ 2) < Rpower 33.6 0.8)
    by (apply Rpower_lt; lra).
  rewrite Rpower_sqrt in Hp by lra. lra.
Qed.

Lemma far_lineForce :
  exists fz, lineForce farKite tetherConfig = Vec.mk 0 0 fz /\ fz < - maxForce.
Proof.
  pose proof farReach_bounds as Hr. pose proof far_scaled_tension as HT.
  destruct far_tensions as [Hl Hrt]. destruct far_directions as [Hdl Hdr].
  exists (- (1072 * scaleTension 33.6 / farReach)). split.
  - unfold lineForce. cbv zeta. rewrite Hl, Hrt, Hdl, Hdr.
    simpl Vec.x; simpl Vec.y; simpl Vec.z.
    f_equal; decimals; field; lra.
  - unfold maxForce.
    assert (Hi : 0 < / farReach) by (apply Rinv_0_lt_compat; lra).
    assert (Hone : farReach * / farReach = 1) by (apply Rinv_r; lra).
    unfold Rdiv. set (T := scaleTension 33.6) in *. set (i := / farReach) in *.
    assert (0 < (1072 * T - 20 * farReach) * i)
      by (apply Rmult_lt_0_compat; lra).
    nra.
Qed.

(** C7 as stated fails: for the far kite the summed line force is cut to
    20 N towards the operator and the damping adds 0.8 * 5 = 4 N in the same
    direction, so the returned force has magnitude 24 > [maxForce]. *)
Lemma getTetherForces_exceeds_maxForce :
  getTetherForces farKite tetherConfig = Vec.mk 0 0 (- 24)
  /\ magnitude (getTetherForces farKite tetherConfig) = 24
  /\ maxForce < magnitude (getTetherForces farKite tetherConfig).
Proof.
  destruct far_lineForce as (fz & Hline & Hfz).
  assert (Hg : getTetherForces farKite tetherConfig = Vec.mk 0 0 (- 24)).
  { unfold getTetherForces. cbv zeta. rewrite Hline, (limitForce_axis Hfz).
    simpl. unfold maxForce. f_equal; lra. }
  assert (Hm : magnitude (getTetherForces farKite tetherConfig) = 24).
  { rewrite Hg. unfold magnitude. simpl. apply sqrt_of_square; lra. }
  split; [exact Hg | split; [exact Hm |]].
  rewrite Hm. unfold maxForce. lra.
Qed.

End FarKite.

(** ** Steering torque *)

Section TorqueFacts.
Import Tether Engine.
Local Open Scope R_scope.

(** The two tensions of [calculateAndApplyTorque] are the same number, so
    their difference and the differential term vanish for every kite and
    every configuration. *)
Lemma tensionDifference_zero (kite : KiteProperties R) (c : TetherConfig) :
  torqueLeftTension (calculateAndApplyTorque kite c)
  = Vec.x (getTetherForces kite c) * 0.5
  /\ torqueRightTension (calculateAndApplyTorque kite c)
     = Vec.x (getTetherForces kite c) * 0.5
  /\ tensionDifference (calculateAndApplyTorque kite c) = 0
  /\ differentialTorque (calculateAndApplyTorque kite c) = 0.
Proof.
  unfold calculateAndApplyTorque.
  lazy [torqueLeftTension torqueRightTension tensionDifference
        differentialTorque Vec.x Vec.y Vec.z].
  repeat split; ring.
Qed.

(** The yaw torque handed to [applyTorque]: the arm torque, the stabilizing
    and the damping term, scaled; the differential term adds nothing. *)
Lemma yaw_torque (kite : KiteProperties R) (c : TetherConfig) :
  Vec.y (torque (calculateAndApplyTorque kite c))
  = (Vec.y (armTorque (calculateAndApplyTorque kite c))
     - sin (Vec.y (rotation kite)) * 0.01
     - Vec.y (angularVelocity kite) * 0.15) * 0.3.
Proof.
  unfold calculateAndApplyTorque.
  lazy [torque armTorque Vec.x Vec.y Vec.z].
  ring.
Qed.

(** With the kite, its bridle connection and the operator on the plane
    x = 0, the unit vectors to the two hands mirror each other; the two
    "tensions" being equal, the force at the bridle connection has no x
    component. *)
Lemma torqueForce_centered (kite : KiteProperties R) (c : TetherConfig) :
  Vec.x (position kite) = 0 -> Vec.x (bridleConnectionPoint kite) = 0 ->
  Vec.x (operatorPosition c) = 0 ->
  Vec.x (torqueForce kite c) = 0.
Proof.
  intros Hp Hb Ho.
  unfold torqueForce, torqueDirection.
  generalize (getTetherForces kite c). intros tf.
  cbn [Vec.x Vec.y Vec.z Tether.bridleConnection
       Tether.operatorLeft Tether.operatorRight].
  rewrite Hp, Hb, Ho.
  set (dy := Vec.y (operatorPosition c) + 1.0
             - (Vec.y (position kite) + Vec.y (bridleConnectionPoint kite))).
  set (dz := Vec.z (operatorPosition c)
             - (Vec.z (position kite) + Vec.z (bridleConnectionPoint kite))).
  replace ((0 - 0.5 - (0 + 0)) * (0 - 0.5 - (0 + 0)) + dy * dy + dz * dz)
    with (0.25 + dy * dy + dz * dz) by lra.
  replace ((0 + 0.5 - (0 + 0)) * (0 + 0.5 - (0 + 0)) + dy * dy + dz * dz)
    with (0.25 + dy * dy + dz * dz) by lra.
  set (m := sqrt (0.25 + dy * dy + dz * dz)).
  destruct (Rlt_dec 0.0001 m) as [Hm | Hm]; cbn [Vec.x Vec.y Vec.z].
  - assert (m <> 0) by lra. decimals. field. assumption.
  - ring.
Qed.

(** So the arm torque about the yaw axis is zero, whatever the inputs. *)
Lemma yaw_arm_torque_centered (kite : KiteProperties R) (c : TetherConfig) :
  Vec.x (position kite) = 0 -> Vec.x (bridleConnectionPoint kite) = 0 ->
  Vec.x (operatorPosition c) = 0 ->
  Vec.y (armTorque (calculateAndApplyTorque kite c)) = 0.
Proof.
  intros Hp Hb Ho.
  unfold calculateAndApplyTorque. cbn [armTorque Vec.x Vec.y Vec.z].
  rewrite (torqueForce_centered kite c Hp Hb Ho), Hb. ring.
Qed.

(** What is left of the yaw torque for such a kite: stabilization and
    damping; the control inputs do not enter. *)
Lemma yaw_torque_centered (kite : KiteProperties R) (c : TetherConfig) :
  Vec.x (position kite) = 0 -> Vec.x (bridleConnectionPoint kite) = 0 ->
  Vec.x (operatorPosition c) = 0 ->
  Vec.y (torque (calculateAndApplyTorque kite c))
  = (- sin (Vec.y (rotation kite)) * 0.01
     - Vec.y (angularVelocity kite) * 0.15) * 0.3.
Proof.
  intros Hp Hb Ho. rewrite yaw_torque, yaw_arm_torque_centered by assumption.
  ring.
Qed.

Lemma steerRight_inputs :
  leftInput steerRight = 0 /\ rightInput steerRight = 1
  /\ leftLineLength steerRight = 30 /\ rightLineLength steerRight = 30.
Proof.
  unfold steerRight. simpl.
  rewrite (Rmin_right 1 0), (Rmax_left 0 0) by lra.
  rewrite (Rmin_left 1 1), (Rmax_right 0 1) by lra.
  repeat split; lra.
Qed.

Lemma steered_tensions :
  leftTension (calculateTetherForces steeredKite steerRight)
  < rightTension (calculateTetherForces steeredKite steerRight).
Proof.
  unfold calculateTetherForces, calculateDistance, calculateLineTension.
  cbv zeta. simpl.
  rewrite (Rmin_right 1 0), (Rmax_left 0 0) by lra.
  rewrite (Rmin_left 1 1), (Rmax_right 0 1) by lra.
  rewrite !(@sqrt_of_square _ 40) by lra.
  replace (40 / (30.0 * (1.0 - 0 * 0.3)) - 1) with (1 / 3) by lra.
  replace (40 / (30.0 * (1.0 - 1 * 0.3)) - 1) with (19 / 21) by lra.
  rewrite (Rmax_right 0 (1 / 3)), (Rmax_right 0 (19 / 21)) by lra.
  rewrite (Rmin_right 1.0) by lra.
  rewrite (Rmax_right 1.0) by lra.
  lra.
Qed.

(** C1, evaluated.  The differential term of the steering torque is zero
    for every kite and every configuration, because both "tensions" of
    [calculateAndApplyTorque] are half the x component of the net tether
    force.  At the kite 40 m in front of the operator with the right line
    pulled in fully and the left line released, the right line is the
    tighter one ([calculateTetherForces]), and yet the differential term and
    the whole yaw torque are zero. *)
Theorem differential_torque_vanishes :
  (forall kite c,
      torqueLeftTension (calculateAndApplyTorque kite c)
      = torqueRightTension (calculateAndApplyTorque kite c)
      /\ tensionDifference (calculateAndApplyTorque kite c) = 0
      /\ differentialTorque (calculateAndApplyTorque kite c) = 0)
  /\ leftInput steerRight < rightInput steerRight
  /\ leftTension (calculateTetherForces steeredKite steerRight)
     < rightTension (calculateTetherForces steeredKite steerRight)
  /\ differentialTorque (calculateAndApplyTorque steeredKite steerRight) = 0
  /\ Vec.y (torque (calculateAndApplyTorque steeredKite steerRight)) = 0.
Proof.
  split; [| split; [| split; [| split]]].
  - intros kite c.
    destruct (tensionDifference_zero kite c) as (Hl & Hr & Hd & Ht).
    rewrite Hl, Hr. repeat split; assumption.
  - destruct steerRight_inputs as (Hl & Hr & _). rewrite Hl, Hr. lra.
  - apply steered_tensions.
  - apply tensionDifference_zero.
  - rewrite yaw_torque_centered by reflexivity.
    simpl. rewrite sin_0. ring.
Qed.

End TorqueFacts.

(** ** Tethers: setters, geometry and the slack and symmetric cases *)

Section TetherMore.
Import Tether.
Local Open Scope R_scope.

Lemma clamp_range (lo hi v : R) : lo <= hi -> lo <= Rmax lo (Rmin hi v) <= hi.
Proof.
  intros H. split; [apply Rmax_l |].
  apply Rmax_lub; [exact H | apply Rmin_l].
Qed.

Lemma clamp_inside (lo hi v : R) : lo <= v <= hi -> Rmax lo (Rmin hi v) = v.
Proof.
  intros [H1 H2]. rewrite Rmin_right by exact H2. apply Rmax_right. exact H1.
Qed.

(** Whatever is handed to the four setters, the line lengths computed next
    stay between 12 m and 54 m, and the effective lengths above 8.4 m. *)
Lemma line_lengths_bounded (a d i j : R) (c : TetherConfig) :
  let c' := updateEffectiveLineLengths
              (setRightInput j (setLeftInput i
                 (setDifferentialLineLength d (setOverallLineLength a c)))) in
  12 <= leftLineLength c' <= 54
  /\ 12 <= rightLineLength c' <= 54
  /\ 8.4 <= effectiveLength (leftLineLength c') (leftInput c')
  /\ 8.4 <= effectiveLength (rightLineLength c') (rightInput c').
Proof.
  cbv zeta. unfold updateEffectiveLineLengths, effectiveLength. simpl.
  pose proof (@clamp_range (-1) 1 a ltac:(lra)) as Ha.
  pose proof (@clamp_range (-1) 1 d ltac:(lra)) as Hd.
  pose proof (@clamp_range 0 1 i ltac:(lra)) as Hi.
  pose proof (@clamp_range 0 1 j ltac:(lra)) as Hj.
  set (A := Rmax (-1) (Rmin 1 a)) in *. set (D := Rmax (-1) (Rmin 1 d)) in *.
  set (I := Rmax 0 (Rmin 1 i)) in *. set (J := Rmax 0 (Rmin 1 j)) in *.
  assert (HL : 12 <= 30.0 * (1.0 + A * 0.5) * (1 - D * 0.2) <= 54) by nra.
  assert (HR : 12 <= 30.0 * (1.0 + A * 0.5) * (1 + D * 0.2) <= 54) by nra.
  set (L := 30.0 * (1.0 + A * 0.5) * (1 - D * 0.2)) in *.
  set (Rr := 30.0 * (1.0 + A * 0.5) * (1 + D * 0.2)) in *.
  repeat split; try lra; nra.
Qed.

(** On a finite number the clamp of JavaScript is the clamp on the reals. *)
Lemma clamp_Fin (lo hi v : R) :
  JSNum.clamp (JSNum.Fin lo) (JSNum.Fin hi) (JSNum.Fin v) = JSNum.Fin (Rmax lo (Rmin hi v)).
Proof.
  unfold JSNum.clamp, JSNum.min, JSNum.max, JSNum.lt.
  destruct (Rlt_dec v hi) as [H1 | H1].
  - rewrite Rmin_right by lra.
    destruct (Rlt_dec lo v) as [H2 | H2].
    + rewrite Rmax_right by lra. reflexivity.
    + rewrite Rmax_left by lra. reflexivity.
  - rewrite Rmin_left by lra.
    destruct (Rlt_dec lo hi) as [H2 | H2].
    + rewrite Rmax_right by lra. reflexivity.
    + rewrite Rmax_left by lra. reflexivity.
Qed.

(** The clamp does not stop a NaN: what it returns is NaN again. *)
Lemma clamp_NaN (lo hi : JSNum.num) : JSNum.clamp lo hi JSNum.NaN = JSNum.NaN.
Proof.
  unfold JSNum.clamp, JSNum.min, JSNum.max. destruct hi; destruct lo; reflexivity.
Qed.

(** An infinite argument is clamped to the bound on its side. *)
Lemma clamp_Inf (lo hi : R) (negative : bool) :
  lo <= hi ->
  JSNum.clamp (JSNum.Fin lo) (JSNum.Fin hi) (JSNum.Inf negative)
  = JSNum.Fin (if negative then lo else hi).
Proof.
  intros H. unfold JSNum.clamp, JSNum.min, JSNum.max, JSNum.lt.
  destruct negative; cbn.
  - reflexivity.
  - destruct (Rlt_dec lo hi) as [H2 | H2]; [reflexivity |].
    f_equal. lra.
Qed.

(** X1: the four setters of the tether configuration clamp a finite
    argument: a line input is stored within [0, 1] and a length adjustment
    within [-1, 1], a value inside the range is stored as given, and a left
    input below 0 or above 1 is stored as 0 or 1.  So, whatever finite
    numbers are handed to the setters, the line lengths that
    [updateEffectiveLineLengths] computes next lie between 12 m and 54 m,
    and the effective length that [calculateLineTension] divides by is at
    least 8.4 m: that division is never by zero.  On JavaScript numbers the
    clamp [Math.max(lo, Math.min(hi, v))] of the source stores just these
    values for a finite argument and the bound on its side for an infinity,
    but it does not stop a NaN: a NaN argument is stored as NaN. *)
Theorem tether_setters_clamp (v : R) (c : TetherConfig) :
  0 <= leftInput (setLeftInput v c) <= 1
  /\ 0 <= rightInput (setRightInput v c) <= 1
  /\ -1 <= overallLengthAdjustment (setOverallLineLength v c) <= 1
  /\ -1 <= differentialLengthAdjustment (setDifferentialLineLength v c) <= 1
  /\ (0 <= v <= 1 ->
      leftInput (setLeftInput v c) = v /\ rightInput (setRightInput v c) = v)
  /\ (-1 <= v <= 1 ->
      overallLengthAdjustment (setOverallLineLength v c) = v
      /\ differentialLengthAdjustment (setDifferentialLineLength v c) = v)
  /\ (v < 0 -> leftInput (setLeftInput v c) = 0)
  /\ (1 < v -> leftInput (setLeftInput v c) = 1)
  /\ (forall a d i j : R,
        let c' := updateEffectiveLineLengths
                    (setRightInput j (setLeftInput i
                       (setDifferentialLineLength d (setOverallLineLength a c)))) in
        12 <= leftLineLength c' <= 54
        /\ 12 <= rightLineLength c' <= 54
        /\ 8.4 <= effectiveLength (leftLineLength c') (leftInput c')
        /\ 8.4 <= effectiveLength (rightLineLength c') (rightInput c'))
  /\ JSNum.clamp (JSNum.Fin 0) (JSNum.Fin 1) (JSNum.Fin v) = JSNum.Fin (leftInput (setLeftInput v c))
  /\ JSNum.clamp (JSNum.Fin 0) (JSNum.Fin 1) (JSNum.Fin v) = JSNum.Fin (rightInput (setRightInput v c))
  /\ JSNum.clamp (JSNum.Fin (-1)) (JSNum.Fin 1) (JSNum.Fin v)
     = JSNum.Fin (overallLengthAdjustment (setOverallLineLength v c))
  /\ JSNum.clamp (JSNum.Fin (-1)) (JSNum.Fin 1) (JSNum.Fin v)
     = JSNum.Fin (differentialLengthAdjustment (setDifferentialLineLength v c))
  /\ JSNum.clamp (JSNum.Fin 0) (JSNum.Fin 1) JSNum.NaN = JSNum.NaN
  /\ JSNum.clamp (JSNum.Fin (-1)) (JSNum.Fin 1) JSNum.NaN = JSNum.NaN
  /\ JSNum.clamp (JSNum.Fin 0) (JSNum.Fin 1) (JSNum.Inf false) = JSNum.Fin 1
  /\ JSNum.clamp (JSNum.Fin 0) (JSNum.Fin 1) (JSNum.Inf true) = JSNum.Fin 0
  /\ JSNum.clamp (JSNum.Fin (-1)) (JSNum.Fin 1) (JSNum.Inf false) = JSNum.Fin 1
  /\ JSNum.clamp (JSNum.Fin (-1)) (JSNum.Fin 1) (JSNum.Inf true) = JSNum.Fin (-1).
Proof.
  split; [apply clamp_range; lra |].
  split; [apply clamp_range; lra |].
  split; [apply clamp_range; lra |].
  split; [apply clamp_range; lra |].
  split; [intros H; split; apply clamp_inside; exact H |].
  split; [intros H; split; apply clamp_inside; exact H |].
  split; [intros H; cbn [setLeftInput leftInput];
          rewrite Rmin_right by lra; apply Rmax_left; lra |].
  split; [intros H; cbn [setLeftInput leftInput];
          rewrite Rmin_left by lra; apply Rmax_right; lra |].
  split; [intros a d i j; apply line_lengths_bounded |].
  split; [apply clamp_Fin |]. split; [apply clamp_Fin |].
  split; [apply clamp_Fin |]. split; [apply clamp_Fin |].
  split; [apply clamp_NaN |]. split; [apply clamp_NaN |].
  split; [apply (@clamp_Inf 0 1 false); lra |].
  split; [apply (@clamp_Inf 0 1 true); lra |].
  split; [apply (@clamp_Inf (-1) 1 false); lra |].
  apply (@clamp_Inf (-1) 1 true); lra.
Qed.

Lemma tether_setters_clamp_witness :
  leftInput (setLeftInput 0.25 tetherConfig) = 0.25
  /\ leftInput (setLeftInput (-3) tetherConfig) = 0
  /\ leftInput (setLeftInput 7 tetherConfig) = 1.
Proof.
  pose proof (@tether_setters_clamp 0.25 tetherConfig) as (_ & _ & _ & _ & H1 & _).
  pose proof (@tether_setters_clamp (-3) tetherConfig) as (_ & _ & _ & _ & _ & _ & H2 & _).
  pose proof (@tether_setters_clamp 7 tetherConfig) as (_ & _ & _ & _ & _ & _ & _ & H3 & _).
  split; [apply H1; lra | split; [apply H2; lra | apply H3; lra]].
Defined.

(** X2: [calculateDistance] is a distance: it is not negative, it does not
    depend on the order of the two points, and it is zero exactly when the
    points are equal. *)
Theorem calculateDistance_metric (p q : vec R) :
  0 <= calculateDistance p q
  /\ calculateDistance p q = calculateDistance q p
  /\ (calculateDistance p q = 0 <-> p = q).
Proof.
  destruct p as [px py pz], q as [qx qy qz]. unfold calculateDistance.
  simpl Vec.x; simpl Vec.y; simpl Vec.z. cbv zeta.
  split; [apply sqrt_pos | split].
  - f_equal. ring.
  - split.
    + intros H.
      pose proof (Rle_0_sqr (qx - px)) as Hx.
      pose proof (Rle_0_sqr (qy - py)) as Hy.
      pose proof (Rle_0_sqr (qz - pz)) as Hz.
      unfold Rsqr in Hx, Hy, Hz.
      apply sqrt_eq_0 in H; [| lra].
      assert (Hx0 : (qx - px) * (qx - px) = 0) by lra.
      assert (Hy0 : (qy - py) * (qy - py) = 0) by lra.
      assert (Hz0 : (qz - pz) * (qz - pz) = 0) by lra.
      apply Rsqr_0_uniq in Hx0, Hy0, Hz0.
      f_equal; lra.
    + intros H. injection H as -> -> ->.
      replace ((qx - qx) * (qx - qx) + (qy - qy) * (qy - qy)
               + (qz - qz) * (qz - qz)) with 0 by ring.
      apply sqrt_0.
Qed.

Lemma scaleTension_0 : scaleTension 0 = 0.
Proof.
  unfold scaleTension, Math_pow.
  destruct (Rlt_dec 0 0) as [H | _]; [lra | ring].
Qed.

(** X3: the force scaling [Math.pow(tension, 0.8) * 5.0] of
    [getTetherForces] is strictly increasing on the tensions, which are not
    negative, and is not negative there. *)
Theorem scaleTension_increasing (t1 t2 : R) :
  0 <= t1 -> t1 < t2 -> 0 <= scaleTension t1 < scaleTension t2.
Proof.
  intros H1 H12. unfold scaleTension, Math_pow.
  destruct (Rlt_dec 0 t2) as [_ | Hn]; [| lra].
  destruct (Rlt_dec 0 t1) as [Hp | Hz].
  - assert (Rpower t1 0.8 < Rpower t2 0.8)
      by (apply Rlt_Rpower_l; lra).
    assert (0 < Rpower t1 0.8) by (unfold Rpower; apply exp_pos).
    lra.
  - assert (0 < Rpower t2 0.8) by (unfold Rpower; apply exp_pos).
    lra.
Qed.

Lemma scaleTension_increasing_witness :
  0 <= scaleTension 0 < scaleTension 1.
Proof. apply (@scaleTension_increasing 0 1); lra. Defined.

Lemma magnitude_unit_of_quotient (x y z : R) :
  0 < sqrt (x * x + y * y + z * z) ->
  magnitude (Vec.mk (x / sqrt (x * x + y * y + z * z))
                    (y / sqrt (x * x + y * y + z * z))
                    (z / sqrt (x * x + y * y + z * z))) = 1.
Proof.
  intros Hm. unfold magnitude. simpl Vec.x; simpl Vec.y; simpl Vec.z.
  assert (Hq : 0 <= x * x + y * y + z * z) by nra.
  pose proof (sqrt_sqrt _ Hq) as Hss.
  set (m := sqrt (x * x + y * y + z * z)) in *.
  replace (x / m * (x / m) + y / m * (y / m) + z / m * (z / m))
    with ((x * x + y * y + z * z) / (m * m)) by (field; lra).
  rewrite <- Hss. replace (m * m / (m * m)) with 1 by (field; lra).
  apply sqrt_1.
Qed.

(** X4: the direction of a line that [getTetherForces] uses has length 1,
    for every kite and every hand position, the fallback (0, 1, 0) included. *)
Theorem lineDirection_unit (kite : KiteProperties R) (hand : vec R) :
  magnitude (lineDirection kite hand) = 1.
Proof.
  unfold lineDirection. cbv zeta. cbn [Vec.x Vec.y Vec.z].
  match goal with |- context [Rlt_dec 0.0001 ?m] =>
    destruct (Rlt_dec 0.0001 m) as [Hm | Hm]
  end.
  - apply magnitude_unit_of_quotient. lra.
  - unfold magnitude. simpl.
    replace (0 * 0 + 1 * 1 + 0 * 0) with 1 by ring. apply sqrt_1.
Qed.

Lemma limitForce_zero : limitForce (Vec.mk 0 0 0) = Vec.mk 0 0 0.
Proof.
  unfold limitForce. simpl Vec.x; simpl Vec.y; simpl Vec.z. cbv zeta.
  destruct (Rlt_dec _ _) as [H | _]; [| reflexivity].
  unfold maxForce in H. lra.
Qed.

(** The tensions of [calculateTetherForces] are the line tensions times the
    ground proximity factor. *)
Lemma tensions_scaled (kite : KiteProperties R) (c : TetherConfig) :
  let g := Rmax 1.0 (2.0 * (1.0 - Rmin 1.0 (Vec.y (bridleConnection kite) / 5.0))) in
  leftTension (calculateTetherForces kite c)
  = calculateLineTension c (leftDistance (calculateTetherForces kite c))
      (leftLineLength c) (leftInput c) * g
  /\ rightTension (calculateTetherForces kite c)
     = calculateLineTension c (rightDistance (calculateTetherForces kite c))
         (rightLineLength c) (rightInput c) * g.
Proof. split; reflexivity. Qed.

(** X5: both tensions of [calculateTetherForces] are the tension of the
    line times one ground proximity factor.  The factor is at least 1; it is
    1 when the bridle connection is 2.5 m or more above the ground,
    [2 - 0.4 * height] below that, and at most 2 as long as the height is
    not negative. *)
Theorem ground_proximity_scaling (kite : KiteProperties R) (c : TetherConfig) :
  0 < effectiveLength (leftLineLength c) (leftInput c) ->
  0 < effectiveLength (rightLineLength c) (rightInput c) ->
  exists g,
    leftTension (calculateTetherForces kite c)
    = calculateLineTension c (leftDistance (calculateTetherForces kite c))
        (leftLineLength c) (leftInput c) * g
    /\ rightTension (calculateTetherForces kite c)
       = calculateLineTension c (rightDistance (calculateTetherForces kite c))
           (rightLineLength c) (rightInput c) * g
    /\ 1 <= g
    /\ (2.5 <= Vec.y (bridleConnection kite) -> g = 1)
    /\ (Vec.y (bridleConnection kite) <= 2.5 ->
        g = 2 - 0.4 * Vec.y (bridleConnection kite))
    /\ (0 <= Vec.y (bridleConnection kite) -> g <= 2).
Proof.
  intros _ _.
  exists (Rmax 1.0 (2.0 * (1.0 - Rmin 1.0 (Vec.y (bridleConnection kite) / 5.0)))).
  set (h := Vec.y (bridleConnection kite)).
  split; [reflexivity | split; [reflexivity | split; [| split; [| split]]]].
  - eapply Rle_trans; [| apply Rmax_l]. lra.
  - intros Hh. destruct (Rle_dec 1.0 (h / 5.0)) as [H1 | H1].
    + rewrite Rmin_left by assumption. rewrite Rmax_left by lra. lra.
    + rewrite Rmin_right by lra. rewrite Rmax_left by lra. lra.
  - intros Hh. rewrite Rmin_right by lra. rewrite Rmax_right by lra. lra.
  - intros Hh. destruct (Rle_dec 1.0 (h / 5.0)) as [H1 | H1].
    + rewrite Rmin_left by assumption. rewrite Rmax_left by lra. lra.
    + rewrite Rmin_right by lra. apply Rmax_lub; lra.
Qed.

Lemma ground_proximity_scaling_witness :
  exists g,
    leftTension (calculateTetherForces steeredKite tetherConfig)
    = calculateLineTension tetherConfig
        (leftDistance (calculateTetherForces steeredKite tetherConfig))
        (leftLineLength tetherConfig) (leftInput tetherConfig) * g
    /\ g = 2 - 0.4 * Vec.y (bridleConnection steeredKite).
Proof.
  destruct (@ground_proximity_scaling steeredKite tetherConfig)
    as (g & Hl & _ & _ & _ & Hlow & _).
  - unfold effectiveLength. simpl. lra.
  - unfold effectiveLength. simpl. lra.
  - exists g. split; [exact Hl |]. apply Hlow. simpl. lra.
Defined.

(** X6: with both lines slack (each distance at most the effective length
    of its line) both tensions are zero, and the force that [getTetherForces]
    returns is the damping alone, [-0.8] times the velocity of the kite. *)
Theorem getTetherForces_slack (kite : KiteProperties R) (c : TetherConfig) :
  0 < effectiveLength (leftLineLength c) (leftInput c) ->
  0 < effectiveLength (rightLineLength c) (rightInput c) ->
  leftDistance (calculateTetherForces kite c)
  <= effectiveLength (leftLineLength c) (leftInput c) ->
  rightDistance (calculateTetherForces kite c)
  <= effectiveLength (rightLineLength c) (rightInput c) ->
  leftTension (calculateTetherForces kite c) = 0
  /\ rightTension (calculateTetherForces kite c) = 0
  /\ getTetherForces kite c
     = Vec.mk (0 - Vec.x (velocity kite) * 0.8)
              (0 - Vec.y (velocity kite) * 0.8)
              (0 - Vec.z (velocity kite) * 0.8).
Proof.
  intros HL HR Hl Hr.
  destruct (tensions_scaled kite c) as (Hlt & Hrt).
  assert (Hl0 : leftTension (calculateTetherForces kite c) = 0).
  { rewrite Hlt, calculateLineTension_strain, (strain_slack HL Hl). ring. }
  assert (Hr0 : rightTension (calculateTetherForces kite c) = 0).
  { rewrite Hrt, calculateLineTension_strain, (strain_slack HR Hr). ring. }
  split; [exact Hl0 | split; [exact Hr0 |]].
  assert (Hline : lineForce kite c = Vec.mk 0 0 0).
  { unfold lineForce. cbv zeta. rewrite Hl0, Hr0, scaleTension_0.
    cbn [Vec.x Vec.y Vec.z]. f_equal; ring. }
  unfold getTetherForces. cbv zeta. rewrite Hline, limitForce_zero.
  reflexivity.
Qed.

Lemma getTetherForces_slack_witness :
  getTetherForces (kiteAt (Vec.mk 0 2 0) (Vec.mk 1 0 0)) tetherConfig
  = Vec.mk (0 - 1 * 0.8) (0 - 0 * 0.8) (0 - 0 * 0.8).
Proof.
  assert (Hd : sqrt 101 <= 25.5).
  { rewrite <- (sqrt_square 25.5) by lra. apply sqrt_le_1_alt. lra. }
  apply (@getTetherForces_slack (kiteAt (Vec.mk 0 2 0) (Vec.mk 1 0 0)) tetherConfig).
  - unfold effectiveLength. simpl. lra.
  - unfold effectiveLength. simpl. lra.
  - unfold effectiveLength, calculateTetherForces, calculateDistance. simpl.
    replace ((0 - 0.5 - (0 + -0.5)) * (0 - 0.5 - (0 + -0.5))
             + (0 + 1.0 - (2 + 0)) * (0 + 1.0 - (2 + 0))
             + (-10 - (0 + 0)) * (-10 - (0 + 0))) with 101 by lra.
    lra.
  - unfold effectiveLength, calculateTetherForces, calculateDistance. simpl.
    replace ((0 + 0.5 - (0 + 0.5)) * (0 + 0.5 - (0 + 0.5))
             + (0 + 1.0 - (2 + 0)) * (0 + 1.0 - (2 + 0))
             + (-10 - (0 + 0)) * (-10 - (0 + 0))) with 101 by lra.
    lra.
Defined.

Lemma limitForce_x_zero (fy fz : R) : Vec.x (limitForce (Vec.mk 0 fy fz)) = 0.
Proof.
  unfold limitForce. cbn [Vec.x Vec.y Vec.z]. cbv zeta.
  destruct (Rlt_dec _ _); cbn [Vec.x]; ring.
Qed.

(** X7: mirror symmetry.  With the kite, its bridle connection and the
    operator in the plane x = 0, equal line lengths and equal inputs, the two
    distances and the two tensions are equal, the summed line force has no x
    component, and the x component of the force returned is the damping
    alone. *)
Theorem tether_mirror_symmetry (kite : KiteProperties R) (c : TetherConfig) :
  Vec.x (position kite) = 0 -> Vec.x (bridleConnectionPoint kite) = 0 ->
  Vec.x (operatorPosition c) = 0 ->
  leftLineLength c = rightLineLength c -> leftInput c = rightInput c ->
  0 < effectiveLength (leftLineLength c) (leftInput c) ->
  0 <= lineElasticity c ->
  leftDistance (calculateTetherForces kite c)
  = rightDistance (calculateTetherForces kite c)
  /\ leftTension (calculateTetherForces kite c)
     = rightTension (calculateTetherForces kite c)
  /\ Vec.x (lineForce kite c) = 0
  /\ Vec.x (getTetherForces kite c) = 0 - Vec.x (velocity kite) * 0.8.
Proof.
  intros Hp Hb Ho HL HI _ _.
  assert (Hd : leftDistance (calculateTetherForces kite c)
               = rightDistance (calculateTetherForces kite c)).
  { unfold calculateTetherForces, calculateDistance. cbv zeta.
    cbn [leftDistance rightDistance Vec.x Vec.y Vec.z operatorLeft operatorRight
         leftAttachPoint rightAttachPoint].
    rewrite Hp, Ho. f_equal.
    replace (0 - 0.5 - (0 + -0.5)) with 0 by lra.
    replace (0 + 0.5 - (0 + 0.5)) with 0 by lra. ring. }
  assert (Ht : leftTension (calculateTetherForces kite c)
               = rightTension (calculateTetherForces kite c)).
  { destruct (tensions_scaled kite c) as (Hlt & Hrt).
    rewrite Hlt, Hrt, Hd, HL, HI. reflexivity. }
  assert (Hx : Vec.x (lineForce kite c) = 0).
  { unfold lineForce. cbv zeta. rewrite Ht.
    generalize (scaleTension (rightTension (calculateTetherForces kite c))).
    intros S. unfold lineDirection, bridleConnection, operatorLeft, operatorRight.
    cbv zeta. cbn [Vec.x Vec.y Vec.z]. rewrite Hp, Hb, Ho.
    set (dy := Vec.y (operatorPosition c) + 1.0
               - (Vec.y (position kite) + Vec.y (bridleConnectionPoint kite))).
    set (dz := Vec.z (operatorPosition c)
               - (Vec.z (position kite) + Vec.z (bridleConnectionPoint kite))).
    replace ((0 - 0.5 - (0 + 0)) * (0 - 0.5 - (0 + 0)) + dy * dy + dz * dz)
      with (0.25 + dy * dy + dz * dz) by lra.
    replace ((0 + 0.5 - (0 + 0)) * (0 + 0.5 - (0 + 0)) + dy * dy + dz * dz)
      with (0.25 + dy * dy + dz * dz) by lra.
    set (m := sqrt (0.25 + dy * dy + dz * dz)).
    destruct (Rlt_dec 0.0001 m) as [Hm | Hm]; cbn [Vec.x Vec.y Vec.z].
    - assert (m <> 0) by lra. decimals. field. assumption.
    - ring. }
  split; [exact Hd | split; [exact Ht | split; [exact Hx |]]].
  unfold getTetherForces. cbv zeta. cbn [Vec.x].
  destruct (lineForce kite c) as [lx ly lz]. cbn [Vec.x] in Hx. subst lx.
  rewrite limitForce_x_zero. reflexivity.
Qed.

Lemma tether_mirror_symmetry_witness :
  Vec.x (getTetherForces farKite tetherConfig) = 0 - Vec.x (velocity farKite) * 0.8.
Proof.
  refine (proj2 (proj2 (proj2
    (@tether_mirror_symmetry farKite tetherConfig _ _ _ _ _ _ _))));
    try reflexivity.
  - unfold effectiveLength. simpl. lra.
  - simpl. lra.
Defined.

End TetherMore.

(** ** Wind: the speed scale, the direction and the wind force *)

Section WindMore.
Import Wind.
Local Open Scope R_scope.

(** X8: [setWindSpeed] stores a finite argument clamped to [0, 1], and with
    a base speed, a gust strength and a turbulence that are not negative and
    a draw of [Math.random] in [[0, 1)], the wind speed after the next
    [updateWindVariation] is at most
    [max(0.1, baseSpeed * (1 + gustStrength + turbulence / 2))], whatever the
    finite argument and the clock.  On JavaScript numbers the clamp of the
    source stores just that value for a finite argument, 1 and 0 for the
    two infinities, and NaN for a NaN argument: it does not stop a NaN. *)
Theorem setWindSpeed_bounds_wind
    (scale deltaTime now r0 r1 r2 r3 : R) (w : WindState) :
  0 <= baseSpeed w -> 0 <= gustStrength w -> 0 <= turbulence w ->
  isRandom r0 ->
  let w1 := setWindSpeed scale w in
  let w2 := updateWindVariation deltaTime now r0 r1 r2 r3 w1 in
  0 <= userWindScale w1 <= 1
  /\ (0 <= scale <= 1 -> userWindScale w1 = scale)
  /\ (scale <= 0 -> userWindScale w1 = 0)
  /\ (1 <= scale -> userWindScale w1 = 1)
  /\ currentSpeed w2
     <= Rmax 0.1 (baseSpeed w * (1 + gustStrength w + 0.5 * turbulence w))
  /\ JSNum.clamp (JSNum.Fin 0) (JSNum.Fin 1) (JSNum.Fin scale) = JSNum.Fin (userWindScale w1)
  /\ JSNum.clamp (JSNum.Fin 0) (JSNum.Fin 1) JSNum.NaN = JSNum.NaN
  /\ JSNum.clamp (JSNum.Fin 0) (JSNum.Fin 1) (JSNum.Inf false) = JSNum.Fin 1
  /\ JSNum.clamp (JSNum.Fin 0) (JSNum.Fin 1) (JSNum.Inf true) = JSNum.Fin 0.
Proof.
  intros Hb Hg Ht [Hr0 Hr1]. cbv zeta.
  assert (Hc : 0 <= Rmax 0 (Rmin 1 scale) <= 1) by (apply clamp_range; lra).
  split; [exact Hc |].
  split; [intros [H0 H1]; cbn [setWindSpeed userWindScale];
          rewrite Rmin_right by lra; apply Rmax_right; lra |].
  split; [intros H; cbn [setWindSpeed userWindScale];
          rewrite Rmin_right by lra; apply Rmax_left; lra |].
  split; [intros H; cbn [setWindSpeed userWindScale];
          rewrite Rmin_left by lra; apply Rmax_right; lra |].
  split; [| split; [apply clamp_Fin | split; [apply clamp_NaN |
             split; [apply (@clamp_Inf 0 1 false); lra
                    | apply (@clamp_Inf 0 1 true); lra]]]].
  rewrite currentSpeed_update.
  cbn [setWindSpeed userWindScale baseSpeed]. cbv zeta.
  set (u := Rmax 0 (Rmin 1 scale)) in *.
  assert (Hv : variationFactor now r0 (setWindSpeed scale w)
               <= 1 + gustStrength w + 0.5 * turbulence w).
  { unfold variationFactor. cbn [setWindSpeed gustFrequency gustStrength turbulence].
    pose proof (SIN_bound (now / 1000 * gustFrequency w)) as [_ Hs].
    assert (sin (now / 1000 * gustFrequency w) * gustStrength w <= gustStrength w)
      by nra.
    assert ((r0 - 0.5) * turbulence w <= 0.5 * turbulence w) by nra.
    lra. }
  set (vf := variationFactor now r0 (setWindSpeed scale w)) in *.
  set (U := 1 + gustStrength w + 0.5 * turbulence w) in *.
  assert (HU : 0 <= U) by (unfold U; lra).
  apply Rmax_lub; [apply Rmax_l |].
  eapply Rle_trans; [| apply Rmax_r].
  assert (H1 : baseSpeed w * vf <= baseSpeed w * U)
    by (apply Rmult_le_compat_l; assumption).
  assert (H2 : 0 <= baseSpeed w * U) by (apply Rmult_le_pos; assumption).
  destruct (Rle_dec 0 (baseSpeed w * vf)) as [Hp | Hn].
  - assert (baseSpeed w * vf * u <= baseSpeed w * vf * 1)
      by (apply Rmult_le_compat_l; lra).
    lra.
  - assert (baseSpeed w * vf * u <= 0).
    { replace (baseSpeed w * vf * u) with (- ((- (baseSpeed w * vf)) * u)) by ring.
      assert (0 <= (- (baseSpeed w * vf)) * u) by (apply Rmult_le_pos; lra).
      lra. }
    lra.
Qed.

Lemma setWindSpeed_bounds_wind_witness :
  currentSpeed (updateWindVariation (1 / 60) 0 0.5 0.5 0.5 0.5
                  (setWindSpeed 50 windState))
  <= Rmax 0.1 (baseSpeed windState
               * (1 + gustStrength windState + 0.5 * turbulence windState)).
Proof.
  refine (proj1 (proj2 (proj2 (proj2 (proj2
    (@setWindSpeed_bounds_wind 50 (1 / 60) 0 0.5 0.5 0.5 0.5 windState
       _ _ _ _))))));
    unfold isRandom; simpl; lra.
Defined.

(** X9: [setWindDirection], in exact arithmetic, stores the same vector as
    base and current direction; for a vector other than zero it is the
    argument divided by its length, of length 1; the zero vector is stored
    as it is. *)
Theorem setWindDirection_normalizes (x y z : R) (w : WindState) :
  currentDirection (setWindDirection x y z w)
  = baseDirection (setWindDirection x y z w)
  /\ ((x, y, z) <> (0, 0, 0) ->
      Tether.magnitude (baseDirection (setWindDirection x y z w)) = 1
      /\ exists m, 0 < m
         /\ baseDirection (setWindDirection x y z w)
            = Vec.mk (x / m) (y / m) (z / m))
  /\ baseDirection (setWindDirection 0 0 0 w) = Vec.mk 0 0 0.
Proof.
  split; [reflexivity | split].
  - intros Hnz.
    assert (Hq : 0 < x * x + y * y + z * z).
    { destruct (Req_dec x 0) as [Hx | Hx];
      destruct (Req_dec y 0) as [Hy | Hy];
      destruct (Req_dec z 0) as [Hz | Hz]; subst; try nra.
      exfalso. apply Hnz. reflexivity. }
    pose proof (sqrt_lt_R0 _ Hq) as Hm.
    unfold setWindDirection. cbn [baseDirection].
    destruct (Rlt_dec 0 (sqrt (x * x + y * y + z * z))) as [_ | Hn];
      [| contradiction].
    split; [apply magnitude_unit_of_quotient; exact Hm |].
    exists (sqrt (x * x + y * y + z * z)). split; [exact Hm | reflexivity].
  - unfold setWindDirection. cbn [baseDirection].
    replace (0 * 0 + 0 * 0 + 0 * 0) with 0 by ring. rewrite sqrt_0.
    destruct (Rlt_dec 0 0); [lra | reflexivity].
Qed.

Lemma setWindDirection_normalizes_witness :
  Tether.magnitude (baseDirection (setWindDirection 3 0 4 windState)) = 1.
Proof.
  apply (setWindDirection_normalizes 3 0 4 windState).
  intros H. apply (f_equal (fun p => fst (fst p))) in H. simpl in H. lra.
Defined.

Lemma jitter_small (r t : R) :
  0 <= r < 1 -> 0 <= t <= 0.1 ->
  (r - 0.5) * t * ((r - 0.5) * t) <= 0.0025.
Proof.
  intros Hr Ht.
  assert (Ha : (r - 0.5) * (r - 0.5) <= 0.25) by nra.
  assert (Hb : t * t <= 0.01) by nra.
  assert (Ha0 : 0 <= (r - 0.5) * (r - 0.5)) by apply (Rle_0_sqr (r - 0.5)).
  assert (Hb0 : 0 <= t * t) by apply (Rle_0_sqr t).
  replace ((r - 0.5) * t * ((r - 0.5) * t))
    with ((r - 0.5) * (r - 0.5) * (t * t)) by ring.
  replace 0.0025 with (0.25 * 0.01) by lra.
  apply Rmult_le_compat; assumption.
Qed.

(** X10: when the base direction has length 1 and the turbulence is within
    [0, 1], the current direction after [updateWindVariation] has length 1:
    the perturbed direction is never the zero vector, so the division by its
    length is defined. *)
Theorem updateWindVariation_direction_unit
    (deltaTime now r0 r1 r2 r3 : R) (w : WindState) :
  Tether.magnitude (baseDirection w) = 1 -> 0 <= turbulence w <= 1 ->
  isRandom r1 -> isRandom r2 -> isRandom r3 ->
  Tether.magnitude (currentDirection (updateWindVariation deltaTime now r0 r1 r2 r3 w)) = 1.
Proof.
  intros Hb Ht [H1 H1'] [H2 H2'] [H3 H3'].
  unfold updateWindVariation. cbv zeta. cbn [currentDirection Vec.x Vec.y Vec.z].
  destruct (baseDirection w) as [bx by_ bz]. unfold Tether.magnitude in Hb.
  cbn [Vec.x Vec.y Vec.z] in *.
  assert (Hbq : bx * bx + by_ * by_ + bz * bz = 1).
  { rewrite <- (sqrt_sqrt (bx * bx + by_ * by_ + bz * bz)) by nra.
    rewrite Hb. ring. }
  set (t := turbulence w * 0.1) in *.
  assert (Htt : 0 <= t <= 0.1) by (unfold t; lra).
  set (ex := (r1 - 0.5) * t). set (ey := (r2 - 0.5) * t). set (ez := (r3 - 0.5) * t).
  assert (Hex : ex * ex <= 0.0025) by (apply jitter_small; [split |]; assumption).
  assert (Hey : ey * ey <= 0.0025) by (apply jitter_small; [split |]; assumption).
  assert (Hez : ez * ez <= 0.0025) by (apply jitter_small; [split |]; assumption).
  apply magnitude_unit_of_quotient. apply sqrt_lt_R0.
  pose proof (Rle_0_sqr (bx + 2 * ex)) as Sx.
  pose proof (Rle_0_sqr (by_ + 2 * ey)) as Sy.
  pose proof (Rle_0_sqr (bz + 2 * ez)) as Sz.
  unfold Rsqr in Sx, Sy, Sz. nra.
Qed.

Lemma updateWindVariation_direction_unit_witness :
  Tether.magnitude (currentDirection
          (updateWindVariation (1 / 60) 0 0.5 0.1 0.9 0.3 windState)) = 1.
Proof.
  apply (@updateWindVariation_direction_unit (1 / 60) 0 0.5 0.1 0.9 0.3 windState);
    unfold isRandom; simpl; try lra.
  unfold Tether.magnitude. simpl. replace (0 * 0 + 0 * 0 + 1 * 1) with 1 by ring.
  apply sqrt_1.
Defined.

(** X11: with a current direction of length 1 and an area that is not
    negative, the force of [getWindForce] has the magnitude
    [0.5 * 1.225 * speed^2 * area] and is a multiple, not negative, of the
    current direction. *)
Theorem getWindForce_along_wind (kite : KiteProperties R) (w : WindState) :
  Tether.magnitude (currentDirection w) = 1 -> 0 <= area kite ->
  Tether.magnitude (getWindForce kite w)
  = 0.5 * 1.225 * (currentSpeed w * currentSpeed w) * area kite
  /\ exists k, 0 <= k
     /\ getWindForce kite w
        = Vec.mk (k * Vec.x (currentDirection w))
                 (k * Vec.y (currentDirection w))
                 (k * Vec.z (currentDirection w)).
Proof.
  intros Hd Ha. unfold getWindForce. cbv zeta.
  set (k := 0.5 * 1.225 * currentSpeed w * currentSpeed w * area kite).
  assert (Hk : 0 <= k).
  { unfold k. pose proof (Rle_0_sqr (currentSpeed w)) as Hs. unfold Rsqr in Hs.
    assert (0 <= 0.5 * 1.225 * (currentSpeed w * currentSpeed w)) by nra.
    replace (0.5 * 1.225 * currentSpeed w * currentSpeed w)
      with (0.5 * 1.225 * (currentSpeed w * currentSpeed w)) by ring.
    apply Rmult_le_pos; assumption. }
  split.
  - unfold Tether.magnitude in *. cbn [Vec.x Vec.y Vec.z].
    destruct (currentDirection w) as [dx dy dz]. cbn [Vec.x Vec.y Vec.z] in *.
    replace (k * dx * (k * dx) + k * dy * (k * dy) + k * dz * (k * dz))
      with (k * k * (dx * dx + dy * dy + dz * dz)) by ring.
    rewrite sqrt_mult by nra. rewrite Hd, sqrt_square by exact Hk.
    unfold k. ring.
  - exists k. split; [exact Hk | reflexivity].
Qed.

Lemma getWindForce_along_wind_witness :
  Tether.magnitude (getWindForce (kiteAt (Vec.mk 0 2 0) (Vec.mk 0 0 0)) windState)
  = 0.5 * 1.225 * (currentSpeed windState * currentSpeed windState)
    * area (kiteAt (Vec.mk 0 2 0) (Vec.mk 0 0 0)).
Proof.
  refine (proj1 (@getWindForce_along_wind
                   (kiteAt (Vec.mk 0 2 0) (Vec.mk 0 0 0)) windState _ _)).
  - unfold Tether.magnitude. simpl. replace (0 * 0 + 0 * 0 + 1 * 1) with 1 by ring.
    apply sqrt_1.
  - simpl. lra.
Defined.

End WindMore.

(** ** Rigid-body state: what an accepted force or torque leaves behind *)

Section KiteMore.
Import JSNum Kite.
Local Open Scope R_scope.

Lemma add_not_NaN (a b : num) :
  isNaN (add a b) = false -> isNaN a = false /\ isNaN b = false.
Proof. destruct a, b; simpl; intros H; try discriminate; split; reflexivity. Qed.

Lemma anyNaN_add (p v : vec num) :
  anyNaN (Vec.mk (add (Vec.x p) (Vec.x v)) (add (Vec.y p) (Vec.y v))
                 (add (Vec.z p) (Vec.z v))) = false ->
  anyNaN v = false.
Proof.
  unfold anyNaN. cbn [Vec.x Vec.y Vec.z]. intros H.
  apply orb_false_iff in H as [H Hz]. apply orb_false_iff in H as [Hx Hy].
  apply add_not_NaN in Hx, Hy, Hz.
  rewrite (proj2 Hx), (proj2 Hy), (proj2 Hz). reflexivity.
Qed.

Lemma mul_Inf_self (s : bool) : mul (Inf s) (Inf s) = Inf false.
Proof. destruct s; reflexivity. Qed.

(** The speed limit shared by [applyForce] and [applyTorque]: when the
    limited vector has no NaN component, its components are finite and its
    length is at most the limit. *)
Lemma limit_finite (mx : R) (v : vec num) :
  0 < mx ->
  let msq := add (add (mul (Vec.x v) (Vec.x v)) (mul (Vec.y v) (Vec.y v)))
                 (mul (Vec.z v) (Vec.z v)) in
  let v3 :=
    if gt msq (mul (Fin mx) (Fin mx))
    then Vec.mk (mul (Vec.x v) (div (Fin mx) (JSNum.sqrt msq)))
                (mul (Vec.y v) (div (Fin mx) (JSNum.sqrt msq)))
                (mul (Vec.z v) (div (Fin mx) (JSNum.sqrt msq)))
    else v in
  anyNaN v3 = false ->
  exists a b c, v3 = Vec.mk (Fin a) (Fin b) (Fin c)
                /\ a * a + b * b + c * c <= mx * mx.
Proof.
  intros Hmx. destruct v as [x y z]. cbn [Vec.x Vec.y Vec.z].
  destruct x as [| sx | a]; destruct y as [| sy | b]; destruct z as [| sz | c];
    cbv zeta;
    try (cbn [mul add gt lt anyNaN isNaN orb Vec.x Vec.y Vec.z];
         intros H; discriminate H);
    try (rewrite ?mul_Inf_self; cbn [mul add gt lt negb Bool.eqb JSNum.sqrt div];
         destruct (Req_dec_T 0 0) as [_ | Hne]; [| exfalso; apply Hne; reflexivity];
         cbn [anyNaN isNaN orb Vec.x Vec.y Vec.z]; rewrite ?orb_true_r;
         intros H; discriminate H).
  rewrite !mul_Fin, !add_Fin.
  pose proof (sum_squares_nonneg a b c) as Hq.
  set (q := a * a + b * b + c * c) in *.
  unfold gt, lt. destruct (Rlt_dec (mx * mx) q) as [Hbig | Hsmall].
  - intros _.
    assert (Hs : 0 < R_sqrt.sqrt q) by (apply sqrt_lt_R0; nra).
    rewrite sqrt_Fin by exact Hq. rewrite div_Fin by lra. rewrite !mul_Fin.
    exists (a * (mx / R_sqrt.sqrt q)), (b * (mx / R_sqrt.sqrt q)),
           (c * (mx / R_sqrt.sqrt q)).
    split; [reflexivity |].
    pose proof (sqrt_sqrt q Hq) as Hss.
    set (m := R_sqrt.sqrt q) in *.
    replace (a * (mx / m) * (a * (mx / m)) + b * (mx / m) * (b * (mx / m))
             + c * (mx / m) * (c * (mx / m)))
      with ((a * a + b * b + c * c) * (mx * mx) / (m * m)) by (field; lra).
    fold q. rewrite Hss. right. field. nra.
  - intros _. exists a, b, c. split; [reflexivity | subst q; lra].
Qed.

(** X12: after [applyForce] has accepted a force (one without a NaN
    component), whatever the state before and however large or infinite the
    force, the stored position has no NaN component and the stored velocity
    is finite with a magnitude of at most 5: either the limited velocity was
    added to the position, or the call ended in [resetKite]. *)
Theorem applyForce_velocity_limited (force : vec num) (s : State) :
  anyNaN force = false ->
  let k := kiteProperties (applyForce force s) in
  anyNaN (position k) = false
  /\ exists vx vy vz,
       velocity k = Vec.mk (Fin vx) (Fin vy) (Fin vz)
       /\ vx * vx + vy * vy + vz * vz <= 5 * 5.
Proof.
  intros Hok. unfold anyNaN in Hok. unfold applyForce. rewrite Hok. cbv zeta.
  match goal with |- context [if gt _ _ then _ else ?v] => set (V2 := v) end.
  pose proof (@limit_finite 5.0 V2) as HL. cbv zeta in HL.
  match type of HL with _ -> anyNaN ?v = false -> _ => set (V3 := v) in * end.
  clearbody V2.
  match goal with |- context [if ?b then resetKite _ else _] =>
    destruct b eqn:Hp end.
  - cbn [resetKite kiteProperties setPose position velocity log].
    split.
    + rewrite launchPosition_value. reflexivity.
    + exists 0, 0, 0. split; [reflexivity | lra].
  - cbn [kiteProperties setLinear position velocity].
    split; [exact Hp |].
    destruct HL as (a & b & c & Hv & Hle); [lra | |].
    + apply (@anyNaN_add (position (kiteProperties s)) V3). exact Hp.
    + exists a, b, c. split; [exact Hv | lra].
Qed.

Lemma applyForce_velocity_limited_witness :
  anyNaN (position (kiteProperties
            (applyForce (Vec.mk (Inf false) (Fin 0) (Fin 0)) initialState)))
  = false.
Proof.
  exact (proj1 (@applyForce_velocity_limited
                  (Vec.mk (Inf false) (Fin 0) (Fin 0)) initialState eq_refl)).
Defined.

(** X13: [applyTorque] leaves [kiteProperties] and [kiteModel] as they are
    when the torque has a NaN component; after an accepted torque the stored
    rotation has no NaN component and the angular velocity is finite with a
    magnitude of at most 2. *)
Theorem applyTorque_guards (torque : vec num) (s : State) :
  (anyNaN torque = true ->
   kiteProperties (applyTorque torque s) = kiteProperties s
   /\ kiteModel (applyTorque torque s) = kiteModel s)
  /\ (anyNaN torque = false ->
      let k := kiteProperties (applyTorque torque s) in
      anyNaN (rotation k) = false
      /\ exists wx wy wz,
           angularVelocity k = Vec.mk (Fin wx) (Fin wy) (Fin wz)
           /\ wx * wx + wy * wy + wz * wz <= 2 * 2).
Proof.
  split.
  - intros Hnan. unfold anyNaN in Hnan. unfold applyTorque. rewrite Hnan.
    split; reflexivity.
  - intros Hok. unfold anyNaN in Hok. unfold applyTorque. rewrite Hok. cbv zeta.
    match goal with |- context [if gt _ _ then _ else ?v] => set (V2 := v) end.
    pose proof (@limit_finite 2.0 V2) as HL. cbv zeta in HL.
    match type of HL with _ -> anyNaN ?v = false -> _ => set (V3 := v) in * end.
    clearbody V2.
    match goal with |- context [if ?b then resetKite _ else _] =>
      destruct b eqn:Hp end.
    + cbn [resetKite kiteProperties setPose rotation angularVelocity log].
      split.
      * rewrite launchRotation_value. reflexivity.
      * exists 0, 0, 0. split; [reflexivity | lra].
    + cbn [kiteProperties setAngular rotation angularVelocity].
      split; [exact Hp |].
      destruct HL as (a & b & c & Hv & Hle); [lra | |].
      * apply (@anyNaN_add (rotation (kiteProperties s)) V3). exact Hp.
      * exists a, b, c. split; [exact Hv | lra].
Qed.

Lemma applyTorque_guards_witness :
  kiteProperties (applyTorque (Vec.mk NaN (Fin 0) (Fin 0)) initialState)
  = kiteProperties initialState
  /\ anyNaN (rotation (kiteProperties
               (applyTorque (Vec.mk (Fin 0) (Inf true) (Fin 0)) initialState)))
     = false.
Proof.
  split.
  - exact (proj1 (proj1 (@applyTorque_guards
                           (Vec.mk NaN (Fin 0) (Fin 0)) initialState) eq_refl)).
  - exact (proj1 (proj2 (@applyTorque_guards
                           (Vec.mk (Fin 0) (Inf true) (Fin 0)) initialState)
                    eq_refl)).
Defined.

(** The acceleration accumulator or, before the first accepted force, the
    zero vector it is created with. *)
Lemma applyForce_accumulator_step (s : State) (m fx fy fz ax ay az : R) :
  mass (kiteProperties s) = Fin m -> m <> 0 ->
  match smoothedAcceleration (kiteProperties s) with
  | Some a => a
  | None => Vec.mk (Fin 0) (Fin 0) (Fin 0)
  end = Vec.mk (Fin ax) (Fin ay) (Fin az) ->
  let s' := applyForce (Vec.mk (Fin fx) (Fin fy) (Fin fz)) s in
  mass (kiteProperties s') = Fin m
  /\ smoothedAcceleration (kiteProperties s')
     = Some (Vec.mk (Fin (0.15 * (fx / m) + (1 - 0.15) * ax))
                    (Fin (0.15 * (fy / m) + (1 - 0.15) * ay))
                    (Fin (0.15 * (fz / m) + (1 - 0.15) * az))).
Proof.
  intros Hm Hm0 Ha. unfold applyForce. cbn [Vec.x Vec.y Vec.z isNaN orb].
  cbv zeta. rewrite Hm, Ha. cbn [Vec.x Vec.y Vec.z].
  match goal with |- context [if ?b then resetKite _ else _] => destruct b end;
    cbn [resetKite kiteProperties setPose setLinear log mass smoothedAcceleration];
    (split; [exact Hm |]); fin; reflexivity.
Qed.

(** X14: the exponential smoothing of [applyForce].  With a finite mass
    other than zero and a finite accumulator, [n + 1] calls with the same
    finite force leave the accumulator at
    [F / m + 0.85 ^ (n + 1) * (a0 - F / m)]: it tends to the raw acceleration
    [F / m], and resets in between do not disturb it. *)
Theorem applyForce_smoothing_converges (n : nat) :
  forall (s : State) (m fx fy fz ax ay az : R),
  mass (kiteProperties s) = Fin m -> m <> 0 ->
  match smoothedAcceleration (kiteProperties s) with
  | Some a => a
  | None => Vec.mk (Fin 0) (Fin 0) (Fin 0)
  end = Vec.mk (Fin ax) (Fin ay) (Fin az) ->
  smoothedAcceleration
    (kiteProperties
       (Nat.iter (S n) (applyForce (Vec.mk (Fin fx) (Fin fy) (Fin fz))) s))
  = Some (Vec.mk (Fin (fx / m + 0.85 ^ S n * (ax - fx / m)))
                 (Fin (fy / m + 0.85 ^ S n * (ay - fy / m)))
                 (Fin (fz / m + 0.85 ^ S n * (az - fz / m)))).
Proof.
  assert (Hgen : forall k (s : State) (m fx fy fz ax ay az : R),
    mass (kiteProperties s) = Fin m -> m <> 0 ->
    match smoothedAcceleration (kiteProperties s) with
    | Some a => a
    | None => Vec.mk (Fin 0) (Fin 0) (Fin 0)
    end = Vec.mk (Fin ax) (Fin ay) (Fin az) ->
    let s' := Nat.iter (S k) (applyForce (Vec.mk (Fin fx) (Fin fy) (Fin fz))) s in
    mass (kiteProperties s') = Fin m
    /\ smoothedAcceleration (kiteProperties s')
       = Some (Vec.mk (Fin (fx / m + 0.85 ^ S k * (ax - fx / m)))
                      (Fin (fy / m + 0.85 ^ S k * (ay - fy / m)))
                      (Fin (fz / m + 0.85 ^ S k * (az - fz / m))))).
  { induction k as [| k IH]; intros s m fx fy fz ax ay az Hm Hm0 Ha.
    - cbv zeta. cbn [Nat.iter nat_rect].
      destruct (@applyForce_accumulator_step s m fx fy fz ax ay az Hm Hm0 Ha)
        as [Hm' Hs'].
      split; [exact Hm' |]. rewrite Hs'.
      f_equal; f_equal; apply f_equal; simpl pow; lra.
    - cbv zeta. specialize (IH s m fx fy fz ax ay az Hm Hm0 Ha). cbv zeta in IH.
      destruct IH as [Hm' Hs'].
      rewrite (Nat.iter_succ (S k)).
      set (t := Nat.iter (S k) _ s) in *.
      assert (Ha' : match smoothedAcceleration (kiteProperties t) with
                    | Some a => a
                    | None => Vec.mk (Fin 0) (Fin 0) (Fin 0)
                    end
                    = Vec.mk (Fin (fx / m + 0.85 ^ S k * (ax - fx / m)))
                             (Fin (fy / m + 0.85 ^ S k * (ay - fy / m)))
                             (Fin (fz / m + 0.85 ^ S k * (az - fz / m))))
        by (rewrite Hs'; reflexivity).
      destruct (@applyForce_accumulator_step t m fx fy fz _ _ _ Hm' Hm0 Ha')
        as [Hm'' Hs''].
      split; [exact Hm'' |]. rewrite Hs''.
      set (e := 0.85 ^ S k).
      replace (0.85 ^ S (S k)) with (0.85 * e) by (unfold e; simpl pow; ring).
      f_equal; f_equal; apply f_equal; lra. }
  intros s m fx fy fz ax ay az Hm Hm0 Ha.
  apply (Hgen n s m fx fy fz ax ay az Hm Hm0 Ha).
Qed.

Lemma applyForce_smoothing_converges_witness :
  smoothedAcceleration
    (kiteProperties (Nat.iter 3 (applyForce (Vec.mk (Fin 1) (Fin 0) (Fin 0)))
                       initialState))
  = Some (Vec.mk (Fin (1 / 0.5 + 0.85 ^ 3 * (0 - 1 / 0.5)))
                 (Fin (0 / 0.5 + 0.85 ^ 3 * (0 - 0 / 0.5)))
                 (Fin (0 / 0.5 + 0.85 ^ 3 * (0 - 0 / 0.5)))).
Proof.
  apply (@applyForce_smoothing_converges 2 initialState 0.5 1 0 0 0 0 0).
  - reflexivity.
  - lra.
  - reflexivity.
Defined.

End KiteMore.

(** ** [Vector3.normalize] on finite, NaN and infinite components *)

Section Vector3Facts.
Import JSNum.
Local Open Scope R_scope.

Lemma normalize_infinite (v : vec num) :
  anyNaN v = false -> anyInfinite v = true ->
  anyNaN (Vector3.normalize v) = true.
Proof.
  destruct v as [x y z].
  destruct x as [| sx | a]; destruct y as [| sy | b]; destruct z as [| sz | c];
    unfold anyNaN, anyInfinite; cbn [Vec.x Vec.y Vec.z isNaN isInfinite orb];
    intros Hn Hi; try discriminate;
    unfold Vector3.normalize, Vector3.magnitude;
    cbn [Vec.x Vec.y Vec.z];
    rewrite ?mul_Inf_self; cbn [mul add gt lt zero negb Bool.eqb JSNum.sqrt];
    cbn [Vec.x Vec.y Vec.z div isNaN orb]; rewrite ?orb_true_r; reflexivity.
Qed.

(** X15: [Vector3.normalize].  A finite vector other than zero becomes a
    finite vector of length 1 with the same direction (its scalar product
    with the original is the original length); a vector with a NaN component
    is returned as it is; and a vector with an infinite component and no NaN
    gets a NaN component. *)
Theorem Vector3_normalize_unit :
  (forall a b c : R, (a, b, c) <> (0, 0, 0) ->
     exists x y z,
       Vector3.normalize (Vec.mk (Fin a) (Fin b) (Fin c))
       = Vec.mk (Fin x) (Fin y) (Fin z)
       /\ x * x + y * y + z * z = 1
       /\ Vector3.magnitude (Vec.mk (Fin x) (Fin y) (Fin z)) = Fin 1
       /\ Vector3.dot (Vec.mk (Fin a) (Fin b) (Fin c))
                      (Vec.mk (Fin x) (Fin y) (Fin z))
          = Vector3.magnitude (Vec.mk (Fin a) (Fin b) (Fin c)))
  /\ (forall v, anyNaN v = true -> Vector3.normalize v = v)
  /\ (forall v, anyNaN v = false -> anyInfinite v = true ->
        anyNaN (Vector3.normalize v) = true).
Proof.
  split; [| split].
  - intros a b c Hnz.
    assert (Hq : 0 < a * a + b * b + c * c).
    { destruct (Req_dec a 0) as [Hx | Hx];
      destruct (Req_dec b 0) as [Hy | Hy];
      destruct (Req_dec c 0) as [Hz | Hz]; subst; try nra.
      exfalso. apply Hnz. reflexivity. }
    pose proof (sqrt_lt_R0 _ Hq) as Hm.
    pose proof (sqrt_sqrt _ (Rlt_le _ _ Hq)) as Hmm.
    rewrite normalize_Fin. cbv zeta.
    destruct (Rlt_dec 0 (R_sqrt.sqrt (a * a + b * b + c * c))) as [_ | Hn];
      [| contradiction].
    set (m := R_sqrt.sqrt (a * a + b * b + c * c)) in *.
    assert (Hu : a / m * (a / m) + b / m * (b / m) + c / m * (c / m) = 1).
    { replace (a / m * (a / m) + b / m * (b / m) + c / m * (c / m))
        with ((a * a + b * b + c * c) / (m * m)) by (field; lra).
      rewrite <- Hmm. field. lra. }
    exists (a / m), (b / m), (c / m).
    split; [reflexivity | split; [exact Hu | split]].
    + rewrite magnitude_Fin, Hu, sqrt_1. reflexivity.
    + rewrite magnitude_Fin. fold m. unfold Vector3.dot.
      cbn [Vec.x Vec.y Vec.z]. rewrite !mul_Fin, !add_Fin. f_equal.
      replace (a * (a / m) + b * (b / m) + c * (c / m))
        with ((a * a + b * b + c * c) / m) by (field; lra).
      rewrite <- Hmm. field. lra.
  - intros v Hnan. unfold Vector3.normalize.
    assert (Hm : Vector3.magnitude v = NaN).
    { destruct v as [x y z]. unfold Vector3.magnitude, anyNaN in *.
      cbn [Vec.x Vec.y Vec.z] in *.
      destruct x as [| sx | a]; destruct y as [| sy | b];
        destruct z as [| sz | c]; try discriminate Hnan;
        rewrite ?mul_Inf_self; reflexivity. }
    rewrite Hm. reflexivity.
  - apply normalize_infinite.
Qed.

End Vector3Facts.

(** ** Engine: the stabilizing force and the aerodynamic forces *)

Section ForcesFacts.
Import Engine.
Local Open Scope R_scope.

Lemma sqrt_sq_sum (a b c : R) :
  sqrt (a * a + b * b + c * c) * sqrt (a * a + b * b + c * c)
  = a * a + b * b + c * c.
Proof. apply sqrt_sqrt. nra. Qed.

(** X16: [calculateStabilizingForce].  The vertical part is
    [0.01 * (5 - y)]; the horizontal part is zero while the kite is within
    30 m of the vertical axis and, further out, has magnitude 0.05 and points
    back to the axis. *)
Theorem calculateStabilizingForce_centers (kite : KiteProperties R) :
  let p := position kite in
  let F := calculateStabilizingForce kite in
  Vec.y F = 0.01 * (5 - Vec.y p)
  /\ (Vec.x p * Vec.x p + Vec.z p * Vec.z p <= 900 ->
      Vec.x F = 0 /\ Vec.z F = 0)
  /\ (900 < Vec.x p * Vec.x p + Vec.z p * Vec.z p ->
      exists d, 30 < d /\ d * d = Vec.x p * Vec.x p + Vec.z p * Vec.z p
        /\ Vec.x F = - 0.05 * (Vec.x p / d)
        /\ Vec.z F = - 0.05 * (Vec.z p / d)
        /\ Vec.x F * Vec.x F + Vec.z F * Vec.z F = 0.05 * 0.05).
Proof.
  cbv zeta. unfold calculateStabilizingForce. cbv zeta.
  destruct (position kite) as [px py pz]. cbn [Vec.x Vec.y Vec.z].
  split; [lra |].
  destruct (Rlt_dec 900 (px * px + pz * pz)) as [Hfar | Hnear];
    cbn [fst snd]; (split; [intros Hle | intros Hgt]); try lra.
  - assert (Hq : 0 <= px * px + pz * pz) by nra.
    pose proof (sqrt_sqrt _ Hq) as Hss.
    pose proof (sqrt_pos (px * px + pz * pz)) as Hs0.
    set (d := sqrt (px * px + pz * pz)) in *.
    assert (Hd : 30 < d) by nra.
    exists d. split; [exact Hd | split; [exact Hss |]].
    split; [decimals; field; lra | split; [decimals; field; lra |]].
    replace (- px / d * 0.05 * (- px / d * 0.05) + - pz / d * 0.05 * (- pz / d * 0.05))
      with ((px * px + pz * pz) / (d * d) * (0.05 * 0.05))
      by (decimals; field; lra).
    rewrite Hss. decimals. field. lra.
Qed.

Lemma unit_quotient (a b c m : R) :
  m * m = a * a + b * b + c * c -> m <> 0 ->
  a / m * (a / m) + b / m * (b / m) + c / m * (c / m) = 1.
Proof.
  intros Hm Hm0.
  replace (a / m * (a / m) + b / m * (b / m) + c / m * (c / m))
    with ((a * a + b * b + c * c) / (m * m)) by (field; exact Hm0).
  rewrite <- Hm. field. exact Hm0.
Qed.

(** For a unit vector [r] and any [n] not parallel to it, the vector
    [r x ((r x n) / |r x n|)] is a unit vector perpendicular to [r]. *)
Lemma double_cross_unit (r1 r2 r3 n1 n2 n3 pm : R) :
  r1 * r1 + r2 * r2 + r3 * r3 = 1 ->
  let p1 := r2 * n3 - r3 * n2 in
  let p2 := r3 * n1 - r1 * n3 in
  let p3 := r1 * n2 - r2 * n1 in
  pm * pm = p1 * p1 + p2 * p2 + p3 * p3 -> pm <> 0 ->
  let l1 := r2 * (p3 / pm) - r3 * (p2 / pm) in
  let l2 := r3 * (p1 / pm) - r1 * (p3 / pm) in
  let l3 := r1 * (p2 / pm) - r2 * (p1 / pm) in
  l1 * l1 + l2 * l2 + l3 * l3 = 1 /\ l1 * r1 + l2 * r2 + l3 * r3 = 0.
Proof.
  intros Hr p1 p2 p3 Hp Hpm l1 l2 l3.
  assert (Hrp : r1 * p1 + r2 * p2 + r3 * p3 = 0) by (unfold p1, p2, p3; ring).
  clearbody p1 p2 p3. split.
  - replace (l1 * l1 + l2 * l2 + l3 * l3)
      with (((r1 * r1 + r2 * r2 + r3 * r3) * (p1 * p1 + p2 * p2 + p3 * p3)
             - (r1 * p1 + r2 * p2 + r3 * p3) * (r1 * p1 + r2 * p2 + r3 * p3))
            / (pm * pm))
      by (unfold l1, l2, l3; field; exact Hpm).
    rewrite Hr, Hrp, <- Hp. field. exact Hpm.
  - unfold l1, l2, l3. field. exact Hpm.
Qed.

Lemma velocityMag_sqr (w : Wind.WindState) (kite : KiteProperties R) :
  velocityMag w kite * velocityMag w kite = velocityMagSquared w kite
  /\ 0 <= velocityMagSquared w kite.
Proof.
  assert (H : 0 <= velocityMagSquared w kite).
  { unfold velocityMagSquared. cbv zeta. apply sum_squares_nonneg. }
  split; [apply sqrt_sqrt; exact H | exact H].
Qed.

Lemma relVelNorm_unit (w : Wind.WindState) (kite : KiteProperties R) :
  ~ velocityMag w kite < 0.0001 ->
  dot (relVelNorm w kite) (relVelNorm w kite) = 1.
Proof.
  intros Hv. unfold dot, relVelNorm. cbv zeta. cbn [Vec.x Vec.y Vec.z].
  apply unit_quotient; [| lra].
  rewrite (proj1 (velocityMag_sqr w kite)). reflexivity.
Qed.

Lemma relativeVelocity_scaled (w : Wind.WindState) (kite : KiteProperties R) :
  ~ velocityMag w kite < 0.0001 ->
  relativeVelocity w kite
  = Vec.mk (velocityMag w kite * Vec.x (relVelNorm w kite))
           (velocityMag w kite * Vec.y (relVelNorm w kite))
           (velocityMag w kite * Vec.z (relVelNorm w kite)).
Proof.
  intros Hv. unfold relVelNorm. cbv zeta. cbn [Vec.x Vec.y Vec.z].
  destruct (relativeVelocity w kite) as [a b c]. cbn [Vec.x Vec.y Vec.z].
  f_equal; field; lra.
Qed.

Lemma kiteNormal_unit (kite : KiteProperties R) :
  dot (kiteNormal kite) (kiteNormal kite) = 1.
Proof.
  unfold dot, kiteNormal. cbn [Vec.x Vec.y Vec.z].
  pose proof (sin2_cos2 (Vec.x (rotation kite))) as Hx.
  pose proof (sin2_cos2 (Vec.y (rotation kite))) as Hy.
  unfold Rsqr in Hx, Hy.
  set (sx := sin (Vec.x (rotation kite))) in *.
  set (cx := cos (Vec.x (rotation kite))) in *.
  set (sy := sin (Vec.y (rotation kite))) in *.
  set (cy := cos (Vec.y (rotation kite))) in *.
  replace (sy * cx * (sy * cx) + sx * sx + cy * cx * (cy * cx))
    with ((sy * sy + cy * cy) * (cx * cx) + sx * sx) by ring.
  rewrite Hy. lra.
Qed.

Lemma angleOfAttack_range (w : Wind.WindState) (kite : KiteProperties R) :
  0 <= angleOfAttack w kite <= PI.
Proof. unfold angleOfAttack. cbv zeta. apply acos_bound. Qed.

Lemma dragCoef_lower (w : Wind.WindState) (kite : KiteProperties R) :
  0 <= dragCoefficient kite -> 0.05 <= dragCoef w kite.
Proof.
  intros Hc. unfold dragCoef. cbv zeta.
  pose proof (angleOfAttack_range w kite) as [H0 H1].
  pose proof (sin_ge_0 _ H0 H1) as Hs.
  pose proof (Rmult_le_pos _ _ Hc Hs). lra.
Qed.

Lemma forceFactor_nonneg (w : Wind.WindState) (kite : KiteProperties R) :
  0 <= area kite -> 0 <= forceFactor w kite.
Proof.
  intros Ha. unfold forceFactor, AIR_DENSITY.
  pose proof (proj2 (velocityMag_sqr w kite)) as Hq.
  apply Rmult_le_pos; [| exact Ha]. apply Rmult_le_pos; [lra | exact Hq].
Qed.

Lemma liftDirection_unit_perpendicular
    (w : Wind.WindState) (kite : KiteProperties R) :
  ~ velocityMag w kite < 0.0001 -> ~ crossMag w kite < 0.0001 ->
  dot (liftDirection w kite) (liftDirection w kite) = 1
  /\ dot (liftDirection w kite) (relVelNorm w kite) = 0.
Proof.
  intros Hv Hc. pose proof (@relVelNorm_unit w kite Hv) as Hr.
  unfold liftDirection. cbv zeta.
  destruct (Rlt_dec (crossMag w kite) 0.0001) as [Hlt | _]; [contradiction |].
  assert (Hpm : crossMag w kite * crossMag w kite
                = dot (crossProduct w kite) (crossProduct w kite)).
  { unfold crossMag. cbv zeta. apply sqrt_sqrt. apply sum_squares_nonneg. }
  assert (Hpm0 : crossMag w kite <> 0) by lra.
  revert Hpm Hpm0. generalize (crossMag w kite). intros pm Hpm Hpm0.
  unfold crossProduct in *. cbv zeta in *.
  destruct (relVelNorm w kite) as [r1 r2 r3].
  destruct (kiteNormal kite) as [n1 n2 n3].
  unfold dot in *. cbn [Vec.x Vec.y Vec.z] in *.
  exact (@double_cross_unit r1 r2 r3 n1 n2 n3 pm Hr Hpm Hpm0).
Qed.

(** X17: the drag of [calculateAerodynamicForces], for an area and a drag
    coefficient that are not negative.  Below a relative speed of 1e-4 lift
    and drag are zero and no angle is reported.  Otherwise the reported angle
    of attack is within [0, pi], and the drag is the relative velocity
    (wind minus kite) times [- k / speed] for a magnitude [k] of at least
    [0.05 * forceFactor], where [forceFactor = 0.5 * 1.225 * speed^2 * area]. *)
Theorem calculateAerodynamicForces_drag
    (w : Wind.WindState) (kite : KiteProperties R) :
  0 <= area kite -> 0 <= dragCoefficient kite ->
  let A := calculateAerodynamicForces w kite in
  let V := relativeVelocity w kite in
  (velocityMag w kite < 0.0001 ->
   lift A = Vec.mk 0 0 0 /\ drag A = Vec.mk 0 0 0
   /\ reportedAngleOfAttack A = None)
  /\ (~ velocityMag w kite < 0.0001 ->
      exists k a,
        reportedAngleOfAttack A = Some a /\ 0 <= a <= PI
        /\ 0.05 * forceFactor w kite <= k
        /\ forceFactor w kite
           = 0.5 * 1.225 * dot V V * area kite
        /\ drag A = Vec.mk (- (k / velocityMag w kite) * Vec.x V)
                           (- (k / velocityMag w kite) * Vec.y V)
                           (- (k / velocityMag w kite) * Vec.z V)
        /\ dot (drag A) (drag A) = k * k).
Proof.
  intros Ha Hc. cbv zeta. unfold calculateAerodynamicForces.
  destruct (Rlt_dec (velocityMag w kite) 0.0001) as [Hstill | Hmove].
  - split; [intros _ | intros H; contradiction].
    split; [reflexivity | split; reflexivity].
  - split; [intros H; contradiction | intros _].
    cbv zeta. cbn [lift drag reportedAngleOfAttack].
    exists (forceFactor w kite * dragCoef w kite), (angleOfAttack w kite).
    split; [reflexivity |]. split; [apply angleOfAttack_range |].
    pose proof (@forceFactor_nonneg w kite Ha) as Hf.
    pose proof (@dragCoef_lower w kite Hc) as Hd.
    split; [rewrite Rmult_comm; apply Rmult_le_compat_l; assumption |].
    split; [reflexivity |].
    pose proof (@relVelNorm_unit w kite Hmove) as Hr.
    set (k := forceFactor w kite * dragCoef w kite).
    split.
    + rewrite (@relativeVelocity_scaled w kite Hmove) at 1 2 3.
      cbn [Vec.x Vec.y Vec.z]. f_equal; field; lra.
    + unfold dot in *. cbn [Vec.x Vec.y Vec.z].
      destruct (relVelNorm w kite) as [r1 r2 r3]. cbn [Vec.x Vec.y Vec.z] in *.
      replace (- r1 * k * (- r1 * k) + - r2 * k * (- r2 * k) + - r3 * k * (- r3 * k))
        with ((r1 * r1 + r2 * r2 + r3 * r3) * (k * k)) by ring.
      rewrite Hr. ring.
Qed.

Lemma upright_velocityMag : velocityMag Wind.windState uprightKite = 5.
Proof.
  unfold velocityMag, velocityMagSquared, relativeVelocity. cbv zeta.
  cbn [Wind.getWindDirection Wind.getWindSpeed Wind.windState
       Wind.currentDirection Wind.currentSpeed uprightKite velocity
       Vec.x Vec.y Vec.z].
  apply sqrt_of_square; lra.
Qed.

Lemma upright_crossMag : crossMag Wind.windState uprightKite = 1.
Proof.
  unfold crossMag, crossProduct, relVelNorm. cbv zeta.
  rewrite upright_velocityMag.
  unfold relativeVelocity, kiteNormal. cbv zeta.
  cbn [Wind.getWindDirection Wind.getWindSpeed Wind.windState
       Wind.currentDirection Wind.currentSpeed uprightKite velocity rotation
       Vec.x Vec.y Vec.z].
  rewrite sin_PI2, cos_PI2, sin_0, cos_0.
  apply sqrt_of_square; [lra | decimals; field].
Qed.

Lemma calculateAerodynamicForces_drag_witness :
  exists k a,
    reportedAngleOfAttack (calculateAerodynamicForces Wind.windState uprightKite)
    = Some a
    /\ 0 <= a <= PI
    /\ dot (drag (calculateAerodynamicForces Wind.windState uprightKite))
           (drag (calculateAerodynamicForces Wind.windState uprightKite))
       = k * k.
Proof.
  destruct (@calculateAerodynamicForces_drag Wind.windState uprightKite)
    as [_ H]; [simpl; lra | simpl; lra |].
  destruct H as (k & a & Ha & Hr & _ & _ & _ & Hk);
    [rewrite upright_velocityMag; lra |].
  exists k, a. split; [exact Ha | split; [exact Hr | exact Hk]].
Defined.

(** X18: the lift of [calculateAerodynamicForces], when neither the
    relative speed nor the cross product of its direction with the kite
    normal is below 1e-4: the lift is perpendicular to the relative velocity
    and to the drag, its magnitude is [forceFactor * |liftCoef|], and that is
    at most [1.2 * forceFactor]. *)
Theorem calculateAerodynamicForces_lift
    (w : Wind.WindState) (kite : KiteProperties R) :
  ~ velocityMag w kite < 0.0001 -> ~ crossMag w kite < 0.0001 ->
  let A := calculateAerodynamicForces w kite in
  let l := forceFactor w kite * liftCoefficient (angleOfAttack w kite) in
  dot (lift A) (relativeVelocity w kite) = 0
  /\ dot (lift A) (drag A) = 0
  /\ dot (lift A) (lift A) = l * l
  /\ (0 <= area kite -> - (1.2 * forceFactor w kite) <= l <= 1.2 * forceFactor w kite).
Proof.
  intros Hv Hc. cbv zeta. unfold calculateAerodynamicForces.
  destruct (Rlt_dec (velocityMag w kite) 0.0001) as [Hstill | _];
    [contradiction |].
  cbv zeta. cbn [lift drag].
  destruct (@liftDirection_unit_perpendicular w kite Hv Hc) as [HL Hperp].
  set (l := forceFactor w kite * liftCoefficient (angleOfAttack w kite)).
  set (d := forceFactor w kite * dragCoef w kite).
  split; [| split; [| split]].
  - rewrite (@relativeVelocity_scaled w kite Hv).
    unfold dot in *. cbn [Vec.x Vec.y Vec.z].
    destruct (liftDirection w kite) as [l1 l2 l3].
    destruct (relVelNorm w kite) as [r1 r2 r3]. cbn [Vec.x Vec.y Vec.z] in *.
    set (m := velocityMag w kite).
    replace (l1 * l * (m * r1) + l2 * l * (m * r2) + l3 * l * (m * r3))
      with (l * m * (l1 * r1 + l2 * r2 + l3 * r3)) by ring.
    rewrite Hperp. ring.
  - unfold dot in *. cbn [Vec.x Vec.y Vec.z].
    destruct (liftDirection w kite) as [l1 l2 l3].
    destruct (relVelNorm w kite) as [r1 r2 r3]. cbn [Vec.x Vec.y Vec.z] in *.
    replace (l1 * l * (- r1 * d) + l2 * l * (- r2 * d) + l3 * l * (- r3 * d))
      with (- (l * d) * (l1 * r1 + l2 * r2 + l3 * r3)) by ring.
    rewrite Hperp. ring.
  - unfold dot in *. cbn [Vec.x Vec.y Vec.z].
    destruct (liftDirection w kite) as [l1 l2 l3]. cbn [Vec.x Vec.y Vec.z] in *.
    replace (l1 * l * (l1 * l) + l2 * l * (l2 * l) + l3 * l * (l3 * l))
      with ((l1 * l1 + l2 * l2 + l3 * l3) * (l * l)) by ring.
    rewrite HL. ring.
  - intros Ha. pose proof (@forceFactor_nonneg w kite Ha) as Hf.
    pose proof (liftCoefficient_bounded (angleOfAttack w kite)) as [Hlo Hhi].
    unfold maxLiftCoef in Hlo, Hhi. unfold l.
    set (f := forceFactor w kite) in *.
    set (c := liftCoefficient (angleOfAttack w kite)) in *.
    split; nra.
Qed.

Lemma calculateAerodynamicForces_lift_witness :
  dot (lift (calculateAerodynamicForces Wind.windState uprightKite))
      (relativeVelocity Wind.windState uprightKite) = 0.
Proof.
  apply (@calculateAerodynamicForces_lift Wind.windState uprightKite).
  - rewrite upright_velocityMag. lra.
  - rewrite upright_crossMag. lra.
Defined.

End ForcesFacts.

(** ** Engine: the ground collision, through the copy of the kite *)

Section CollisionFacts.
Import JSNum Kite Engine.
Local Open Scope R_scope.

Lemma max_0_not_negative (a : num) : lt (max (Fin 0) a) (Fin 0) = false.
Proof.
  destruct a as [| [|] | r]; try reflexivity.
  - cbn [max lt negb]. apply lt_Fin_false. lra.
  - unfold max. destruct (lt (Fin 0) (Fin r)) eqn:Hl.
    + unfold lt in *. destruct (Rlt_dec 0 r) as [Hr | Hr]; [| discriminate].
      destruct (Rlt_dec r 0); [lra | reflexivity].
    + apply lt_Fin_false. lra.
Qed.

(** [applyForce] is its update followed by the validation of the
    position. *)
Lemma applyForce_unfold (force : vec num) (s : State) :
  applyForce force s
  = if anyNaN force then log "Invalid force values:" s
    else if anyNaN (position (kiteProperties (applyForceUpdate force s)))
         then resetKite (log "Invalid position values:" (applyForceUpdate force s))
         else applyForceUpdate force s.
Proof. reflexivity. Qed.

(** [applyTorque] likewise, with the validation of the rotation. *)
Lemma applyTorque_unfold (torque : vec num) (s : State) :
  applyTorque torque s
  = if anyNaN torque then log "Invalid torque values:" s
    else if anyNaN (rotation (kiteProperties (applyTorqueUpdate torque s)))
         then resetKite (log "Invalid rotation values:" (applyTorqueUpdate torque s))
         else applyTorqueUpdate torque s.
Proof. reflexivity. Qed.

Lemma applyForce_reset_pose (force : vec num) (s : State) :
  applyForceResets force s = true ->
  position (kiteProperties (applyForce force s)) = launchPosition
  /\ velocity (kiteProperties (applyForce force s)) = Vec.mk (Fin 0) (Fin 0) (Fin 0).
Proof.
  unfold applyForceResets. rewrite applyForce_unfold.
  destruct (anyNaN force); [intros H; discriminate H |].
  cbn [negb andb]. intros H. rewrite H. split; reflexivity.
Qed.

Lemma applyTorque_motion (torque : vec num) (s : State) :
  (position (kiteProperties (applyTorque torque s)) = position (kiteProperties s)
   /\ velocity (kiteProperties (applyTorque torque s)) = velocity (kiteProperties s))
  \/ (position (kiteProperties (applyTorque torque s)) = launchPosition
      /\ velocity (kiteProperties (applyTorque torque s))
         = Vec.mk (Fin 0) (Fin 0) (Fin 0)).
Proof.
  rewrite applyTorque_unfold.
  destruct (anyNaN torque); [left; split; reflexivity |].
  destruct (anyNaN (rotation (kiteProperties (applyTorqueUpdate torque s)))).
  - right. split; reflexivity.
  - left. split; reflexivity.
Qed.

(** A call on a copy that still shares its vectors, for a kite below the
    buffer, ends with [applyTorque] on a state where the kite has been put at
    0.5 m with a vertical velocity that is not negative, or where it has
    just been reset. *)
Lemma checkGroundCollision_shared (kite : Snapshot) (s : State) :
  shared kite = true ->
  lt (Vec.y (position (kiteProperties s))) (Fin 0.5) = true ->
  exists torque st,
    checkGroundCollision kite s = applyTorque torque st
    /\ ((Vec.y (position (kiteProperties st)) = Fin 0.5
         /\ lt (Vec.y (velocity (kiteProperties st))) (Fin 0) = false)
        \/ (position (kiteProperties st) = launchPosition
            /\ velocity (kiteProperties st) = Vec.mk (Fin 0) (Fin 0) (Fin 0))).
Proof.
  intros Hs Hlow. unfold checkGroundCollision. cbv zeta.
  unfold seen at 1. rewrite Hs, Hlow.
  unfold applyForceVia. rewrite Hs. cbn [andb].
  match goal with |- context [applyForceResets ?f s] =>
    set (F := f); destruct (applyForceResets F s) eqn:Hr
  end.
  - destruct (@applyForce_reset_pose F s Hr) as [Hp Hv].
    unfold seen, writeMotion. cbn [shared own].
    eexists. eexists. split; [reflexivity |].
    right. split; assumption.
  - unfold seen, writeMotion. rewrite Hs.
    eexists. eexists. split; [reflexivity |].
    left. cbn [kiteProperties setMotion position velocity Vec.y].
    split; [reflexivity | apply max_0_not_negative].
Qed.

(** X19: [checkGroundCollision(kite)], where [kite] is a copy taken with
    [getKiteProperties()].  When the height read through the copy is not
    below 0.5 the state is left as it is.  When the copy still shares its
    vectors with [kiteProperties] and the kite is below 0.5 m, the call
    leaves the kite at 0.5 m or reset to the launch position, and its
    vertical velocity is not negative.  When a reset has replaced the
    vectors since the copy was taken, the damping and the clamp are written
    to the old vectors: [kiteProperties] receives the repulsion force and
    the stabilizing torque and nothing else. *)
Theorem checkGroundCollision_lifts_kite (kite : Snapshot) (s : State) :
  let s' := checkGroundCollision kite s in
  (lt (Vec.y (position (seen kite s))) (Fin 0.5) = false -> s' = s)
  /\ (shared kite = true ->
      lt (Vec.y (position (kiteProperties s))) (Fin 0.5) = true ->
      (Vec.y (position (kiteProperties s')) = Fin 0.5
       \/ position (kiteProperties s') = launchPosition)
      /\ lt (Vec.y (velocity (kiteProperties s'))) (Fin 0) = false)
  /\ (shared kite = false ->
      lt (Vec.y (position (own kite))) (Fin 0.5) = true ->
      s' = applyTorque (stabilizingTorque (rotation (own kite)))
             (applyForce (groundRepulsionForce kite) s)).
Proof.
  cbv zeta. split; [| split].
  - intros Hhigh. unfold checkGroundCollision. cbv zeta.
    rewrite Hhigh. reflexivity.
  - intros Hs Hlow.
    destruct (@checkGroundCollision_shared kite s Hs Hlow)
      as (torque & st & -> & Hst).
    destruct (@applyTorque_motion torque st) as [[Hp Hv] | [Hp Hv]];
      rewrite Hp, Hv.
    + destruct Hst as [[Hy Hvy] | [Hl Hz]].
      * split; [left; exact Hy | exact Hvy].
      * rewrite Hl, Hz. split; [right; reflexivity |].
        apply lt_Fin_false. lra.
    + split; [right; reflexivity |]. apply lt_Fin_false. lra.
  - intros Hs Hlow. unfold checkGroundCollision. cbv zeta.
    unfold seen at 1. rewrite Hs, Hlow.
    unfold applyForceVia. rewrite Hs. cbn [andb].
    unfold seen, writeMotion. rewrite Hs. reflexivity.
Qed.

Lemma checkGroundCollision_lifts_kite_witness :
  let s' := checkGroundCollision (getKiteProperties lowState) lowState in
  (Vec.y (position (kiteProperties s')) = Fin 0.5
   \/ position (kiteProperties s') = launchPosition)
  /\ lt (Vec.y (velocity (kiteProperties s'))) (Fin 0) = false.
Proof.
  refine (proj1 (proj2 (@checkGroundCollision_lifts_kite
                          (getKiteProperties lowState) lowState)) eq_refl _).
  apply lt_Fin_true. lra.
Defined.

End CollisionFacts.

(** ** Stepper: the account of the frame time *)

Section StepperMore.
Import Engine.
Local Open Scope Q_scope.

Variable World : Type.
Variable stepPhysics : Q -> World -> World.

Lemma stepsQ_S (n : nat) : stepsQ (S n) == stepsQ n + 1.
Proof.
  unfold stepsQ. rewrite Nat2Z.inj_succ. unfold Z.succ.
  rewrite inject_Z_plus. reflexivity.
Qed.

Lemma stepsQ_0 : stepsQ 0 == 0.
Proof. reflexivity. Qed.

Lemma stepsQ_nonneg (n : nat) : 0 <= stepsQ n.
Proof.
  unfold stepsQ. change 0 with (inject_Z 0). rewrite <- Zle_Qle. lia.
Qed.

Lemma FIXED_pos : 0 < FIXED_TIME_STEP.
Proof. reflexivity. Qed.

(** Each turn of the loop moves one fixed step from the accumulator to the
    world; the accumulator never goes below zero. *)
Lemma subSteps_account (fuel : nat) : forall (acc : Q) (n : nat) (w : World),
  let r := subSteps stepPhysics fuel acc n w in
  fst (fst r) + stepsQ (snd (fst r) - n) * FIXED_TIME_STEP == acc
  /\ (0 <= acc -> 0 <= fst (fst r)).
Proof.
  induction fuel as [| fuel IH]; intros acc n w; cbv zeta.
  - simpl subSteps. cbn [fst snd]. rewrite Nat.sub_diag.
    split; [rewrite stepsQ_0; Lqa.lra | tauto].
  - simpl subSteps.
    destruct (Qle_bool FIXED_TIME_STEP acc && (n <? maxSteps)%nat) eqn:Hc.
    + apply andb_true_iff in Hc as [Hacc _]. apply Qle_bool_iff in Hacc.
      specialize (IH (acc - FIXED_TIME_STEP) (S n)
                     (stepPhysics FIXED_TIME_STEP w)).
      cbv zeta in IH. destruct IH as [Hsum Hpos].
      pose proof (@subSteps_spec World stepPhysics fuel (acc - FIXED_TIME_STEP)
                    (S n) (stepPhysics FIXED_TIME_STEP w)) as Hs.
      cbv zeta in Hs. destruct Hs as ([Hlo _] & _ & _).
      set (r := subSteps stepPhysics fuel (acc - FIXED_TIME_STEP) (S n)
                  (stepPhysics FIXED_TIME_STEP w)) in *.
      split.
      * replace (snd (fst r) - n)%nat with (S (snd (fst r) - S n)) by lia.
        rewrite stepsQ_S. Lqa.lra.
      * intros _. apply Hpos. Lqa.lra.
    + cbn [fst snd]. rewrite Nat.sub_diag.
      split; [rewrite stepsQ_0; Lqa.lra | tauto].
Qed.

(** With at least as many fixed steps in the accumulator as turns of fuel,
    and room below the bound, every turn is taken. *)
Lemma subSteps_full (fuel : nat) : forall (acc : Q) (n : nat) (w : World),
  (n + fuel <= maxSteps)%nat ->
  stepsQ fuel * FIXED_TIME_STEP <= acc ->
  snd (fst (subSteps stepPhysics fuel acc n w)) = (n + fuel)%nat.
Proof.
  induction fuel as [| fuel IH]; intros acc n w Hn Hacc.
  - simpl. lia.
  - simpl subSteps. rewrite stepsQ_S in Hacc.
    pose proof (stepsQ_nonneg fuel) as Hf. pose proof FIXED_pos as HF.
    assert (H1 : FIXED_TIME_STEP <= acc).
    { assert (0 <= stepsQ fuel * FIXED_TIME_STEP)
        by (apply Qmult_le_0_compat; [exact Hf | apply Qlt_le_weak; exact HF]).
      Lqa.lra. }
    apply Qle_bool_iff in H1.
    destruct (Qle_bool FIXED_TIME_STEP acc && (n <? maxSteps)%nat) eqn:Hc.
    + rewrite IH; [lia | lia | Lqa.lra].
    + exfalso. apply andb_false_iff in Hc as [Hc | Hc].
      * rewrite H1 in Hc. discriminate.
      * apply Nat.ltb_ge in Hc. lia.
Qed.

(** X20: [updatePhysics] accounts for the frame time.  Unless the
    accumulator is drained, the time left in the accumulator plus the
    sub-steps run, each 1/120 s, is the accumulator before plus the clamped
    and scaled frame time; a drain happens only after ten sub-steps and
    discards more than one fixed step; with fewer than ten sub-steps the
    time left is less than one fixed step; and the accumulator stays
    non-negative. *)
Theorem updatePhysics_time_accounting (deltaTime : Q) (e : Engine World) :
  isRunning e = true ->
  let o := updatePhysics stepPhysics deltaTime e in
  let accumulator0 :=
    accumulator e + Qmin deltaTime maxDeltaTime * timeScale e in
  (drained o = false ->
   accumulator (engine o) + stepsQ (steps o) * FIXED_TIME_STEP == accumulator0)
  /\ (drained o = true ->
      steps o = maxSteps /\ accumulator (engine o) = 0
      /\ stepsQ (S maxSteps) * FIXED_TIME_STEP < accumulator0)
  /\ ((steps o < maxSteps)%nat -> accumulator (engine o) < FIXED_TIME_STEP)
  /\ (0 <= accumulator0 -> 0 <= accumulator (engine o)).
Proof.
  intros Hrun. cbv zeta. unfold updatePhysics. rewrite Hrun.
  simpl negb. cbv iota zeta.
  set (acc0 := accumulator e + Qmin deltaTime maxDeltaTime * timeScale e).
  pose proof (@subSteps_spec World stepPhysics maxSteps acc0 0 (world e)) as Hs.
  pose proof (subSteps_account maxSteps acc0 0 (world e)) as Ha.
  cbv zeta in Hs, Ha.
  destruct (subSteps stepPhysics maxSteps acc0 0 (world e)) as [[acc1 n1] w1].
  cbn [fst snd] in Hs, Ha. destruct Hs as ([_ Hhi] & _ & Hexit).
  destruct Ha as [Hsum Hpos]. rewrite Nat.sub_0_r in Hsum.
  specialize (Hexit (Nat.le_refl _)).
  destruct ((maxSteps <=? n1)%nat && Qgt_bool acc1 FIXED_TIME_STEP) eqn:Hov;
    cbn [engine steps drained accumulator].
  - apply andb_true_iff in Hov as [Hn Hacc]. apply Nat.leb_le in Hn.
    unfold Qgt_bool in Hacc. apply negb_true_iff in Hacc.
    assert (Hgt : FIXED_TIME_STEP < acc1).
    { apply Qnot_le_lt. intros Hle. apply Qle_bool_iff in Hle.
      rewrite Hle in Hacc. discriminate. }
    assert (Hn1 : n1 = maxSteps) by (simpl in *; lia). subst n1.
    split; [intros H; discriminate |].
    split; [intros _; split; [reflexivity | split; [reflexivity |]] |].
    + rewrite stepsQ_S. Lqa.lra.
    + split; [intros H; lia | intros _; apply Qle_refl].
  - split; [intros _; exact Hsum |].
    split; [intros H; discriminate |].
    split; [| exact Hpos].
    intros Hlt. apply andb_false_iff in Hexit as [Hexit | Hexit].
    + apply Qnot_le_lt. intros Hle. apply Qle_bool_iff in Hle.
      rewrite Hle in Hexit. discriminate.
    + apply Nat.ltb_ge in Hexit. lia.
Qed.

Lemma ten_steps : stepsQ maxSteps * FIXED_TIME_STEP == 1 # 12.
Proof. reflexivity. Qed.

Lemma maxDeltaTime_value : maxDeltaTime == 1 # 10.
Proof. reflexivity. Qed.

Lemma FIXED_value : FIXED_TIME_STEP == 1 # 120.
Proof. reflexivity. Qed.

(** X21: at time scale 1 and with an accumulator that is not negative,
    every frame of 100 ms or more runs exactly ten sub-steps, warns of an
    overload and drains the accumulator: the clamp of the frame time to
    100 ms exceeds the ten sub-steps of 1/120 s that one call may run. *)
Theorem updatePhysics_slow_frame (deltaTime : Q) (e : Engine World) :
  isRunning e = true -> timeScale e == 1 -> 0 <= accumulator e ->
  maxDeltaTime <= deltaTime ->
  let o := updatePhysics stepPhysics deltaTime e in
  steps o = 10%nat
  /\ world (engine o) = Nat.iter 10 (stepPhysics FIXED_TIME_STEP) (world e)
  /\ drained o = true
  /\ accumulator (engine o) = 0
  /\ warnings (engine o)
     = (warnings e ++ ["Physics system overloaded, draining accumulator"%string])%list.
Proof.
  intros Hrun Hts Hacc Hdt. cbv zeta. unfold updatePhysics. rewrite Hrun.
  simpl negb. cbv iota zeta.
  set (acc0 := accumulator e + Qmin deltaTime maxDeltaTime * timeScale e).
  assert (Hmin : Qmin deltaTime maxDeltaTime == maxDeltaTime)
    by (apply Q.min_r; exact Hdt).
  assert (H0 : acc0 == accumulator e + maxDeltaTime).
  { unfold acc0. rewrite Hmin, Hts. Lqa.lra. }
  assert (Hfull : stepsQ maxSteps * FIXED_TIME_STEP <= acc0).
  { rewrite H0, ten_steps, maxDeltaTime_value. Lqa.lra. }
  pose proof (@subSteps_spec World stepPhysics maxSteps acc0 0 (world e)) as Hs.
  pose proof (subSteps_account maxSteps acc0 0 (world e)) as Ha.
  pose proof (@subSteps_full maxSteps acc0 0 (world e) (Nat.le_refl _) Hfull)
    as Hn.
  cbv zeta in Hs, Ha.
  destruct (subSteps stepPhysics maxSteps acc0 0 (world e)) as [[acc1 n1] w1].
  cbn [fst snd] in Hs, Ha, Hn. destruct Hs as (_ & Hw & _).
  destruct Ha as [Hsum _]. subst n1. rewrite Nat.sub_0_r in Hsum, Hw.
  assert (Hgt : FIXED_TIME_STEP < acc1).
  { rewrite H0, ten_steps, maxDeltaTime_value in Hsum. rewrite FIXED_value.
    Lqa.lra. }
  assert (Hov : (maxSteps <=? 0 + maxSteps)%nat && Qgt_bool acc1 FIXED_TIME_STEP
                = true).
  { apply andb_true_iff. split; [reflexivity |].
    unfold Qgt_bool. apply negb_true_iff.
    destruct (Qle_bool acc1 FIXED_TIME_STEP) eqn:Hle; [| reflexivity].
    apply Qle_bool_iff in Hle. exfalso. apply (Qlt_not_le _ _ Hgt). exact Hle. }
  rewrite Hov. cbn [engine steps drained accumulator world warnings].
  split; [reflexivity | split; [exact Hw | repeat split]].
Qed.

End StepperMore.

(** A frame of 1/60 s on a world that counts its steps: two sub-steps, and
    the time that came in is the time that was simulated plus the time left
    in the accumulator. *)
Lemma updatePhysics_time_accounting_witness :
  let e := Engine.mkEngine true 0 1 0%nat [] in
  let o := Engine.updatePhysics (fun _ n => S n) (1 # 60) e in
  (Engine.drained o = false ->
   (Engine.accumulator (Engine.engine o)
    + Engine.stepsQ (Engine.steps o) * Engine.FIXED_TIME_STEP
    == Engine.accumulator e
       + Qmin (1 # 60) Engine.maxDeltaTime * Engine.timeScale e)%Q)
  /\ (Engine.steps o < Engine.maxSteps)%nat.
Proof.
  split.
  - exact (proj1 (@updatePhysics_time_accounting nat (fun _ n => S n) (1 # 60)
                    (Engine.mkEngine true 0 1 0%nat []) eq_refl)).
  - vm_compute. lia.
Defined.

(** A frame of a quarter of a second at time scale 1. *)
Lemma updatePhysics_slow_frame_witness :
  Engine.steps (Engine.updatePhysics (fun _ n => S n) (1 # 4)
                  (Engine.mkEngine true 0 1 0%nat [])) = 10%nat.
Proof.
  refine (proj1 (@updatePhysics_slow_frame nat (fun _ n => S n) (1 # 4)
                   (Engine.mkEngine true 0 1 0%nat []) eq_refl _ _ _)).
  - reflexivity.
  - apply Qle_refl.
  - unfold Engine.maxDeltaTime. unfold Qle. simpl. lia.
Defined.

(** ** Controls: ranges, and agreement with the tether configuration *)

Section ControlsFacts.
Import Tether Controls.
Local Open Scope R_scope.

Lemma clamp01_id (v : R) : 0 <= v <= 1 -> Rmax 0 (Rmin 1 v) = v.
Proof. intros [H0 H1]. rewrite Rmin_right by lra. apply Rmax_right. lra. Qed.

Lemma step_up (v s : R) :
  0 <= s -> 0 <= v <= 1 -> 0 <= Rmin 1.0 (v + 0.01 * s) <= 1
  /\ v <= Rmin 1.0 (v + 0.01 * s).
Proof.
  intros Hs [H0 H1]. unfold Rmin.
  destruct (Rle_dec 1.0 (v + 0.01 * s)); lra.
Qed.

Lemma step_down (v s : R) :
  0 <= s -> 0 <= v <= 1 -> 0 <= Rmax 0.0 (v - 0.01 * s) <= 1
  /\ Rmax 0.0 (v - 0.01 * s) <= v.
Proof.
  intros Hs [H0 H1]. unfold Rmax.
  destruct (Rle_dec 0.0 (v - 0.01 * s)); lra.
Qed.

Ltac poll_cases :=
  cbv zeta;
  cbn [setLeftLine setRightLine setLineLength
       setLeftInput setRightInput setOverallLineLength
       leftLine rightLine lineLength sensitivity keys
       leftInput rightInput overallLengthAdjustment];
  unfold inRange, inSync;
  cbn [setLeftLine setRightLine setLineLength
       setLeftInput setRightInput setOverallLineLength
       leftLine rightLine lineLength sensitivity keys
       leftInput rightInput overallLengthAdjustment].

Lemma pollLeft_ok (c : ControlState) (t : TetherConfig) :
  0 <= sensitivity c -> inRange c -> inSync c t ->
  let (c', t') := pollLeft (c, t) in
  sensitivity c' = sensitivity c /\ keys c' = keys c
  /\ inRange c' /\ inSync c' t'
  /\ rightLine c' = rightLine c /\ lineLength c' = lineLength c
  /\ (keys c "ArrowLeft" = true ->
      leftLine c' = Rmin 1.0 (leftLine c + 0.01 * sensitivity c)).
Proof.
  intros Hs (Hl & Hr & Hn) (Sl & Sr & Sn). unfold pollLeft.
  destruct (keys c "ArrowLeft") eqn:K1; [| destruct (keys c "a" || keys c "A")];
    poll_cases.
  - destruct (step_up Hs Hl) as [Hb Hm]. rewrite (clamp01_id Hb).
    repeat split; try tauto; try lra.
  - destruct (step_down Hs Hl) as [Hb Hm]. rewrite (clamp01_id Hb).
    repeat split; try tauto; try lra.
  - repeat split; try tauto; try lra.
Qed.

Lemma pollRight_ok (c : ControlState) (t : TetherConfig) :
  0 <= sensitivity c -> inRange c -> inSync c t ->
  let (c', t') := pollRight (c, t) in
  sensitivity c' = sensitivity c /\ keys c' = keys c
  /\ inRange c' /\ inSync c' t'
  /\ leftLine c' = leftLine c /\ lineLength c' = lineLength c
  /\ (keys c "ArrowRight" = true ->
      rightLine c' = Rmin 1.0 (rightLine c + 0.01 * sensitivity c)).
Proof.
  intros Hs (Hl & Hr & Hn) (Sl & Sr & Sn). unfold pollRight.
  destruct (keys c "ArrowRight") eqn:K1; [| destruct (keys c "d" || keys c "D")];
    poll_cases.
  - destruct (step_up Hs Hr) as [Hb Hm]. rewrite (clamp01_id Hb).
    repeat split; try tauto; try lra.
  - destruct (step_down Hs Hr) as [Hb Hm]. rewrite (clamp01_id Hb).
    repeat split; try tauto; try lra.
  - repeat split; try tauto; try lra.
Qed.

Lemma clamp11_id (v : R) : -1 <= v <= 1 -> Rmax (-1) (Rmin 1 v) = v.
Proof. intros [H0 H1]. rewrite Rmin_right by lra. apply Rmax_right. lra. Qed.

Lemma pollLength_ok (c : ControlState) (t : TetherConfig) :
  0 <= sensitivity c -> inRange c -> inSync c t ->
  let (c', t') := pollLength (c, t) in
  sensitivity c' = sensitivity c /\ keys c' = keys c
  /\ inRange c' /\ inSync c' t'
  /\ leftLine c' = leftLine c /\ rightLine c' = rightLine c
  /\ (keys c "ArrowUp" = true ->
      lineLength c' = Rmin 1.0 (lineLength c + 0.01 * sensitivity c)).
Proof.
  intros Hs (Hl & Hr & Hn) (Sl & Sr & Sn). unfold pollLength.
  destruct (keys c "ArrowUp") eqn:K1; [| destruct (keys c "ArrowDown")];
    poll_cases.
  - destruct (step_up Hs Hn) as [Hb Hm].
    rewrite clamp11_id by lra.
    repeat split; try tauto; try lra.
  - destruct (step_down Hs Hn) as [Hb Hm].
    rewrite clamp11_id by lra.
    repeat split; try tauto; try lra.
  - repeat split; try tauto; try lra.
Qed.

(** X22: [pollControls] with a sensitivity that is not negative keeps the
    three control values within [0, 1] and the tether configuration equal to
    what the controls show (inputs equal to the line values, overall
    adjustment [(lineLength - 0.5) * 2]); a held arrow key raises its value
    by [0.01 * sensitivity], up to 1. *)
Theorem pollControls_invariant (c : ControlState) (t : TetherConfig) :
  0 <= sensitivity c -> inRange c -> inSync c t ->
  let (c', t') := pollControls c t in
  inRange c' /\ inSync c' t'
  /\ (keys c "ArrowLeft" = true ->
      leftLine c' = Rmin 1.0 (leftLine c + 0.01 * sensitivity c))
  /\ (keys c "ArrowRight" = true ->
      rightLine c' = Rmin 1.0 (rightLine c + 0.01 * sensitivity c))
  /\ (keys c "ArrowUp" = true ->
      lineLength c' = Rmin 1.0 (lineLength c + 0.01 * sensitivity c)).
Proof.
  intros Hs Hr Hy. unfold pollControls.
  pose proof (@pollLeft_ok c t Hs Hr Hy) as H1.
  destruct (pollLeft (c, t)) as [c1 t1].
  destruct H1 as (Hs1 & Hk1 & Hr1 & Hy1 & Hrr1 & Hll1 & Hl1).
  assert (Hs1' : 0 <= sensitivity c1) by (rewrite Hs1; exact Hs).
  pose proof (@pollRight_ok c1 t1 Hs1' Hr1 Hy1) as H2.
  destruct (pollRight (c1, t1)) as [c2 t2].
  destruct H2 as (Hs2 & Hk2 & Hr2 & Hy2 & Hl2 & Hll2 & Hrr2).
  assert (Hs2' : 0 <= sensitivity c2) by (rewrite Hs2; exact Hs1').
  pose proof (@pollLength_ok c2 t2 Hs2' Hr2 Hy2) as H3.
  destruct (pollLength (c2, t2)) as [c3 t3].
  destruct H3 as (Hs3 & Hk3 & Hr3 & Hy3 & Hl3 & Hrr3 & Hll3).
  split; [exact Hr3 | split; [exact Hy3 |]].
  split; [| split].
  - intros K. rewrite Hl3, Hl2. apply Hl1. exact K.
  - intros K. rewrite Hrr3, Hrr2 by (rewrite Hk1; exact K).
    rewrite Hrr1, Hs1. reflexivity.
  - intros K. rewrite Hll3 by (rewrite Hk2, Hk1; exact K).
    rewrite Hll2, Hll1, Hs2, Hs1. reflexivity.
Qed.

Lemma holdLeft_ok :
  0 <= sensitivity holdLeft /\ inRange holdLeft /\ inSync holdLeft tetherConfig.
Proof.
  unfold inRange, inSync, holdLeft. simpl. repeat split; lra.
Qed.

Lemma pollControls_invariant_witness :
  let (c', t') := pollControls holdLeft tetherConfig in
  inRange c' /\ inSync c' t'.
Proof.
  pose proof (@pollControls_invariant holdLeft tetherConfig
                (proj1 holdLeft_ok) (proj1 (proj2 holdLeft_ok))
                (proj2 (proj2 holdLeft_ok))) as H.
  destruct (pollControls holdLeft tetherConfig) as [c' t'].
  split; [exact (proj1 H) | exact (proj1 (proj2 H))].
Defined.

End ControlsFacts.

(** ** Controls with a steering differential *)

Section DifferentialFacts.
Import Tether DifferentialControls.
Local Open Scope R_scope.

Lemma Rpower_one (e : R) : Rpower 1 e = 1.
Proof. unfold Rpower. rewrite ln_1, Rmult_0_r. apply exp_0. Qed.

Lemma Math_pow_unit (b e : R) :
  0 <= b <= 1 -> 0 <= e -> 0 <= Math_pow b e <= 1.
Proof.
  intros [Hb0 Hb1] He. unfold Math_pow.
  destruct (Rlt_dec 0 b) as [Hpos | _]; [| lra].
  split.
  - left. unfold Rpower. apply exp_pos.
  - rewrite <- (Rpower_one e). apply Rle_Rpower_l; lra.
Qed.

Lemma updateDifferentialControls_differential
    (c : ControlState) (t : TetherConfig) :
  differential (fst (updateDifferentialControls (c, t))) = differential c.
Proof.
  unfold updateDifferentialControls. cbv zeta.
  destruct (Rlt_dec (differential c) 0); reflexivity.
Qed.

(** X23: [updateDifferentialControls] with a differential in [-1, 1]:
    the two line values add up to 1 and lie within [0, 1], the left line is
    the tighter one exactly for a negative differential, and the tether
    configuration receives the two values and the differential unclamped. *)
Theorem updateDifferentialControls_lines (c : ControlState) (t : TetherConfig) :
  -1 <= differential c <= 1 ->
  let (c', t') := updateDifferentialControls (c, t) in
  differential c' = differential c
  /\ leftLine c' + rightLine c' = 1
  /\ 0 <= leftLine c' <= 1 /\ 0 <= rightLine c' <= 1
  /\ (differential c < 0 -> rightLine c' <= 0.5 <= leftLine c')
  /\ (0 <= differential c -> leftLine c' <= 0.5 <= rightLine c')
  /\ leftInput t' = leftLine c' /\ rightInput t' = rightLine c'
  /\ differentialLengthAdjustment t' = differential c.
Proof.
  intros Hd. unfold updateDifferentialControls. cbv zeta.
  assert (Ha : 0 <= Rabs (differential c) <= 1).
  { split; [apply Rabs_pos |]. apply Rabs_le. lra. }
  pose proof (@Math_pow_unit (Rabs (differential c)) 0.7 Ha) as Hp.
  assert (Hp' : 0 <= Math_pow (Rabs (differential c)) 0.7 <= 1) by (apply Hp; lra).
  clear Hp. set (p := Math_pow (Rabs (differential c)) 0.7) in *.
  destruct (Rlt_dec (differential c) 0) as [Hneg | Hpos];
    cbn [setLines leftLine rightLine differential setLeftInput setRightInput
         setDifferentialLineLength leftInput rightInput
         differentialLengthAdjustment];
    rewrite !clamp01_id by lra; rewrite clamp11_id by lra;
    repeat split; lra.
Qed.

Lemma updateDifferentialControls_lines_witness :
  let (c', t') := updateDifferentialControls (steeringLeft, tetherConfig) in
  leftLine c' + rightLine c' = 1 /\ rightLine c' <= 0.5 <= leftLine c'.
Proof.
  assert (Hd : -1 <= differential steeringLeft <= 1) by (simpl; lra).
  pose proof (@updateDifferentialControls_lines steeringLeft tetherConfig Hd)
    as H.
  destruct (updateDifferentialControls (steeringLeft, tetherConfig)) as [c' t'].
  destruct H as (_ & Hsum & _ & _ & Hneg & _).
  split; [exact Hsum | apply Hneg; simpl; lra].
Defined.

(** X24: the differential of the steering keys stays within [-1, 1] for a
    sensitivity that is not negative; the left arrow never raises it, the
    right arrow never lowers it, and with neither held it shrinks by 5 % per
    frame without changing sign, until its magnitude is at most 0.001, from
    where on nothing is written. *)
Theorem pollDifferential_range (c : ControlState) (t : TetherConfig) :
  0 <= sensitivity c -> -1 <= differential c <= 1 ->
  let d' := differential (fst (pollDifferential (c, t))) in
  -1 <= d' <= 1
  /\ (keys c "ArrowLeft" = true -> d' <= differential c)
  /\ (keys c "ArrowLeft" = false -> keys c "ArrowRight" = true ->
      differential c <= d')
  /\ (keys c "ArrowLeft" = false -> keys c "ArrowRight" = false ->
      Rabs d' <= Rabs (differential c)
      /\ 0 <= d' * differential c
      /\ (0.001 < Rabs (differential c) -> d' = differential c * 0.95)
      /\ (Rabs (differential c) <= 0.001 ->
          pollDifferential (c, t) = (c, t))).
Proof.
  intros Hs Hd. cbv zeta. unfold pollDifferential.
  destruct (keys c "ArrowLeft") eqn:KL;
    [| destruct (keys c "ArrowRight") eqn:KR;
       [| destruct (Rlt_dec 0.001 (Rabs (differential c))) as [Hbig | Hsmall]]];
    rewrite ?updateDifferentialControls_differential;
    cbn [setDifferential differential fst].
  - assert (Hr : -1 <= Rmax (-1.0) (differential c - 0.01 * sensitivity c) <= 1
                 /\ Rmax (-1.0) (differential c - 0.01 * sensitivity c)
                    <= differential c).
    { unfold Rmax. destruct (Rle_dec (-1.0) _); lra. }
    split; [exact (proj1 Hr) |].
    split; [intros _; exact (proj2 Hr) |].
    split; intros K; discriminate K.
  - assert (Hr : -1 <= Rmin 1.0 (differential c + 0.01 * sensitivity c) <= 1
                 /\ differential c
                    <= Rmin 1.0 (differential c + 0.01 * sensitivity c)).
    { unfold Rmin. destruct (Rle_dec 1.0 _); lra. }
    split; [exact (proj1 Hr) |].
    split; [intros K; discriminate K |].
    split; [intros _ _; exact (proj2 Hr) | intros _ K; discriminate K].
  - assert (Hr : -1 <= differential c * 0.95 <= 1) by lra.
    split; [exact Hr |].
    split; [intros K; discriminate K |].
    split; [intros _ K; discriminate K | intros _ _].
    split.
    + rewrite Rabs_mult. rewrite (Rabs_right 0.95) by lra.
      pose proof (Rabs_pos (differential c)). lra.
    + split; [| split; [reflexivity | intros Hle; lra]].
      pose proof (Rle_0_sqr (differential c)) as Hq. unfold Rsqr in Hq.
      replace (differential c * 0.95 * differential c)
        with (0.95 * (differential c * differential c)) by ring.
      apply Rmult_le_pos; lra.
  - split; [exact Hd |].
    split; [intros K; discriminate K |].
    split; [intros _ K; discriminate K | intros _ _].
    split; [lra |].
    split; [apply (Rle_0_sqr (differential c)) |].
    split; [intros Hbig; lra | reflexivity].
Qed.

Lemma pollDifferential_range_witness :
  -1 <= differential (fst (pollDifferential (steeringLeft, tetherConfig))) <= 1.
Proof.
  refine (proj1 (@pollDifferential_range steeringLeft tetherConfig _ _));
    simpl; lra.
Defined.

End DifferentialFacts.

(** ** Telemetry: loop counting and the angle of attack *)

Section TelemetryFacts.
Import Telemetry.
Local Open Scope R_scope.

Lemma trackLoops_step (rotation : vec R) (s : TelemetryState) :
  - (2 * PI) < rotationAccumulator s < 2 * PI ->
  - PI <= Vec.z rotation - Vec.z (lastRotation s) <= PI ->
  let s' := trackLoops rotation s in
  countedRotation s'
  = countedRotation s + (Vec.z rotation - Vec.z (lastRotation s))
  /\ - (2 * PI) < rotationAccumulator s' < 2 * PI
  /\ lastRotation s' = rotation
  /\ (loopsCW s <= loopsCW s' <= loopsCW s + 1)%nat
  /\ (loopsCCW s <= loopsCCW s' <= loopsCCW s + 1)%nat.
Proof.
  intros Hacc Hd. cbv zeta. pose proof PI_RGT_0 as Hpi.
  assert (Hdelta : rotationDelta rotation s
                   = Vec.z rotation - Vec.z (lastRotation s)).
  { unfold rotationDelta. cbv zeta.
    destruct (Rlt_dec PI _); [lra |]. destruct (Rlt_dec _ (- PI)); lra. }
  unfold trackLoops. cbv zeta. rewrite Hdelta.
  set (d := Vec.z rotation - Vec.z (lastRotation s)) in *.
  unfold countedRotation.
  destruct (Rle_dec (2 * PI) (rotationAccumulator s + d)) as [Hcw | Hncw];
    [| destruct (Rle_dec (rotationAccumulator s + d) (- 2 * PI)) as [Hccw | Hnccw]];
    cbn [loopsCW loopsCCW rotationAccumulator lastRotation];
    rewrite ?Nat.add_1_r, ?S_INR;
    (split; [lra | split; [lra | split; [reflexivity | split; lia]]]).
Qed.

(** X25: loop counting.  Over any sequence of telemetry updates whose roll
    angles differ by at most half a turn from one to the next, starting with
    an accumulator of less than one turn, [2 * pi * (loopsCW - loopsCCW)]
    plus the accumulator changes by exactly the roll covered; the accumulator
    stays below one turn in magnitude, and no counter decreases. *)
Theorem trackLoops_counts_net_rotation (rotations : list (vec R)) :
  forall s : TelemetryState,
  - (2 * PI) < rotationAccumulator s < 2 * PI ->
  gentle (Vec.z (lastRotation s)) rotations ->
  let s' := trackAll rotations s in
  countedRotation s'
  = countedRotation s
    + (lastZ (Vec.z (lastRotation s)) rotations - Vec.z (lastRotation s))
  /\ - (2 * PI) < rotationAccumulator s' < 2 * PI
  /\ (loopsCW s <= loopsCW s')%nat /\ (loopsCCW s <= loopsCCW s')%nat.
Proof.
  induction rotations as [| r rest IH]; intros s Hacc Hg; cbv zeta.
  - unfold trackAll, lastZ. cbn [fold_left last Vec.z].
    split; [lra | split; [exact Hacc | split; lia]].
  - destruct Hg as [Hd Hrest].
    destruct (@trackLoops_step r s Hacc Hd) as (Hc & Hacc1 & Hlast & Hcw & Hccw).
    change (trackAll (r :: rest) s) with (trackAll rest (trackLoops r s)).
    set (s1 := trackLoops r s) in *.
    assert (Hg1 : gentle (Vec.z (lastRotation s1)) rest)
      by (rewrite Hlast; exact Hrest).
    specialize (IH s1 Hacc1 Hg1). cbv zeta in IH.
    destruct IH as (Hc' & Hacc' & Hcw' & Hccw').
    split; [| split; [exact Hacc' | split; lia]].
    rewrite Hc', Hc, Hlast.
    assert (Hz : lastZ (Vec.z (lastRotation s)) (r :: rest)
                 = lastZ (Vec.z r) rest).
    { unfold lastZ. destruct rest as [| r' rest']; [reflexivity |].
      cbn [last]. clear. revert r'.
      induction rest' as [| r'' rest'' IH']; intros r'; [reflexivity |].
      cbn [last]. apply IH'. }
    rewrite Hz. lra.
Qed.

Lemma trackLoops_counts_net_rotation_witness :
  let s' := trackAll [Vec.mk 0 0 1; Vec.mk 0 0 2; Vec.mk 0 0 3] telemetryState in
  countedRotation s' = countedRotation telemetryState + (3 - 0).
Proof.
  refine (proj1 (@trackLoops_counts_net_rotation
                   [Vec.mk 0 0 1; Vec.mk 0 0 2; Vec.mk 0 0 3] telemetryState _ _)).
  - pose proof PI_RGT_0. simpl. lra.
  - pose proof PI2_1. simpl. repeat split; lra.
Defined.

Lemma kiteNormal_wind_bound (s c wx wy wz m : R) :
  s * s + c * c = 1 -> m * m = wx * wx + wy * wy + wz * wz -> 0 < m ->
  - 1 <= (0 * wx + s * wy + c * wz) / (1 * m) <= 1.
Proof.
  intros Hn Hm Hpos.
  assert (Hcs : (s * wy + c * wz) * (s * wy + c * wz) <= m * m).
  { pose proof (Rle_0_sqr (c * wy - s * wz)) as H1. unfold Rsqr in H1.
    pose proof (Rle_0_sqr wx) as H2. unfold Rsqr in H2.
    assert (Hid : (s * wy + c * wz) * (s * wy + c * wz)
                  + (c * wy - s * wz) * (c * wy - s * wz)
                  = (s * s + c * c) * (wy * wy + wz * wz)) by ring.
    rewrite Hn in Hid. lra. }
  assert (Hd : - m <= 0 * wx + s * wy + c * wz <= m).
  { assert (He : (0 * wx + s * wy + c * wz) * (0 * wx + s * wy + c * wz)
                 <= m * m).
    { replace (0 * wx + s * wy + c * wz) with (s * wy + c * wz) by ring.
      exact Hcs. }
    split; nra. }
  set (d := 0 * wx + s * wy + c * wz) in *.
  replace (d / (1 * m)) with (d / m) by (field; lra).
  split.
  - apply (Rmult_le_reg_r m); [exact Hpos |].
    replace (d / m * m) with d by (field; lra). lra.
  - apply (Rmult_le_reg_r m); [exact Hpos |].
    replace (d / m * m) with d by (field; lra). lra.
Qed.

(** X26: the angle of attack of the telemetry, in exact arithmetic and for a
    wind direction other than zero: the argument of [Math.acos] is within
    [-1, 1], the result is within 0 and 180 degrees, and for a wind along +z
    and a pitch within [0, pi] it is the pitch in degrees. *)
Theorem calculateAngleOfAttack_degrees (rotation windDirection : vec R) :
  windDirection <> Vec.mk 0 0 0 ->
  - 1 <= attackCosine rotation windDirection <= 1
  /\ 0 <= calculateAngleOfAttack rotation windDirection <= 180
  /\ (0 <= Vec.x rotation <= PI ->
      Vec.x windDirection = 0 -> Vec.y windDirection = 0 ->
      0 < Vec.z windDirection ->
      calculateAngleOfAttack rotation windDirection
      = Vec.x rotation * (180 / PI)).
Proof.
  intros Hw. destruct windDirection as [wx wy wz].
  destruct rotation as [rx ry rz].
  assert (Hq : 0 < wx * wx + wy * wy + wz * wz).
  { destruct (Req_dec wx 0) as [Hx | Hx];
    destruct (Req_dec wy 0) as [Hy | Hy];
    destruct (Req_dec wz 0) as [Hz | Hz]; subst; try nra.
    exfalso. apply Hw. reflexivity. }
  pose proof (sqrt_lt_R0 _ Hq) as Hm.
  pose proof (sqrt_sqrt _ (Rlt_le _ _ Hq)) as Hmm.
  pose proof (sin2_cos2 rx) as Hn. unfold Rsqr in Hn.
  assert (Hcos : attackCosine (Vec.mk rx ry rz) (Vec.mk wx wy wz)
                 = (0 * wx + sin rx * wy + cos rx * wz)
                   / (1 * sqrt (wx * wx + wy * wy + wz * wz))).
  { unfold attackCosine. cbv zeta. cbn [Vec.x Vec.y Vec.z].
    replace (0 * 0 + sin rx * sin rx + cos rx * cos rx) with 1 by lra.
    rewrite sqrt_1. reflexivity. }
  pose proof (@kiteNormal_wind_bound (sin rx) (cos rx) wx wy wz
                (sqrt (wx * wx + wy * wy + wz * wz)) Hn Hmm Hm) as Hb.
  pose proof PI_RGT_0 as Hpi.
  split; [rewrite Hcos; exact Hb |].
  unfold calculateAngleOfAttack. cbv zeta.
  split.
  - pose proof (acos_bound (attackCosine (Vec.mk rx ry rz) (Vec.mk wx wy wz)))
      as [Ha0 Ha1].
    set (a := acos _) in *.
    assert (Hk : 0 < 180 / PI) by (apply Rdiv_lt_0_compat; lra).
    split; [apply Rmult_le_pos; lra |].
    replace 180 with (PI * (180 / PI)) at 2 by (field; lra).
    apply Rmult_le_compat_r; lra.
  - cbn [Vec.x Vec.y Vec.z]. intros Hrx -> -> Hz.
    rewrite Hcos.
    replace (0 * 0 + 0 * 0 + wz * wz) with (wz * wz) by ring.
    rewrite sqrt_square by lra.
    replace ((0 * 0 + sin rx * 0 + cos rx * wz) / (1 * wz)) with (cos rx)
      by (field; lra).
    rewrite acos_cos by exact Hrx. reflexivity.
Qed.

Lemma calculateAngleOfAttack_degrees_witness :
  0 <= calculateAngleOfAttack (Vec.mk 1 0 0) (Vec.mk 0 0 1) <= 180.
Proof.
  refine (proj1 (proj2 (@calculateAngleOfAttack_degrees
                          (Vec.mk 1 0 0) (Vec.mk 0 0 1) _))).
  intros H. apply (f_equal (fun v => Vec.z v)) in H. simpl in H. lra.
Defined.

End TelemetryFacts.

(** ** The physics implementation guide *)

Section GuideStepperFacts.
Import Guide.
Local Open Scope Q_scope.

Variable World : Type.
Variable subStep : Q -> World -> World.

Lemma TIME_STEP_value : TIME_STEP == 1 # 60.
Proof. reflexivity. Qed.

Lemma frames_per_step (deltaTime : Q) :
  deltaTime / TIME_STEP == deltaTime * 60.
Proof. unfold TIME_STEP. field. Qed.

Lemma guide_updatePhysics_positive (deltaTime : Q) (w : World) :
  0 < deltaTime ->
  let n := subSteps deltaTime in
  (1 <= n)%Z
  /\ inject_Z (n - 1) * TIME_STEP < deltaTime <= inject_Z n * TIME_STEP
  /\ 0 < dt deltaTime <= TIME_STEP
  /\ inject_Z n * dt deltaTime == deltaTime
  /\ updatePhysics subStep deltaTime w
     = Nat.iter (Z.to_nat n) (subStep (dt deltaTime)) w.
Proof.
  intros Hpos. cbv zeta.
  pose proof (Qle_ceiling (deltaTime / TIME_STEP)) as Hup.
  pose proof (Qceiling_lt (deltaTime / TIME_STEP)) as Hlo.
  fold (subSteps deltaTime) in Hup, Hlo.
  rewrite frames_per_step in Hup, Hlo.
  set (n := subSteps deltaTime) in *.
  assert (Hn : (1 <= n)%Z).
  { assert (H0 : 0 < inject_Z n) by Lqa.lra.
    change 0 with (inject_Z 0) in H0. rewrite <- Zlt_Qlt in H0. lia. }
  assert (HnQ : 0 < inject_Z n).
  { change 0 with (inject_Z 0). rewrite <- Zlt_Qlt. lia. }
  assert (Hm1 : inject_Z (n - 1) == inject_Z n - 1).
  { unfold Z.sub. rewrite inject_Z_plus. reflexivity. }
  split; [exact Hn |].
  split.
  { rewrite Hm1, TIME_STEP_value. split; Lqa.lra. }
  assert (Hdt : inject_Z n * dt deltaTime == deltaTime).
  { unfold dt. fold n. field. intros H0. rewrite H0 in HnQ.
    apply (Qlt_irrefl 0). exact HnQ. }
  split; [| split; [exact Hdt | reflexivity]].
  set (d := dt deltaTime) in *.
  split.
  - apply Qnot_le_lt. intros Hle.
    assert (inject_Z n * d <= 0).
    { rewrite <- (Qmult_0_r (inject_Z n)).
      apply Qmult_le_l; assumption. }
    Lqa.lra.
  - apply Qnot_lt_le. intros Hgt.
    assert (inject_Z n * TIME_STEP < inject_Z n * d)
      by (apply Qmult_lt_l; assumption).
    rewrite TIME_STEP_value in *. Lqa.lra.
Qed.

Lemma guide_updatePhysics_idle (deltaTime : Q) (w : World) :
  deltaTime <= 0 -> updatePhysics subStep deltaTime w = w.
Proof.
  intros Hle. unfold updatePhysics.
  pose proof (Qceiling_lt (deltaTime / TIME_STEP)) as Hlo.
  fold (subSteps deltaTime) in Hlo. rewrite frames_per_step in Hlo.
  assert (Hm1 : inject_Z (subSteps deltaTime - 1)
                == inject_Z (subSteps deltaTime) - 1).
  { unfold Z.sub. rewrite inject_Z_plus. reflexivity. }
  rewrite Hm1 in Hlo.
  assert (H1 : inject_Z (subSteps deltaTime) < inject_Z 1).
  { change (inject_Z 1) with 1. Lqa.lra. }
  rewrite <- Zlt_Qlt in H1.
  replace (Z.to_nat (subSteps deltaTime)) with 0%nat by lia. reflexivity.
Qed.

(** X27: [updatePhysics] of the guide splits a frame into equal
    sub-steps.  A frame time that is not positive runs no sub-step.  A
    positive one runs [ceil(deltaTime * 60)] sub-steps, at least one, each of
    a length that is positive and at most 1/60 s, and the lengths add up to
    the frame time: no simulated time is lost, and nothing bounds the number
    of sub-steps. *)
Theorem guide_updatePhysics_splits_frame (deltaTime : Q) (w : World) :
  (deltaTime <= 0 -> updatePhysics subStep deltaTime w = w)
  /\ (0 < deltaTime ->
      let n := subSteps deltaTime in
      (1 <= n)%Z
      /\ inject_Z (n - 1) * TIME_STEP < deltaTime <= inject_Z n * TIME_STEP
      /\ 0 < dt deltaTime <= TIME_STEP
      /\ inject_Z n * dt deltaTime == deltaTime
      /\ updatePhysics subStep deltaTime w
         = Nat.iter (Z.to_nat n) (subStep (dt deltaTime)) w).
Proof.
  split.
  - apply guide_updatePhysics_idle.
  - apply guide_updatePhysics_positive.
Qed.

End GuideStepperFacts.

Lemma guide_updatePhysics_splits_frame_witness :
  (Guide.subSteps (1 # 20) = 3)%Z
  /\ (inject_Z (Guide.subSteps (1 # 20)) * Guide.dt (1 # 20) == 1 # 20)%Q.
Proof.
  split; [reflexivity |].
  refine (proj1 (proj2 (proj2 (proj2
    (proj2 (@guide_updatePhysics_splits_frame nat (fun _ n => S n) (1 # 20)
              0%nat) _))))).
  reflexivity.
Defined.

Section GuideRealFacts.
Import Guide.
Local Open Scope R_scope.

(** X28: in the guide the floor of the wind speed scales with the base
    speed.  For a base speed that is not negative, the current speed after
    [updateWindConditions] is at least [0.1 * baseSpeed]; and for a draw of
    [Math.random] in [[0, 1)] it is at most
    [baseSpeed * (1 + |gustStrength| + |turbulence| / 2)], and equal to the
    base speed times [1 + gust + turbulence term] when
    [|gustStrength| + |turbulence| / 2 <= 0.9]. *)
Theorem guide_wind_speed_floor (dt now r0 r1 r2 r3 : R) (w : WindProperties) :
  0 <= baseSpeed w ->
  let w' := updateWindConditions dt now r0 r1 r2 r3 w in
  0.1 * baseSpeed w <= currentSpeed w'
  /\ (0 <= r0 < 1 ->
      currentSpeed w'
      <= baseSpeed w
         * (1 + Rabs (gustStrength w) + 0.5 * Rabs (turbulence w)))
  /\ (0 <= r0 < 1 ->
      Rabs (gustStrength w) + 0.5 * Rabs (turbulence w) <= 0.9 ->
      currentSpeed w'
      = baseSpeed w * (1.0 + sin (now / 1000 * 0.5) * gustStrength w
                       + (r0 - 0.5) * turbulence w)).
Proof.
  intros Hb. cbv zeta. unfold updateWindConditions. cbv zeta.
  cbn [currentSpeed].
  set (g := sin (now / 1000 * 0.5) * gustStrength w).
  set (t := (r0 - 0.5) * turbulence w).
  pose proof (SIN_bound (now / 1000 * 0.5)) as [Hs1 Hs2].
  pose proof (Rabs_pos (gustStrength w)) as HG.
  pose proof (Rabs_pos (turbulence w)) as HT.
  assert (Hgg : - Rabs (gustStrength w) <= g <= Rabs (gustStrength w)).
  { unfold g, Rabs. destruct (Rcase_abs (gustStrength w)); split; nra. }
  assert (Htt : 0 <= r0 < 1 ->
                - (0.5 * Rabs (turbulence w)) <= t <= 0.5 * Rabs (turbulence w)).
  { intros Hr. unfold t, Rabs.
    destruct (Rcase_abs (turbulence w)); split; nra. }
  split; [| split].
  - rewrite Rmult_comm. apply Rmult_le_compat_l; [exact Hb | apply Rmax_l].
  - intros Hr. specialize (Htt Hr).
    apply Rmult_le_compat_l; [exact Hb |]. apply Rmax_lub; lra.
  - intros Hr Hsmall. specialize (Htt Hr). f_equal. apply Rmax_right. lra.
Qed.

Lemma guide_wind_speed_floor_witness :
  0.1 * baseSpeed windProperties
  <= currentSpeed (updateWindConditions (1 / 60) 0 0.5 0.5 0.5 0.5 windProperties)
  /\ currentSpeed (updateWindConditions (1 / 60) 0 0.5 0.5 0.5 0.5 windProperties)
     <= baseSpeed windProperties
        * (1 + Rabs (gustStrength windProperties)
           + 0.5 * Rabs (turbulence windProperties)).
Proof.
  assert (Hb : 0 <= baseSpeed windProperties) by (simpl; lra).
  pose proof (@guide_wind_speed_floor (1 / 60) 0 0.5 0.5 0.5 0.5
                windProperties Hb) as (Hfloor & Hupper & _).
  split; [exact Hfloor | apply Hupper; lra].
Defined.

(** X29: [crossProduct] of the guide is the right-handed vector product:
    perpendicular to both arguments, of squared length
    [|a|^2 |b|^2 - (a . b)^2], antisymmetric, and x cross y is z. *)
Theorem crossProduct_perpendicular (a b : vec R) :
  Engine.dot a (crossProduct a b) = 0
  /\ Engine.dot b (crossProduct a b) = 0
  /\ Engine.dot (crossProduct a b) (crossProduct a b)
     = Engine.dot a a * Engine.dot b b - Engine.dot a b * Engine.dot a b
  /\ crossProduct b a
     = Vec.mk (- Vec.x (crossProduct a b)) (- Vec.y (crossProduct a b))
              (- Vec.z (crossProduct a b))
  /\ crossProduct (Vec.mk 1 0 0) (Vec.mk 0 1 0) = Vec.mk 0 0 1.
Proof.
  destruct a as [a1 a2 a3], b as [b1 b2 b3].
  unfold Engine.dot, crossProduct. cbn [Vec.x Vec.y Vec.z].
  split; [ring | split; [ring | split; [ring | split]]];
    f_equal; ring.
Qed.

(** X30: one motion step of the guide, [integrateMotion] followed by
    [checkCollisions].  The height is advanced with the velocity already
    updated (semi-implicit Euler); the kite ends at 0.1 m or higher; a kite
    that would end below is put at 0.1 m with no vertical velocity and 80 %
    of its horizontal velocity, and any other kite is left as integrated. *)
Theorem guide_motion_stays_above_ground (dt : R) (k : Motion) :
  let k1 := integrateMotion dt k in
  let k2 := checkCollisions k1 in
  0.1 <= Vec.y (position k2)
  /\ Vec.y (position k1)
     = Vec.y (position k)
       + (Vec.y (velocity k) + Vec.y (acceleration k) * dt) * dt
  /\ (0.1 <= Vec.y (position k1) -> k2 = k1)
  /\ (Vec.y (position k1) < 0.1 ->
      Vec.y (position k2) = 0.1 /\ Vec.y (velocity k2) = 0
      /\ Vec.x (velocity k2) = Vec.x (velocity k1) * 0.8
      /\ Vec.z (velocity k2) = Vec.z (velocity k1) * 0.8
      /\ Vec.x (position k2) = Vec.x (position k1)
      /\ Vec.z (position k2) = Vec.z (position k1)).
Proof.
  cbv zeta. unfold checkCollisions.
  destruct (Rlt_dec (Vec.y (position (integrateMotion dt k))) 0.1) as [Hlow | Hok].
  - cbn [position velocity Vec.x Vec.y Vec.z].
    split; [lra | split; [reflexivity | split; [intros H; lra |]]].
    intros _. repeat split; reflexivity.
  - split; [lra | split; [reflexivity | split; [reflexivity |]]].
    intros H. lra.
Qed.

Lemma guide_motion_stays_above_ground_witness :
  Vec.y (position (checkCollisions (integrateMotion (1 / 60) falling))) = 0.1
  /\ Vec.y (velocity (checkCollisions (integrateMotion (1 / 60) falling))) = 0.
Proof.
  destruct (@guide_motion_stays_above_ground (1 / 60) falling)
    as (_ & _ & _ & Hlow).
  destruct Hlow as (Hy & Hv & _); [simpl; lra |].
  split; [exact Hy | exact Hv].
Defined.

End GuideRealFacts.
